(** * The resource layer of the Studio frontend (resources.js)

    A shallow embedding of the client-side data layer: the query resolution
    of [IndexedDBResource.where], the read path of [Resource.where], the
    reconciliation of [Resource.fetchCollection], and the ordering engine of
    the [Tree] resource ([resolveParent], [getNewSortOrder], [tableMove],
    [tableCopy], [copy]); the helpers that prepare objects for a store
    ([_cleanNew], [_prepareCopy], [_preparePut], [createObj], [put],
    [bulkPut]), the single-object operations of [Resource] ([get],
    [fetchModel], [copy]), [Channel.update], the users of a channel
    ([EditorM2M], [ViewerM2M], [ChannelUser]) and the settling of a request
    in [APIResource.makeRequest].

    Conventions.
    - A JavaScript function that may raise is a function into [completion];
      a promise is its settled [outcome].
    - [lft] is a JavaScript number.  The tree operations are modelled with
      exact rationals ([Q]): what they state about sort keys holds as long
      as the arithmetic is exact.  [SortOrder] gives [getNewSortOrder] with
      the arithmetic of doubles, rounding included.
    - IndexedDB tables are lists of rows kept in primary-key order; the
      object stores of the other resources are finite maps from the primary
      key to the row, and the order in which such a store lists its rows is
      not represented. *)

From Stdlib Require Import ZArith QArith Ascii String List Sorted OrderedTypeEx Lqa Floats.
From stdpp Require Import base option list strings gmap pretty sorting.

Local Open Scope Z_scope.

(** ** Errors, completions and promises *)

Inductive error :=
  | TypeError
  | RangeError
  | DataError
  | NetworkError.

(** The result of running a synchronous piece of JavaScript. *)
Inductive completion (A : Type) :=
  | Return (a : A)
  | Throw (e : error).
Arguments Return {A} a.
Arguments Throw {A} e.

(** The settled state of a promise. *)
Inductive outcome (A : Type) :=
  | Fulfilled (a : A)
  | Rejected (e : error).
Arguments Fulfilled {A} a.
Arguments Rejected {A} e.

Definition cbind {A B} (c : completion A) (k : A -> completion B) : completion B :=
  match c with
  | Return a => k a
  | Throw e => Throw e
  end.

Definition obind {A B} (p : outcome A) (k : A -> outcome B) : outcome B :=
  match p with
  | Fulfilled a => k a
  | Rejected e => Rejected e
  end.

Declare Scope js_scope.
Delimit Scope js_scope with js.
Notation "'let!' x ':=' c 'in' k" := (cbind c (fun x => k))
  (at level 10, x pattern, c at level 100, k at level 200) : js_scope.
Notation "'await' x ':=' p 'in' k" := (obind p (fun x => k))
  (at level 10, x pattern, p at level 100, k at level 200) : js_scope.
Local Open Scope js_scope.

(** [o.f] where [o] may be [undefined]: reading a property of [undefined]
    raises a TypeError. *)
Definition prop {A B} (o : option A) (f : A -> B) : completion B :=
  match o with
  | Some a => Return (f a)
  | None => Throw TypeError
  end.

(** [a && b] and [a || b] with JavaScript's left-to-right short circuit. *)
Definition js_and (a : bool) (b : completion bool) : completion bool :=
  if a then b else Return false.

Definition js_or (a b : completion bool) : completion bool :=
  let! x := a in if x then Return true else b.

(** [l[i]] for an integer [i]: [undefined] outside [0 .. length-1]. *)
Definition js_index {A} (l : list A) (i : Z) : option A :=
  if i <? 0 then None else l !! Z.to_nat i.

(** [l.slice(-1)[0]]: the last element, [undefined] for the empty array. *)
Definition js_last {A} (l : list A) : option A := last l.

(** [CHANGE_TYPES] and the transaction sources (imported from ./constants
    and ./db). *)
Inductive CHANGE_TYPES :=
  | CREATED
  | UPDATED
  | DELETED
  | MOVED
  | COPIED
  | CREATED_RELATION
  | DELETED_RELATION.

#[global] Instance CHANGE_TYPES_eq_dec : EqDecision CHANGE_TYPES.
Proof. solve_decision. Defined.

Inductive change_source :=
  | CLIENTID
  | IGNORED_SOURCE.

(** * JavaScript values *)

Module JS.

(** Primitive values.  Numbers are integers in this part of the model
    (keys, counters, timestamps in milliseconds). *)
Inductive prim :=
  | PNull
  | PBool (b : bool)
  | PNum (n : Z)
  | PStr (s : string).

(** The values held by the fields of a stored object and by query
    parameters: a primitive or an array of primitives. *)
Inductive value :=
  | Prim (p : prim)
  | Arr (ps : list prim).

#[global] Instance prim_eq_dec : EqDecision prim.
Proof. solve_decision. Defined.

#[global] Instance value_eq_dec : EqDecision value.
Proof. solve_decision. Defined.

(** A plain object: a finite map from property names to values.  A name
    that is not in the map reads as [undefined]. *)
Abbreviation object := (gmap string value).

(** [Object.assign(target, source)]: the properties of [source] are
    written onto [target]. *)
Definition assign (target source : object) : object := source ∪ target.





(** [key.split('__')]. *)
Fixpoint split_from (cur : list ascii) (s : string) : list string :=
  match s with
  | EmptyString => [string_of_list_ascii (rev cur)]
  | String c rest =>
      match rest with
      | String c' rest' =>
          if Ascii.eqb c "_" && Ascii.eqb c' "_"
          then string_of_list_ascii (rev cur) :: split_from [] rest'
          else split_from (c :: cur) rest
      | EmptyString => split_from (c :: cur) rest
      end
  end.

Definition SUFFIX_SEPERATOR_split (key : string) : list string := split_from [] key.

Definition LAST_FETCHED : string := "__last_fetch".

(** Number of seconds after which data is considered stale. *)
Definition REFRESH_INTERVAL : Z := 60.

End JS.

(** * Query resolution: [IndexedDBResource.where] *)

Module IndexedDBResource.
Import JS.

(** The part of a resource's configuration that queries and fetches use.
    [indexFields] is the set built by the constructor: the primary key and
    the declared index fields that are not compound. *)
Record resource := mkResource {
  tableName : string;
  idField : string;
  indexFields : list string;
  annotatedFilters : list string;
}.

(** The build the code runs in: [process.env.NODE_ENV === 'production']. *)
Record environment := mkEnv {
  production : bool;
}.

Definition QUERY_SUFFIXES_IN : string := "in".
Definition QUERY_SUFFIXES_GT : string := "gt".
Definition QUERY_SUFFIXES_GTE : string := "gte".
Definition QUERY_SUFFIXES_LT : string := "lt".
Definition QUERY_SUFFIXES_LTE : string := "lte".

Definition VALID_SUFFIXES : list string :=
  [QUERY_SUFFIXES_IN; QUERY_SUFFIXES_GT; QUERY_SUFFIXES_GTE;
   QUERY_SUFFIXES_LT; QUERY_SUFFIXES_LTE].

(** The four groups into which [where] sorts its parameters. *)
Record partition := mkPartition {
  whereParams : object;
  filterParams : object;
  arrayParams : object;
  suffixedParams : gmap string object;
}.

Definition empty_partition : partition := mkPartition ∅ ∅ ∅ ∅.

(** A string is truthy when it is not empty; [undefined] is falsy. *)
Definition truthy (suffix : option string) : bool :=
  match suffix with
  | Some s => negb (String.eqb s "")
  | None => false
  end.

(** One turn of the loop over [Object.keys(params)]. *)
Definition partition_step (r : resource) (acc : partition)
    (entry : string * value) : partition :=
  let '(key, v) := entry in
  let parts := SUFFIX_SEPERATOR_split key in
  let rootParam := default "" (head parts) in
  let suffix := parts !! 1%nat in
  if truthy suffix
     && bool_decide (default "" suffix ∈ VALID_SUFFIXES)
     && negb (String.eqb (default "" suffix) QUERY_SUFFIXES_IN)
  then
    let inner := default ∅ (suffixedParams acc !! rootParam) in
    mkPartition (whereParams acc) (filterParams acc) (arrayParams acc)
      (<[rootParam := <[default "" suffix := v]> inner]> (suffixedParams acc))
  else if bool_decide (rootParam ∈ indexFields r) then
    if bool_decide (suffix = Some QUERY_SUFFIXES_IN) then
      mkPartition (whereParams acc) (filterParams acc)
        (<[rootParam := v]> (arrayParams acc)) (suffixedParams acc)
    else if negb (truthy suffix) then
      mkPartition (<[rootParam := v]> (whereParams acc)) (filterParams acc)
        (arrayParams acc) (suffixedParams acc)
    else acc
  else
    mkPartition (whereParams acc) (<[rootParam := v]> (filterParams acc))
      (arrayParams acc) (suffixedParams acc).

(** [params] is given by its entries in the order of [Object.keys]. *)
Definition partition_params (r : resource) (params : list (string * value))
    : partition :=
  foldl (partition_step r) empty_partition params.

(** The keys IndexedDB accepts: numbers, strings, and arrays of these. *)
Definition valid_prim_key (p : prim) : bool :=
  match p with
  | PNum _ | PStr _ => true
  | _ => false
  end.

Definition valid_key (v : value) : bool :=
  match v with
  | Prim p => valid_prim_key p
  | Arr ps => forallb valid_prim_key ps
  end.

(** A Dexie collection: the rows it will deliver, or the failure it will
    report when it is run. *)
Definition collection : Type := outcome (list object).

(** [table.where(field).anyOf(values)]; a single value stands for the
    array holding it.  Dexie reports a key it cannot compare as a
    TypeError.  The rows are listed in the order of the table; the order
    in which the index delivers them is not represented. *)
Definition anyOf (table : list object) (field : string) (values : value)
    : collection :=
  let keys := match values with Prim p => [p] | Arr ps => ps end in
  if forallb valid_prim_key keys
  then Fulfilled
         (List.filter
            (fun row =>
               match row !! field with
               | Some (Prim p) => bool_decide (p ∈ keys)
               | _ => false
               end)
            table)
  else Rejected TypeError.

(** [table.where({ field: value, ... })]: the rows equal to the criteria
    on every field, compared as keys.  With several criteria Dexie reads
    one index and compares the other fields by their string forms; the
    two agree on rows whose fields have the type of the criteria. *)
Definition where_equal (table : list object) (criteria : object) : collection :=
  if bool_decide (map_Forall (fun _ v => valid_key v = true) criteria)
  then Fulfilled
         (List.filter
            (fun row =>
               bool_decide (map_Forall (fun k v => row !! k = Some v) criteria))
            table)
  else Rejected DataError.

(** lodash [matches(source)] on flat objects: a primitive must be equal,
    an array must be contained (as a multiset) in the array of the row. *)
Definition matches_value (src : value) (v : option value) : bool :=
  match src, v with
  | Prim p, Some (Prim q) => bool_decide (p = q)
  | Arr ps, Some (Arr qs) => bool_decide (ps ⊆+ qs)
  | _, _ => false
  end.

Definition matches (source : object) (row : object) : bool :=
  bool_decide (map_Forall (fun k src => matches_value src (row !! k) = true) source).

(** [a < b] and [a <= b] on numbers and on strings.  Operands of
    different kinds, which JavaScript compares after coercion, are outside
    the model and compare as [false] (as [undefined] does). *)
Definition js_lt (a : option value) (b : value) : bool :=
  match a, b with
  | Some (Prim (PNum x)), Prim (PNum y) => x <? y
  | Some (Prim (PStr x)), Prim (PStr y) =>
      match String.compare x y with Lt => true | _ => false end
  | _, _ => false
  end.

Definition js_le (a : option value) (b : value) : bool :=
  match a, b with
  | Some (Prim (PNum x)), Prim (PNum y) => x <=? y
  | Some (Prim (PStr x)), Prim (PStr y) =>
      match String.compare x y with Gt => false | _ => true end
  | _, _ => false
  end.

Definition js_gt (a : option value) (b : value) : bool :=
  match a, b with
  | Some (Prim (PNum x)), Prim (PNum y) => y <? x
  | Some (Prim (PStr x)), Prim (PStr y) =>
      match String.compare x y with Gt => true | _ => false end
  | _, _ => false
  end.

Definition js_ge (a : option value) (b : value) : bool :=
  match a, b with
  | Some (Prim (PNum x)), Prim (PNum y) => y <=? x
  | Some (Prim (PStr x)), Prim (PStr y) =>
      match String.compare x y with Lt => false | _ => true end
  | _, _ => false
  end.

(** The filter function for one suffix of one key; no function for a
    suffix that is not recognised. *)
Definition suffix_filter (key suffix : string) (v : value)
    : option (object -> bool) :=
  if String.eqb suffix QUERY_SUFFIXES_LT then Some (fun item => js_lt (item !! key) v)
  else if String.eqb suffix QUERY_SUFFIXES_LTE then Some (fun item => js_le (item !! key) v)
  else if String.eqb suffix QUERY_SUFFIXES_GT then Some (fun item => js_gt (item !! key) v)
  else if String.eqb suffix QUERY_SUFFIXES_GTE then Some (fun item => js_ge (item !! key) v)
  else None.

(** The flat list of the filter functions of all suffixed parameters. *)
Definition suffix_filters (suffixed : gmap string object) : list (object -> bool) :=
  flat_map
    (fun kv : string * object =>
       omap (fun sv : string * value => suffix_filter kv.1 sv.1 sv.2)
            (map_to_list kv.2))
    (map_to_list suffixed).

(** lodash [overEvery(fs)]. *)
Definition overEvery (fs : list (object -> bool)) : object -> bool :=
  fun item => forallb (fun f => f item) fs.

(** [console.warning(...)].  The console object has [warn] but no
    [warning], so the call raises a TypeError. *)
Definition console_warning : completion unit := Throw TypeError.

(** The warnings are compiled in outside production builds only. *)
Definition warn_unless_production (e : environment) (needed : bool)
    : completion unit :=
  if negb (production e) && needed then console_warning else Return tt.

(** [IndexedDBResource.where(params)].  [Object.keys(arrayParams)] is the
    list of the entries of [arrayParams].  The collection stays
    [undefined] ([None]) when more than one array parameter was given;
    calling a method on it then raises a TypeError. *)
Definition where_ (e : environment) (r : resource) (table : list object)
    (params : list (string * value)) : completion (outcome (list object)) :=
  let parts := partition_params r params in
  let! (coll, filterParams') :=
    match map_to_list (arrayParams parts) with
    | [] =>
        if (0 <? size (whereParams parts))%nat
        then Return (Some (where_equal table (whereParams parts)),
                     filterParams parts)
        else Return (Some (Fulfilled table), filterParams parts)
    | [(field, values)] =>
        let c := anyOf table field values in
        let! _ := warn_unless_production e
                    (1 <? size (whereParams parts))%nat in
        Return (Some c, assign (filterParams parts) (whereParams parts))
    | _ :: _ :: _ =>
        let! _ := warn_unless_production e true in
        Return (None, filterParams parts)
    end in
  let filterFn :=
    if negb (size filterParams' =? 0)%nat then Some (matches filterParams')
    else None in
  let filterFn :=
    if negb (size (suffixedParams parts) =? 0)%nat
    then Some (overEvery (suffix_filters (suffixedParams parts)
                          ++ option_list filterFn))
    else filterFn in
  let! coll :=
    match filterFn with
    | Some f =>
        let! c := prop coll (fun c => c) in
        Return (Some (await rows := c in Fulfilled (List.filter f rows)))
    | None => Return coll
    end in
  prop coll (fun c => c).

(** *** Sample tables *)

(** The Channel resource as the source declares it. *)
Definition Channel : resource :=
  mkResource "channel" "id" ["id"; "name"; "language"] ["bookmark"; "edit"; "view"].

Definition item (i x : Z) : object :=
  {[ "id" := Prim (PNum i); "x" := Prim (PNum x) ]}.

Definition sample_table : list object := [item 1 1; item 2 2; item 3 1].

Definition channel_row (i : Z) (name language : string) : object :=
  {[ "id" := Prim (PNum i); "name" := Prim (PStr name);
     "language" := Prim (PStr language) ]}.

Definition channel_table : list object :=
  [channel_row 1 "a" "en"; channel_row 2 "b" "en"; channel_row 3 "a" "fr"].

End IndexedDBResource.

(** * Change records and their merge *)

Module Changes.
Import JS.

(** A record of the change log, with the fields the merge and the fetch
    reconciliation read.  [obj] is the whole object of a CREATED record,
    [mods] the modifications of an UPDATED one; a field a record does not
    carry is the empty object. *)
Record Change := mkChange {
  key : value;
  table : string;
  type : CHANGE_TYPES;
  obj : object;
  mods : object;
  source : change_source;
}.











(** *** Sample records *)


Definition local_object : object :=
  {[ "id" := Prim (PStr "k"); "name" := Prim (PStr "local") ]}.


Definition fetched_object : object :=
  {[ "id" := Prim (PStr "k"); "name" := Prim (PStr "remote") ]}.


End Changes.

(** * The read path and the fetch reconciliation of [Resource] *)

Module Resource.
Import JS IndexedDBResource Changes.

(** ToNumber on the values a timestamp field may hold; [None] is NaN.
    Strings that spell a number are not modelled. *)
Definition to_number (v : option value) : option Z :=
  match v with
  | Some (Prim (PNum n)) => Some n
  | Some (Prim PNull) => Some 0
  | Some (Prim (PBool b)) => Some (if b then 1 else 0)
  | _ => None
  end.

(** [objectsAreStale(objs)], with [now] the value of [Date.now()]. *)
Definition objectsAreStale (now : Z) (objs : list object) : bool :=
  existsb
    (fun obj =>
       match to_number (obj !! LAST_FETCHED) with
       | Some fetched => fetched + REFRESH_INTERVAL * 1000 <? now
       | None => false
       end)
    objs.

(** What a call of [Resource.where] amounts to: whether it sent a request
    for the collection over the broadcast channel, and what the promise it
    returned settles to ([None]: it never settles). *)
Record read (R : Type) := mkRead {
  requested : bool;
  settles : option (outcome (list object + R));
}.
Arguments mkRead {R} requested settles.
Arguments requested {R} r.
Arguments settles {R} r.

(** [Resource.where(params)], given the completion [local] of
    [super.where(params)] and what the request made by [requestCollection]
    settles to, were it sent ([None]: no response ever arrives). *)
Definition where_ {R} (now : Z) (local : completion (outcome (list object)))
    (remote : option (outcome R)) : completion (read R) :=
  let! promise := local in
  match promise with
  | Rejected e => Return (mkRead false (Some (Rejected e)))
  | Fulfilled objs =>
      if (length objs =? 0)%nat
      then Return (mkRead true
                     (option_map (fun o => await r := o in Fulfilled (inr r))
                                 remote))
      else Return (mkRead (objectsAreStale now objs)
                          (Some (Fulfilled (inl objs))))
  end.








End Resource.

(** * The Tree resource *)

Module Tree.

(** [RELATIVE_TREE_POSITIONS] (imported from ./constants). *)
Inductive RELATIVE_TREE_POSITIONS :=
  | FIRST_CHILD
  | LAST_CHILD
  | LEFT
  | RIGHT.

#[global] Instance position_eq_dec : EqDecision RELATIVE_TREE_POSITIONS.
Proof. solve_decision. Defined.

(** A row of the tree table.  [None] stands for [null] (or an absent
    field); [lft] is a number or [null]. *)
Record TreeNode := mkNode {
  id : string;
  parent : option string;
  lft : option Q;
  tree_id : option string;
  channel_id : option string;
  source_id : option string;
  level : option Z;
}.

(** ToNumber on a number-or-null: [null] converts to 0. *)
Definition to_number (v : option Q) : Q := default 0%Q v.

(** lodash [findIndex(siblings, { id: target })]: the index of the first
    sibling whose id is [target], -1 when there is none. *)
Fixpoint findIndex_from (siblings : list TreeNode) (target : string) (i : Z) : Z :=
  match siblings with
  | [] => -1
  | n :: rest =>
      if String.eqb (id n) target then i else findIndex_from rest target (i + 1)
  end.

Definition findIndex (siblings : list TreeNode) (target : string) : Z :=
  findIndex_from siblings target 0.

(** [x.id === id] for a possibly undefined [x]. *)
Definition id_is (x : option TreeNode) (i : string) : completion bool :=
  let! xid := prop x id in Return (String.eqb xid i).

(** The no-op test at the head of [getNewSortOrder]. *)
Definition is_noop (i target : string) (position : RELATIVE_TREE_POSITIONS)
    (siblings : list TreeNode) : completion bool :=
  let targetNodeIndex := findIndex siblings target in
  js_or (js_and (bool_decide (position = FIRST_CHILD))
                (id_is (js_index siblings 0) i))
 (js_or (js_and (bool_decide (position = LAST_CHILD))
                (id_is (js_last siblings) i))
 (js_or (js_and (bool_decide (position = LEFT))
                (js_and (0 <? targetNodeIndex)
                        (id_is (js_index siblings (targetNodeIndex - 1)) i)))
        (js_and (bool_decide (position = RIGHT))
                (js_and (targetNodeIndex <? Z.of_nat (length siblings) - 2)
                        (id_is (js_index siblings (targetNodeIndex + 1)) i))))).

(** [Tree.getNewSortOrder(id, target, position, siblings)]; the result is a
    number or [null] ([None]).  [position] ranges over the four valid
    positions, so the [return null] that ends the source is not reached. *)
Definition getNewSortOrder (i target : string) (position : RELATIVE_TREE_POSITIONS)
    (siblings : list TreeNode) : completion (option Q) :=
  let targetNodeIndex := findIndex siblings target in
  let! noop := is_noop i target position siblings in
  if noop then Return None
  else match position with
  | FIRST_CHILD =>
      let! l := prop (js_index siblings 0) lft in
      Return (Some (to_number l / 2)%Q)
  | LAST_CHILD =>
      let! l := prop (js_last siblings) lft in
      Return (Some (to_number l + 1)%Q)
  | LEFT =>
      let leftSort :=
        match js_index siblings (targetNodeIndex - 1) with
        | Some n => to_number (lft n)
        | None => 0%Q
        end in
      let! t := prop (js_index siblings targetNodeIndex) lft in
      Return (Some ((leftSort + to_number t) / 2)%Q)
  | RIGHT =>
      let! rightSort :=
        match js_index siblings (targetNodeIndex + 1) with
        | Some n => Return (to_number (lft n))
        | None =>
            let! t := prop (js_index siblings targetNodeIndex) lft in
            Return (to_number t + 2)%Q
        end in
      let! t := prop (js_index siblings targetNodeIndex) lft in
      Return (Some ((to_number t + rightSort) / 2)%Q)
  end.

(** The ordering rules in the words of the spec, to compare the code
    with: half of the first sibling's [lft]; the last sibling's [lft] plus
    one; the midpoint of the target and its left neighbour (0 when there
    is none); the midpoint of the target and its right neighbour (the
    target's [lft] plus 2 when there is none). *)
Definition expected_sort_order (target : string)
    (position : RELATIVE_TREE_POSITIONS) (siblings : list TreeNode) : option Q :=
  match position with
  | FIRST_CHILD => (fun n => to_number (lft n) / 2)%Q <$> head siblings
  | LAST_CHILD => (fun n => to_number (lft n) + 1)%Q <$> last siblings
  | LEFT =>
      '(k, t) ← list_find (fun n => id n = target) siblings;
      let left :=
        match k with
        | O => 0%Q
        | S j => from_option (fun n => to_number (lft n)) 0%Q (siblings !! j)
        end in
      Some ((left + to_number (lft t)) / 2)%Q
  | RIGHT =>
      '(k, t) ← list_find (fun n => id n = target) siblings;
      let right :=
        from_option (fun n => to_number (lft n)) (to_number (lft t) + 2)%Q
                    (siblings !! S k) in
      Some ((to_number (lft t) + right) / 2)%Q
  end.

(** The no-op condition in the words of the spec, to compare the code
    with: the node [i] already is where the request wants it, as first
    sibling, as last sibling, or as the neighbour of [target] on the
    requested side. *)
Definition already_in_position (i target : string)
    (position : RELATIVE_TREE_POSITIONS) (siblings : list TreeNode) : Prop :=
  match position with
  | FIRST_CHILD => id <$> head siblings = Some i
  | LAST_CHILD => id <$> last siblings = Some i
  | LEFT =>
      exists k t, list_find (fun n => id n = target) siblings = Some (S k, t)
                  /\ id <$> siblings !! k = Some i
  | RIGHT =>
      exists k t, list_find (fun n => id n = target) siblings = Some (k, t)
                  /\ id <$> siblings !! S k = Some i
  end.

(** *** The tree table *)

(** [table.get(key)]. *)
Fixpoint get (t : list TreeNode) (k : string) : option TreeNode :=
  match t with
  | [] => None
  | n :: rest => if String.eqb (id n) k then Some n else get rest k
  end.

(** [table.put(row)]: replaces the row with the same primary key, or adds
    the row at its place in key order. *)
Fixpoint put (t : list TreeNode) (n : TreeNode) : list TreeNode :=
  match t with
  | [] => [n]
  | m :: rest =>
      match String.compare (id n) (id m) with
      | Eq => n :: rest
      | Lt => n :: m :: rest
      | Gt => m :: put rest n
      end
  end.

(** [table.where({ parent })]: the rows whose [parent] is [p]. *)
Definition where_parent (t : list TreeNode) (p : string) : list TreeNode :=
  filter (fun n => parent n = Some p) t.

(** The comparison Dexie's [sortBy] applies to the sort key: [a < b] on
    numbers, [null] converting to 0. *)
Definition lft_lt (a b : TreeNode) : bool :=
  negb (Qle_bool (to_number (lft b)) (to_number (lft a))).

Fixpoint sort_insert (x : TreeNode) (l : list TreeNode) : list TreeNode :=
  match l with
  | [] => [x]
  | y :: rest => if lft_lt y x then y :: sort_insert x rest else x :: y :: rest
  end.

(** [collection.sortBy('lft')]: a stable sort, ascending by [lft]. *)
Fixpoint sortBy_lft (l : list TreeNode) : list TreeNode :=
  match l with
  | [] => []
  | x :: rest => sort_insert x (sortBy_lft rest)
  end.

(** The records that the tree operations append to the change log, with
    the [mods] of a move and of a copy spelled out. *)
Inductive tree_mods :=
  | MoveMods (target : string) (position : RELATIVE_TREE_POSITIONS)
  | CopyMods (target : string) (position : RELATIVE_TREE_POSITIONS)
             (new_lft : option Q) (new_channel_id : option string).

Record Change := mkChange {
  key : string;
  from_key : option string;
  mods : tree_mods;
  oldObj : option TreeNode;
  source : change_source;
  type : CHANGE_TYPES;
}.

(** The tables a tree transaction works on: the tree table, the change
    log, and the ContentNode table reduced to the ids of the bare rows that
    [copy] puts there; and the position in the stream of identifiers that
    [uuid4] hands out. *)
Record db := mkDb {
  tree : list TreeNode;
  changes : list Change;
  contentnode : list string;
  uuids : nat;
}.

(** [Tree.resolveParent(target, position)]. *)
Definition resolveParent (t : list TreeNode) (target : string)
    (position : RELATIVE_TREE_POSITIONS) : outcome (option string) :=
  if bool_decide (position = FIRST_CHILD) || bool_decide (position = LAST_CHILD)
  then Fulfilled (Some target)
  else match get t target with
       | Some node => Fulfilled (parent node)
       | None => Rejected RangeError
       end.

(** [Tree.getNewParentAndSiblings(target, position)].  [null] is not a key
    IndexedDB accepts, so [where({ parent: null })] rejects. *)
Definition getNewParentAndSiblings (t : list TreeNode) (target : string)
    (position : RELATIVE_TREE_POSITIONS) : outcome (string * list TreeNode) :=
  await parent := resolveParent t target position in
  match parent with
  | Some p => Fulfilled (p, sortBy_lft (where_parent t p))
  | None => Rejected DataError
  end.

(** A synchronous exception inside a [then] callback rejects the promise. *)
Definition settle {A} (c : completion A) : outcome A :=
  match c with
  | Return a => Fulfilled a
  | Throw e => Rejected e
  end.

(** [a === b] on number-or-null values. *)
Definition lft_same (a b : option Q) : bool :=
  match a, b with
  | Some x, Some y => Qeq_bool x y
  | None, None => true
  | _, _ => false
  end.

(** [table.update(id, { parent, lft })].  Dexie reports 1 when a row was
    found and changed, and 0 when the key is missing or when the row
    already holds exactly these values. *)
Definition update (t : list TreeNode) (k p : string) (l : option Q)
    : nat * list TreeNode :=
  match get t k with
  | None => (0%nat, t)
  | Some n =>
      if bool_decide (parent n = Some p) && lft_same (lft n) l then (0%nat, t)
      else (1%nat,
            put t (mkNode (id n) (Some p) l (tree_id n) (channel_id n)
                          (source_id n) (level n)))
  end.

(** The choice of [lft] made by [tableMove] and [tableCopy]: the computed
    sort order when the parent has children, otherwise 1 with the request
    rewritten to last-child of the parent. *)
Definition place (i target : string) (position : RELATIVE_TREE_POSITIONS)
    (p : string) (siblings : list TreeNode)
    : completion (option Q * string * RELATIVE_TREE_POSITIONS) :=
  match siblings with
  | _ :: _ =>
      let! l := getNewSortOrder i target position siblings in
      Return (l, target, position)
  | [] => Return (Some 1%Q, p, LAST_CHILD)
  end.

(** [Tree.tableMove(id, target, position)].  [position] ranges over the
    valid positions, so the guard on [validPositions] always passes. *)
Definition tableMove (st : db) (i target : string)
    (position : RELATIVE_TREE_POSITIONS) : outcome (TreeNode * db) :=
  await (p, siblings) := getNewParentAndSiblings (tree st) target position in
  await (l, target', position') := settle (place i target position p siblings) in
  let old := get (tree st) i in
  let '(updated, t1) := update (tree st) i p l in
  await (data, t2) :=
    match updated with
    | S _ => Fulfilled (mkNode i (Some p) l None None None None, t1)
    | O =>
        await parentNode := settle (prop (get t1 p) (fun x => x)) in
        let data := mkNode i (Some p) l (tree_id parentNode)
                           (channel_id parentNode) None None in
        Fulfilled (data, put t1 data)
    end in
  let change := mkChange i None (MoveMods target' position') old CLIENTID MOVED in
  Fulfilled (data, mkDb t2 (changes st ++ [change]) (contentnode st) (uuids st)).

Section Copy.

(** [uuid n] is the [n]-th identifier returned by [uuid4()]. *)
Variable uuid : nat -> string.

(** [Tree.tableCopy(id, target, position, changeType)]. *)
Definition tableCopy (st : db) (i target : string)
    (position : RELATIVE_TREE_POSITIONS) (changeType : CHANGE_TYPES)
    : outcome (TreeNode * db) :=
  await (p, siblings) := getNewParentAndSiblings (tree st) target position in
  await (l, target', position') := settle (place i target position p siblings) in
  let new_id := uuid (uuids st) in
  await parentNode := settle (prop (get (tree st) p) (fun x => x)) in
  await node := settle (prop (get (tree st) i) (fun x => x)) in
  let data := mkNode new_id (Some (id parentNode)) l (tree_id parentNode)
                     (channel_id node) (Some i)
                     (Z.succ <$> level parentNode) in
  let change := mkChange new_id (Some i)
                  (CopyMods target' position' l (channel_id node))
                  None CLIENTID changeType in
  Fulfilled (data, mkDb (put (tree st) data) (changes st ++ [change])
                        (contentnode st) (S (uuids st))).

(** Modelled from the spec: [promiseChunk] of shared/utils, which is not
    part of the sources at hand.  The things are cut into batches of
    [size]; the callback runs on one batch after the other and the results
    of the batches are concatenated. *)
Fixpoint chunk_fuel {A} (fuel size : nat) (l : list A) : list (list A) :=
  match fuel, l with
  | S fuel', _ :: _ => take size l :: chunk_fuel fuel' size (drop size l)
  | _, _ => []
  end.

(** Modelled from the spec: the batches of [promiseChunk]. *)
Definition chunk {A} (size : nat) (l : list A) : list (list A) :=
  chunk_fuel (length l) size l.

(** A computation on the store that may fail, and that may not finish
    within the recursion depth allowed ([None]). *)
Definition task (A : Type) : Type := db -> option (outcome (A * db)).

Definition tbind {A B} (m : task A) (k : A -> task B) : task B :=
  fun st =>
    match m st with
    | None => None
    | Some (Rejected e) => Some (Rejected e)
    | Some (Fulfilled (a, st')) => k a st'
    end.

Definition tret {A} (a : A) : task A := fun st => Some (Fulfilled (a, st)).

(** [Promise.all(things.map(f))], the tasks taken in order, each run to
    its end before the next.  The copies of the children of one node write
    below different new parents, so which row is copied below which, and
    the order of the rows returned, do not depend on how the transactions
    interleave.  The code starts the transactions of all the children
    before those of any grandchild: the order in which identifiers are
    drawn and records are logged is not the one of this sequential run. *)
Fixpoint all {A B} (f : A -> task B) (things : list A) : task (list B) :=
  match things with
  | [] => tret []
  | x :: rest =>
      tbind (f x) (fun r => tbind (all f rest) (fun rs => tret (r :: rs)))
  end.

(** Modelled from the spec: [promiseChunk] running over its batches. *)
Fixpoint promiseChunk_batches {A B} (callback : list A -> task (list B))
    (batches : list (list A)) : task (list B) :=
  match batches with
  | [] => tret []
  | b :: rest =>
      tbind (callback b) (fun r =>
      tbind (promiseChunk_batches callback rest) (fun rs => tret (r ++ rs)))
  end.

(** Modelled from the spec: [promiseChunk(things, size, callback)]. *)
Definition promiseChunk {A B} (things : list A) (size : nat)
    (callback : list A -> task (list B)) : task (list B) :=
  promiseChunk_batches callback (chunk size things).

(** [Tree.copy(id, target, position, deep, changeType)].  The recursion
    follows the rows of the table, so it is bounded by [fuel]; [None]
    means the bound was reached. *)
Fixpoint copy (fuel : nat) (i target : string)
    (position : RELATIVE_TREE_POSITIONS) (deep : bool)
    (changeType : CHANGE_TYPES) : task (list TreeNode) :=
  match fuel with
  | O => fun _ => None
  | S fuel' =>
      tbind (fun st => Some (tableCopy st i target position changeType))
        (fun data =>
      tbind (if deep
             then
               tbind (fun st =>
                        tret (sortBy_lft (where_parent (tree st) i)) st)
                 (fun children =>
               tbind (promiseChunk children 50
                        (all (fun child =>
                                copy fuel' (id child) (id data) LAST_CHILD
                                     deep changeType)))
                 (fun results => tret (data :: concat results)))
             else tret [data])
        (fun results =>
           if bool_decide (changeType = COPIED) then tret results
           else fun st =>
             tret results
               (mkDb (tree st) (changes st)
                     (contentnode st ++ map id results) (uuids st))))
  end.

End Copy.

(** *** The rows of a subtree *)

(** The rows of the subtree below [x], in the order in which a deep copy
    visits them: the row itself, then the subtrees of its children taken
    in ascending [lft].  The answer is [None] when the subtree is deeper
    than [depth] or when [x] is not a row of the table. *)
Fixpoint preorder (depth : nat) (t : list TreeNode) (x : string)
    : option (list TreeNode) :=
  match depth with
  | O => None
  | S d =>
      node ← get t x;
      ls ← mapM (fun c => preorder d t (id c)) (sortBy_lft (where_parent t x));
      Some (node :: concat ls)
  end.

(** The order of the primary key, the order in which the table keeps its
    rows. *)
Definition key_lt (a b : TreeNode) : Prop := String.compare (id a) (id b) = Lt.

(** A table in primary key order: no key occurs twice. *)
Definition key_ordered (t : list TreeNode) : Prop := StronglySorted key_lt t.

(** The parent link of the row [y]. *)
Definition parent_of (t : list TreeNode) (y : string) : option string :=
  r ← get t y; parent r.

(** The row reached from [y] by following [k] parent links. *)
Fixpoint ancestor (t : list TreeNode) (k : nat) (y : string) : option string :=
  match k with
  | O => Some y
  | S k' => p ← parent_of t y; ancestor t k' p
  end.

(** No identifier that [uuid4] is still to return is the key of a row. *)
Definition unused_uuids (uuid : nat -> string) (st : db) : Prop :=
  forall k, (uuids st <= k)%nat -> uuid k ∉ map id (tree st).

(** What a run of [copy] from [st] to [st'] leaves behind: one copy per
    original, with identifiers drawn in sequence and stored in the table;
    the rows that were there are untouched, and only [p] and the new rows
    have gained children. *)
Definition copied (uuid : nat -> string) (p : string) (st st' : db)
    (originals copies : list TreeNode) : Prop :=
  map source_id copies = map (fun r => Some (id r)) originals /\
  map id copies = map uuid (seq (uuids st) (length copies)) /\
  uuids st' = (uuids st + length copies)%nat /\
  (forall r, r ∈ copies -> get (tree st') (id r) = Some r) /\
  (forall k r, get (tree st) k = Some r -> get (tree st') k = Some r) /\
  (forall y, y <> p -> (forall k, (uuids st <= k)%nat -> y <> uuid k) ->
             where_parent (tree st') y = where_parent (tree st) y) /\
  unused_uuids uuid st'.

(** The statement proved by induction on the depth bound. *)
Definition copy_ok (uuid : nat -> string) (changeType : CHANGE_TYPES) (n : nat) : Prop :=
  forall st i target position p pn l,
    unused_uuids uuid st ->
    preorder n (tree st) i = Some l ->
    resolveParent (tree st) target position = Fulfilled (Some p) ->
    get (tree st) p = Some pn ->
    p ∉ map id l ->
    exists res st',
      copy uuid n i target position true changeType st
        = Some (Fulfilled (res, st')) /\
      copied uuid p st st' l res.

(** A copy either exhausts the depth bound or finishes; when it finishes
    the rows that were in the table are still there. *)
Definition runs_or_finishes (uuid : nat -> string) (st : db)
    (r : option (outcome (list TreeNode * db))) : Prop :=
  r = None \/
  exists res st', r = Some (Fulfilled (res, st')) /\
    (forall k row, get (tree st) k = Some row -> get (tree st') k = Some row) /\
    unused_uuids uuid st'.

(** *** Sample rows *)

(** A child of the node "p" with the given sort key. *)
Definition sibling (i : string) (l : Q) : TreeNode :=
  mkNode i (Some "p") (Some l) (Some "t") (Some "ch") None (Some 1).

(** A stream of identifiers: "u", "uu", "uuu", ... *)
Fixpoint sample_uuid (k : nat) : string :=
  match k with
  | O => "u"
  | S k0 => String "u"%char (sample_uuid k0)
  end.

(** A table with two trees: "p" with children "a" (which has the child
    "c") and "b", and the single node "q". *)
Definition sample_db : db :=
  mkDb [sibling "a" 1; sibling "b" 2;
        mkNode "c" (Some "a") (Some 1%Q) (Some "t") (Some "ch") None (Some 2);
        mkNode "p" None (Some 1%Q) (Some "t") (Some "ch") None (Some 0);
        mkNode "q" None (Some 1%Q) (Some "t2") (Some "ch2") None (Some 0)]
       [] [] 0.

End Tree.

(** * More on query resolution *)

Module Query.
Import JS IndexedDBResource.

(** The root and the suffix that [where] reads off a parameter name: the
    first two pieces of [key.split('__')]. *)
Definition root_of (key : string) : string :=
  default "" (head (SUFFIX_SEPERATOR_split key)).

Definition suffix_of (key : string) : option string :=
  SUFFIX_SEPERATOR_split key !! 1%nat.

(** The value recorded for the range suffix [suffix] of the parameter
    [root]. *)
Definition range_param (parts : partition) (root suffix : string) : option value :=
  inner ← suffixedParams parts !! root; inner !! suffix.

(** The parameter is a range parameter: its suffix is valid and is not
    [in]. *)
Definition is_range (key : string) : bool :=
  truthy (suffix_of key)
  && bool_decide (default "" (suffix_of key) ∈ VALID_SUFFIXES)
  && negb (String.eqb (default "" (suffix_of key)) QUERY_SUFFIXES_IN).

End Query.

(** * The order of siblings *)

Module TreeOrder.
Import Tree.

(** The number by which [sortBy('lft')] orders a row. *)
Definition sort_key (n : TreeNode) : Q := to_number (lft n).

(** Rows in ascending order of [lft], and in strictly ascending order. *)
Definition lft_le (a b : TreeNode) : Prop := (sort_key a <= sort_key b)%Q.
Definition lft_before (a b : TreeNode) : Prop := (sort_key a < sort_key b)%Q.

(** The copies mirror the originals: there is one copy per original, the
    first copy hangs below [p], and every other copy hangs below the copy
    of the parent of its original. *)
Definition mirrored (p : string) (originals copies : list TreeNode) : Prop :=
  length copies = length originals /\
  parent <$> head copies = Some (Some p) /\
  forall o c, (o, c) ∈ tail (zip originals copies) ->
    exists o' c', (o', c') ∈ zip originals copies /\
      parent o = Some (id o') /\ parent c = Some (id c').

(** The statement about the shape of a deep copy that is proved by
    induction on the depth bound. *)
Definition copy_mirrors (uuid : nat -> string) (changeType : CHANGE_TYPES)
    (n : nat) : Prop :=
  forall st i target position p pn l,
    unused_uuids uuid st ->
    key_ordered (tree st) ->
    preorder n (tree st) i = Some l ->
    resolveParent (tree st) target position = Fulfilled (Some p) ->
    get (tree st) p = Some pn ->
    p ∉ map id l ->
    exists res st',
      copy uuid n i target position true changeType st
        = Some (Fulfilled (res, st')) /\
      copied uuid p st st' l res /\
      mirrored p l res /\
      key_ordered (tree st').

End TreeOrder.

(** * Object stores *)

Module Table.
Import JS IndexedDBResource.

#[global] Instance prim_countable : Countable prim.
Proof.
  refine (inj_countable'
            (fun p => match p with
                      | PNull => inl (inl tt)
                      | PBool b => inl (inr b)
                      | PNum n => inr (inl n)
                      | PStr s => inr (inr s)
                      end)
            (fun x => match x with
                      | inl (inl _) => PNull
                      | inl (inr b) => PBool b
                      | inr (inl n) => PNum n
                      | inr (inr s) => PStr s
                      end) _).
  by intros [].
Defined.

#[global] Instance value_countable : Countable value.
Proof.
  refine (inj_countable'
            (fun v => match v with Prim p => inl p | Arr ps => inr ps end)
            (fun x => match x with inl p => Prim p | inr ps => Arr ps end) _).
  by intros [].
Defined.

(** An object store: a finite map from the primary key to the row stored
    under it.  The order in which a query lists rows is not part of the
    model. *)
Abbreviation table := (gmap value object).

(** The key path of a primary key: one property, or several for a
    compound key such as [[user+channel]]. *)
Inductive keyPath :=
  | Single (field : string)
  | Compound (fields : list string).

Definition prim_field (row : object) (field : string) : option prim :=
  match row !! field with
  | Some (Prim p) => Some p
  | _ => None
  end.

(** The primary key that a row yields; [None] when a property of the key
    path is missing or is not a valid key. *)
Definition key_of (path : keyPath) (row : object) : option value :=
  match path with
  | Single field =>
      match row !! field with
      | Some v => if valid_key v then Some v else None
      | None => None
      end
  | Compound fields =>
      match mapM (prim_field row) fields with
      | Some ps => if forallb valid_prim_key ps then Some (Arr ps) else None
      | None => None
      end
  end.

(** The rows of a store, as [toArray()] lists them. *)
Definition rows (t : table) : list object := (map_to_list t).*2.

(** [table.get(key)]. *)
Definition get (t : table) (key : value) : outcome (option object) :=
  if valid_key key then Fulfilled (t !! key) else Rejected DataError.

(** [table.put(row)]: the row replaces the one stored under its key. *)
Definition put (path : keyPath) (t : table) (row : object) : outcome table :=
  match key_of path row with
  | Some key => Fulfilled (<[key := row]> t)
  | None => Rejected DataError
  end.

(** [table.bulkPut(rows)], the rows put one after the other. *)
Definition bulkPut (path : keyPath) (t : table) (batch : list object)
    : outcome table :=
  foldl (fun acc row => await t' := acc in put path t' row) (Fulfilled t) batch.

(** [table.delete(key)]. *)
Definition delete (t : table) (key : value) : outcome table :=
  if valid_key key then Fulfilled (base.delete key t) else Rejected DataError.

(** Every row is stored under the key it yields. *)
Definition keyed (path : keyPath) (t : table) : Prop :=
  forall key row, t !! key = Some row -> key_of path row = Some key.

End Table.

(** * Preparing objects for a store: the helpers of [IndexedDBResource] *)

Module Store.
Import JS IndexedDBResource.

(** A resource together with its [uuid] option: whether new rows are given
    an identifier by [uuid4()]. *)
Record store := mkStore {
  resource_of : resource;
  uuid : bool;
}.

(** The object spread [{ ...a, ...b }]: the properties of [b] win. *)
Definition spread (a b : object) : object := b ∪ a.

(** [Array.prototype.map(f)] for a function that may raise. *)
Fixpoint map_raising {A B} (f : nat -> A -> completion B) (k : nat) (l : list A)
    : completion (list B) :=
  match l with
  | [] => Return []
  | x :: rest =>
      let! y := f k x in
      let! ys := map_raising f (S k) rest in
      Return (y :: ys)
  end.

Section Prepare.

(** [NEW_OBJECT] (imported from shared/constants): the property that marks
    an object that has not been committed to a store yet. *)
Variable NEW_OBJECT : string.

(** [_cleanNew(obj)]. *)
Definition _cleanNew (obj : object) : object := base.delete NEW_OBJECT obj.

(** [_prepareCopy(original)]; [fresh] is what [uuid4()] returns when it is
    called. *)
Definition _prepareCopy (this : store) (fresh : string) (original : object)
    : object :=
  let id : object :=
    if uuid this then {[ idField (resource_of this) := Prim (PStr fresh) ]}
    else ∅ in
  _cleanNew (spread original id).

(** [_preparePut(obj)].  The receiver is [None] when the method is called
    without one (as a bare function): reading [this._prepareCopy] then
    raises a TypeError. *)
Definition _preparePut (this : option store) (fresh : string) (obj : object)
    : completion object :=
  let! idMap := prop this (fun s => _prepareCopy s fresh ∅) in
  Return (_cleanNew (spread idMap obj)).

(** [createObj(obj)]. *)
Definition createObj (this : store) (fresh : string) (obj : object)
    : completion object :=
  let! prepared := _preparePut (Some this) fresh obj in
  Return (<[NEW_OBJECT := Prim (PBool true)]> prepared).

(** [put(obj)]: the arrow function of the transaction keeps the receiver. *)
Definition put (this : store) (fresh : string) (t : Table.table) (obj : object)
    : completion (outcome Table.table) :=
  let! prepared := _preparePut (Some this) fresh obj in
  Return (Table.put (Table.Single (idField (resource_of this))) t prepared).

(** [bulkPut(objs)].  [objs.map(this._preparePut)] hands the method to
    [map] as a bare function, so it runs without a receiver; [fresh k] is
    what [uuid4()] would return for the object at index [k]. *)
Definition bulkPut (this : store) (fresh : nat -> string) (t : Table.table)
    (objs : list object) : completion (outcome Table.table) :=
  let! putObjs := map_raising (fun k obj => _preparePut None (fresh k) obj) 0 objs in
  Return (Table.bulkPut (Table.Single (idField (resource_of this))) t putObjs).

End Prepare.

End Store.

(** * The single-object operations of [Resource] *)

Module Models.
Import JS IndexedDBResource Table Store.

(** What a read amounts to that may fall back on a request over the
    broadcast channel: whether the request was sent, and what the promise
    settles to ([None]: it never settles). *)
Record fetched (A : Type) := mkFetched {
  sent : bool;
  answer : option (outcome A);
}.
Arguments mkFetched {A} sent answer.
Arguments sent {A} f.
Arguments answer {A} f.

(** [Resource.get(id)], given what the request made by [requestModel]
    settles to, were it sent.  A row is an object, so it is truthy; the
    answer of the request may be no object at all ([None]). *)
Definition get (t : table) (id : value)
    (remote : option (outcome (option object))) : fetched (option object) :=
  match Table.get t id with
  | Rejected e => mkFetched false (Some (Rejected e))
  | Fulfilled (Some obj) => mkFetched false (Some (Fulfilled (Some obj)))
  | Fulfilled None => mkFetched true remote
  end.

(** [Resource.fetchModel(id)], given what [client.get] settles to (the
    [data] of the response) and the value [now] of [Date.now()]. *)
Definition fetchModel (this : store) (now : Z) (t : table)
    (response : outcome object) : outcome (object * table) :=
  await data := response in
  let data := <[LAST_FETCHED := Prim (PNum now)]> data in
  await t' := Table.put (Single (idField (resource_of this))) t data in
  Fulfilled (data, t').

(** The record that [Resource.copy] adds to the change log. *)
Record CopyChange := mkCopyChange {
  key : option value;
  from_key : value;
  mods : object;
  table_name : string;
  type : CHANGE_TYPES;
}.

(** How [Resource.copy] may fail: with an error of the store, or with
    [Error('Object not found')]. *)
Inductive copy_failure :=
  | Raised (e : error)
  | ObjectNotFound.

Section Copy.
Variable NEW_OBJECT : string.

(** [Resource.copy(id, updater)], given what [this.get(id)] settled to.
    [updater] is the function that [resolveUpdater] returns.  The change
    record and the row are written in one transaction, so a failure of the
    [put] leaves both the store and the log as they were. *)
Definition copy (this : store) (fresh : string) (t : table)
    (log : list CopyChange) (id : value) (updater : object -> object)
    (found : outcome (option object))
    : copy_failure + (option value * table * list CopyChange) :=
  match found with
  | Rejected e => inl (Raised e)
  | Fulfilled None => inl ObjectNotFound
  | Fulfilled (Some obj) =>
      let mods := updater obj in
      let copy := _prepareCopy NEW_OBJECT this fresh obj in
      let change := mkCopyChange (copy !! "id") id mods
                                 (tableName (resource_of this)) COPIED in
      let row := spread copy mods in
      match Table.put (Single (idField (resource_of this))) t row with
      | Fulfilled t' =>
          inr (key_of (Single (idField (resource_of this))) row, t',
               log ++ [change])
      | Rejected e => inl (Raised e)
      end
  end.

End Copy.

End Models.

(** * [Channel.update]: the merge of content defaults *)

Module ChannelDefaults.
Import JS.

(** A channel row: its own properties, and its [content_defaults] object
    ([None] when the row has none, or a falsy value in its place). *)
Record channel := mkChannel {
  fields : object;
  content_defaults : option object;
}.

(** The [content_defaults] of the argument of [update]: left out, [null],
    or an object. *)
Inductive defaults_arg :=
  | Absent
  | Null
  | Given (defaults : object).

(** The callback that [Channel.update(id, { content_defaults, ...changes })]
    hands to [modify].  [Object.keys(null)] raises a TypeError. *)
Definition update_row (arg : defaults_arg) (changes : object) (ch : channel)
    : completion channel :=
  let! defaults :=
    match arg with
    | Absent => Return ∅
    | Null => Throw TypeError
    | Given d => Return d
    end in
  let merged :=
    if negb (size defaults =? 0)%nat
    then Some (assign (default ∅ (content_defaults ch)) defaults)
    else content_defaults ch in
  Return (mkChannel (assign (fields ch) changes) merged).

End ChannelDefaults.

(** * The users of a channel: [EditorM2M], [ViewerM2M] and [ChannelUser] *)

Module ChannelUser.
Import JS IndexedDBResource Table.

(** ToBoolean. *)
Definition truthy_value (v : option value) : bool :=
  match v with
  | None => false
  | Some (Prim PNull) => false
  | Some (Prim (PBool b)) => b
  | Some (Prim (PNum n)) => negb (n =? 0)
  | Some (Prim (PStr s)) => negb (String.eqb s "")
  | Some (Arr _) => true
  end.

(** The two relation tables. *)
Inductive relation_table :=
  | EDITOR_M2M
  | VIEWER_M2M.

(** The record that a change of a relation adds to the change log. *)
Record RelationChange := mkRelationChange {
  obj : object;
  source : change_source;
  table_name : relation_table;
  type : CHANGE_TYPES;
}.

(** The stores that the operations on channel users work on: the users,
    the two relations between users and channels, and the change log. *)
Record db := mkDb {
  users : table;
  editors : table;
  viewers : table;
  log : list RelationChange;
}.

(** The primary key of the relation tables, [[user+channel]]. *)
Definition m2m : keyPath := Compound ["user"; "channel"].

(** The object [{ user, channel }]. *)
Definition pair_row (user channel : value) : object :=
  {[ "user" := user; "channel" := channel ]}.

(** The key [[user, channel]]; an array inside the key is outside the
    model and counts as no key. *)
Definition pair_key (user channel : value) : option value :=
  match user, channel with
  | Prim u, Prim c => Some (Arr [u; c])
  | _, _ => None
  end.

(** [EditorM2M.put(channel, user)]. *)
Definition EditorM2M_put (st : db) (channel user : value) : outcome db :=
  await editors' := Table.put m2m (editors st) (pair_row user channel) in
  Fulfilled (mkDb (users st) editors' (viewers st)
                  (log st ++ [mkRelationChange (pair_row user channel) CLIENTID
                                               EDITOR_M2M CREATED_RELATION])).

(** [ViewerM2M.delete(channel, user)]. *)
Definition ViewerM2M_delete (st : db) (channel user : value) : outcome db :=
  await viewers' :=
    match pair_key user channel with
    | Some key => Table.delete (viewers st) key
    | None => Rejected DataError
    end in
  Fulfilled (mkDb (users st) (editors st) viewers'
                  (log st ++ [mkRelationChange (pair_row user channel) CLIENTID
                                               VIEWER_M2M DELETED_RELATION])).

(** [ChannelUser.makeEditor(channel, user)]. *)
Definition makeEditor (st : db) (channel user : value) : outcome db :=
  await st1 := ViewerM2M_delete st channel user in
  EditorM2M_put st1 channel user.

(** [ChannelUser.removeViewer(channel, user)]. *)
Definition removeViewer (st : db) (channel user : value) : outcome db :=
  ViewerM2M_delete st channel user.

(** An object with the properties that are defined. *)
Definition with_property (name : string) (v : option value) (o : object)
    : object :=
  match v with
  | Some v => <[name := v]> o
  | None => o
  end.

(** The three batches that the loop of [ChannelUser.fetchCollection]
    fills. *)
Record batches := mkBatches {
  userData : list object;
  editorM2M : list object;
  viewerM2M : list object;
}.

(** The row of a user, and the row of its relation to the channel. *)
Definition userDatum (now : Z) (datum : object) : object :=
  base.delete "can_view"
    (base.delete "can_edit" (<[LAST_FETCHED := Prim (PNum now)]> datum)).

Definition m2mDatum (now : Z) (channel : option value) (datum : object) : object :=
  with_property "channel" channel
    (with_property "user" (datum !! "id")
       {[ LAST_FETCHED := Prim (PNum now) ]}).

(** One turn of the loop over [itemData]. *)
Definition fetch_step (now : Z) (channel : option value) (acc : batches)
    (datum : object) : batches :=
  let users := userData acc ++ [userDatum now datum] in
  if truthy_value (datum !! "can_edit")
  then mkBatches users (editorM2M acc ++ [m2mDatum now channel datum])
                 (viewerM2M acc)
  else if truthy_value (datum !! "can_view")
  then mkBatches users (editorM2M acc)
                 (viewerM2M acc ++ [m2mDatum now channel datum])
  else mkBatches users (editorM2M acc) (viewerM2M acc).

Definition fetch_batches (now : Z) (channel : option value)
    (itemData : list object) : batches :=
  foldl (fetch_step now channel) (mkBatches [] [] []) itemData.

(** [ChannelUser.fetchCollection(params)], given the [data] of the
    response, the value [now] of [Date.now()] and [params.channel]. *)
Definition fetchCollection (st : db) (now : Z) (channel : option value)
    (response : outcome (list object)) : outcome (list object * db) :=
  await itemData := response in
  let b := fetch_batches now channel itemData in
  await editors' := Table.bulkPut m2m (editors st) (editorM2M b) in
  await viewers' := Table.bulkPut m2m (viewers st) (viewerM2M b) in
  await users' := Table.bulkPut (Single "id") (users st) (userData b) in
  Fulfilled (itemData, mkDb users' editors' viewers' (log st)).

(** What [ChannelUser.where] answers with: the users it found in the
    stores, or the promise of a request for the collection. *)
Inductive answer :=
  | Local (found : list object)
  | Requested.

(** The [user] of every relation row; [None] when a row has none that is a
    primitive. *)
Definition users_of (relations : list object) : option (list prim) :=
  mapM (fun relation => prim_field relation "user") relations.

(** The user with the permissions the relation rows give. *)
Definition with_permissions (editorSet viewerSet : list prim) (user : object)
    : object :=
  let has (set : list prim) :=
    match user !! "id" with
    | Some (Prim p) => bool_decide (p ∈ set)
    | _ => false
    end in
  <["can_view" := Prim (PBool (has viewerSet))]>
    (<["can_edit" := Prim (PBool (has editorSet))]> user).

(** [ChannelUser.where({ channel })], with [now] the value of
    [Date.now()]. *)
Definition where_ (st : db) (now : Z) (channel : option value)
    : completion (outcome answer) :=
  match channel with
  | Some c =>
      if truthy_value channel then
        let params : object := {[ "channel" := c ]} in
        Return (
          await editors := where_equal (rows (editors st)) params in
          await viewers := where_equal (rows (viewers st)) params in
          if (length editors =? 0)%nat && (length viewers =? 0)%nat
          then Fulfilled Requested
          else if Resource.objectsAreStale now editors
                  || Resource.objectsAreStale now viewers
          then Fulfilled Requested
          else
            match users_of editors, users_of viewers with
            | Some editorSet, Some viewerSet =>
                await found :=
                  anyOf (rows (users st)) "id" (Arr (editorSet ++ viewerSet)) in
                Fulfilled
                  (Local (map (with_permissions editorSet viewerSet) found))
            | _, _ => Rejected DataError
            end)
      else Throw TypeError
  | None => Throw TypeError
  end.

(** The user [p] is related to the channel [c] by a row of [relations]. *)
Definition related (relations : list object) (c : value) (p : prim) : Prop :=
  exists relation,
    relation ∈ relations /\ relation !! "channel" = Some c
    /\ relation !! "user" = Some (Prim p).

End ChannelUser.

(** * Requests over the broadcast channel: [APIResource.makeRequest] *)

Module Requests.

(** The types of the messages on the channel ([MESSAGES]) and the states
    of a response ([STATUS]), imported from ./constants; [OTHER_STATUS]
    stands for a status that is neither of the two, or for none. *)
Inductive message_type :=
  | FETCH_MODEL
  | FETCH_COLLECTION
  | REQUEST_RESPONSE.

Inductive status :=
  | SUCCESS
  | FAILURE
  | OTHER_STATUS.

#[global] Instance message_type_eq_dec : EqDecision message_type.
Proof. solve_decision. Defined.

(** A message; [err] is [None] when the message carries no error, or a
    falsy one. *)
Record message (D E : Type) := mkMessage {
  messageId : string;
  type : message_type;
  state : status;
  data : D;
  err : option E;
}.
Arguments mkMessage {D E} messageId type state data err.
Arguments messageId {D E} m.
Arguments type {D E} m.
Arguments state {D E} m.
Arguments data {D E} m.
Arguments err {D E} m.

(** How the promise of a request is settled: resolved with the data,
    rejected with the error, or rejected with nothing. *)
Inductive settled (D E : Type) :=
  | Resolved (d : D)
  | RejectedWith (e : E)
  | RejectedEmpty.
Arguments Resolved {D E} d.
Arguments RejectedWith {D E} e.
Arguments RejectedEmpty {D E}.

(** The [handler] that [makeRequest] adds for the messages of the channel.
    The state is the promise: [None] while the handler listens; once it has
    settled the promise the handler is removed and later messages do not
    reach it. *)
Definition handler {D E} (id : string) (promise : option (settled D E))
    (msg : message D E) : option (settled D E) :=
  match promise with
  | Some s => Some s
  | None =>
      if String.eqb (messageId msg) id && bool_decide (type msg = REQUEST_RESPONSE)
      then
        match state msg, err msg with
        | SUCCESS, _ => Some (Resolved (data msg))
        | FAILURE, Some e => Some (RejectedWith e)
        | _, _ => Some RejectedEmpty
        end
      else None
  end.

(** [makeRequest(request)] with the message id it drew, and the messages
    that arrive on the channel afterwards. *)
Definition makeRequest {D E} (id : string) (arriving : list (message D E))
    : option (settled D E) :=
  foldl (handler id) None arriving.

End Requests.

(** * The sort keys as doubles: [getNewSortOrder] in IEEE 754 arithmetic *)

Module SortOrder.
Import Tree.

(** The [lft] of a row as JavaScript holds it: a number (an IEEE 754
    double), [null], or [undefined] when the row has no such property. *)
Inductive lft_value :=
  | Number (x : float)
  | Null
  | Undefined.

(** ToNumber: [null] converts to 0, [undefined] to NaN. *)
Definition to_number (v : lft_value) : float :=
  match v with
  | Number x => x
  | Null => 0%float
  | Undefined => nan
  end.

(** A sibling row, with the two properties that [getNewSortOrder] reads. *)
Record Sibling := mkSibling {
  id : string;
  lft : lft_value;
}.

(** lodash [findIndex(siblings, { id: target })]: the index of the first
    sibling whose id is [target], -1 when there is none. *)
Fixpoint findIndex_from (siblings : list Sibling) (target : string) (i : Z) : Z :=
  match siblings with
  | [] => -1
  | n :: rest =>
      if String.eqb (id n) target then i else findIndex_from rest target (i + 1)
  end.

Definition findIndex (siblings : list Sibling) (target : string) : Z :=
  findIndex_from siblings target 0.

(** [x.id === id] for a possibly undefined [x]. *)
Definition id_is (x : option Sibling) (i : string) : completion bool :=
  let! xid := prop x id in Return (String.eqb xid i).

(** The no-op test at the head of [getNewSortOrder]. *)
Definition is_noop (i target : string) (position : RELATIVE_TREE_POSITIONS)
    (siblings : list Sibling) : completion bool :=
  let targetNodeIndex := findIndex siblings target in
  js_or (js_and (bool_decide (position = FIRST_CHILD))
                (id_is (js_index siblings 0) i))
 (js_or (js_and (bool_decide (position = LAST_CHILD))
                (id_is (js_last siblings) i))
 (js_or (js_and (bool_decide (position = LEFT))
                (js_and (0 <? targetNodeIndex)
                        (id_is (js_index siblings (targetNodeIndex - 1)) i)))
        (js_and (bool_decide (position = RIGHT))
                (js_and (targetNodeIndex <? Z.of_nat (length siblings) - 2)
                        (id_is (js_index siblings (targetNodeIndex + 1)) i))))).

(** [Tree.getNewSortOrder(id, target, position, siblings)], with the
    arithmetic of the source: [+] and [/] on doubles, each rounding to the
    nearest double.  The result is a number or [null] ([None]).
    [position] ranges over the four valid positions, so the [return null]
    that ends the source is not reached. *)
Definition getNewSortOrder (i target : string) (position : RELATIVE_TREE_POSITIONS)
    (siblings : list Sibling) : completion (option float) :=
  let targetNodeIndex := findIndex siblings target in
  let! noop := is_noop i target position siblings in
  if noop then Return None
  else match position with
  | FIRST_CHILD =>
      let! l := prop (js_index siblings 0) lft in
      Return (Some (to_number l / 2)%float)
  | LAST_CHILD =>
      let! l := prop (js_last siblings) lft in
      Return (Some (to_number l + 1)%float)
  | LEFT =>
      let leftSort :=
        match js_index siblings (targetNodeIndex - 1) with
        | Some n => lft n
        | None => Number 0%float
        end in
      let! t := prop (js_index siblings targetNodeIndex) lft in
      Return (Some ((to_number leftSort + to_number t) / 2)%float)
  | RIGHT =>
      let! rightSort :=
        match js_index siblings (targetNodeIndex + 1) with
        | Some n => Return (lft n)
        | None =>
            let! t := prop (js_index siblings targetNodeIndex) lft in
            Return (Number (to_number t + 2)%float)
        end in
      let! t := prop (js_index siblings targetNodeIndex) lft in
      Return (Some ((to_number t + to_number rightSort) / 2)%float)
  end.

(** The ordering rules in the words of the spec, read in the arithmetic
    of doubles, to compare the code with: half of the first sibling's
    [lft]; the last sibling's [lft] plus one; the midpoint of the target
    and its left neighbour (0 when there is none); the midpoint of the
    target and its right neighbour (the target's [lft] plus 2 when there
    is none). *)
Definition expected_sort_order (target : string)
    (position : RELATIVE_TREE_POSITIONS) (siblings : list Sibling)
    : option float :=
  match position with
  | FIRST_CHILD => (fun n => to_number (lft n) / 2)%float <$> head siblings
  | LAST_CHILD => (fun n => to_number (lft n) + 1)%float <$> last siblings
  | LEFT =>
      '(k, t) ← list_find (fun n => id n = target) siblings;
      let left :=
        match k with
        | O => 0%float
        | S j => from_option (fun n => to_number (lft n)) 0%float (siblings !! j)
        end in
      Some ((left + to_number (lft t)) / 2)%float
  | RIGHT =>
      '(k, t) ← list_find (fun n => id n = target) siblings;
      let right :=
        from_option (fun n => to_number (lft n)) (to_number (lft t) + 2)%float
                    (siblings !! S k) in
      Some ((to_number (lft t) + right) / 2)%float
  end.

(** The no-op condition in the words of the spec: the node [i] already
    is where the request wants it. *)
Definition already_in_position (i target : string)
    (position : RELATIVE_TREE_POSITIONS) (siblings : list Sibling) : Prop :=
  match position with
  | FIRST_CHILD => id <$> head siblings = Some i
  | LAST_CHILD => id <$> last siblings = Some i
  | LEFT =>
      exists k t, list_find (fun n => id n = target) siblings = Some (S k, t)
                  /\ id <$> siblings !! k = Some i
  | RIGHT =>
      exists k t, list_find (fun n => id n = target) siblings = Some (k, t)
                  /\ id <$> siblings !! S k = Some i
  end.

(** The real number that a double stands for; none for NaN and for the
    infinities. *)
Definition exact (x : float) : option Q :=
  match Prim2SF x with
  | S754_zero _ => Some 0%Q
  | S754_finite s m e =>
      let v := (inject_Z (Z.pos m) * Qpower 2 e)%Q in
      Some (if s then Qopp v else v)
  | _ => None
  end.

(** A sibling whose [lft] is the number [x]. *)
Definition row (i : string) (x : float) : Sibling := mkSibling i (Number x).

End SortOrder.

(** * Properties *)

(** ** Query resolution *)

Module QueryFacts.
Import JS IndexedDBResource.

(** C6.  A query with more than one membership parameter on indexed
    fields does not complete: in every build it raises a TypeError, and
    no membership filter is applied. *)
Theorem where_many_array_params e r table params :
  (1 < size (arrayParams (partition_params r params)))%nat ->
  where_ e r table params = Throw TypeError.
Proof.
  intros Hsize. unfold where_.
  rewrite <- length_map_to_list in Hsize.
  destruct (map_to_list (arrayParams (partition_params r params)))
    as [|[field values] [|entry' entries]]; simpl in Hsize; [lia..|].
  unfold warn_unless_production.
  destruct (production e); [|reflexivity]. simpl.
  destruct (negb (size (filterParams (partition_params r params)) =? 0)%nat);
    destruct (negb (size (suffixedParams (partition_params r params)) =? 0)%nat);
    reflexivity.
Qed.

Lemma filter_all_true {A} (f : A -> bool) (l : list A) :
  (forall x, f x = true) -> List.filter f l = l.
Proof.
  intros Hf. induction l as [|x l IH]; simpl; [done|]. by rewrite Hf, IH.
Qed.

Lemma matches_empty (source : object) row : size source = 0%nat -> matches source row = true.
Proof.
  intros ->%map_size_empty_inv. unfold matches.
  apply bool_decide_eq_true. apply map_Forall_empty.
Qed.

Lemma where_membership_post_filter e r table params field values :
  let parts := partition_params r params in
  arrayParams parts = {[field := values]} ->
  suffixedParams parts = ∅ ->
  production e = true \/ (size (whereParams parts) <= 1)%nat ->
  where_ e r table params =
    Return (await rows := anyOf table field values in
            Fulfilled
              (List.filter (matches (assign (filterParams parts) (whereParams parts)))
                           rows)).
Proof.
  intros parts Harr Hsuf Hwarn. unfold where_. fold parts.
  rewrite Harr, Hsuf, map_to_list_singleton, map_size_empty.
  simpl.
  assert (warn_unless_production e (1 <? size (whereParams parts))%nat = Return tt)
    as ->.
  { unfold warn_unless_production. destruct Hwarn as [->|Hle]; [done|].
    destruct (Nat.ltb_spec 1 (size (whereParams parts))); [lia|].
    by rewrite andb_false_r. }
  simpl.
  destruct (Nat.eqb_spec (size (assign (filterParams parts) (whereParams parts))) 0)
    as [Hempty|Hne]; simpl; [|done].
  destruct (anyOf table field values) as [rows|err]; simpl; [|done].
  rewrite filter_all_true; [done|]. intros row. by apply matches_empty.
Qed.

Lemma where_membership_example e :
  where_ e Channel sample_table
    [("id__in", Arr [PNum 1; PNum 2; PNum 3]); ("x", Prim (PNum 1))]
  = Return (Fulfilled [item 1 1; item 3 1]).
Proof. destruct e as [[|]]; vm_compute; reflexivity. Qed.

(** C5.  With one membership parameter on an indexed field, the equality
    parameters are applied as a filter over the membership match
    ([where_membership_post_filter], [where_membership_example]); but in a
    build that is not a production build, a query with two or more
    equality parameters on indexed fields raises a TypeError from the
    warning it tries to log, where a production build returns the
    filtered match. *)
Theorem where_membership_warning_raises :
  let params := [("id__in", Arr [PNum 1; PNum 2; PNum 3]);
                 ("name", Prim (PStr "a")); ("language", Prim (PStr "en"))] in
  where_ (mkEnv false) Channel channel_table params = Throw TypeError /\
  where_ (mkEnv true) Channel channel_table params
    = Return (Fulfilled [channel_row 1 "a" "en"]).
Proof. split; vm_compute; reflexivity. Qed.

Lemma where_many_array_params_witness :
  where_ (mkEnv true) Channel channel_table
    [("id__in", Arr [PNum 1; PNum 2]); ("name__in", Arr [PStr "a"])]
  = Throw TypeError.
Proof. apply where_many_array_params. vm_compute. lia. Defined.

End QueryFacts.

(** ** The change merge *)

Module ChangesFacts.
Import JS Changes.




















End ChangesFacts.

(** ** The read path and the fetch reconciliation *)

Module ResourceFacts.
Import JS IndexedDBResource Changes Resource.

Lemma objectsAreStale_spec now objs :
  objectsAreStale now objs = true <->
  exists obj fetched, obj ∈ objs /\ to_number (obj !! LAST_FETCHED) = Some fetched
                      /\ now - fetched > REFRESH_INTERVAL * 1000.
Proof.
  unfold objectsAreStale. rewrite existsb_exists. split.
  - intros (obj & Hin & H). apply list_elem_of_In in Hin.
    destruct (to_number _) as [fetched|] eqn:E; [|done].
    exists obj, fetched. split_and!; [done..|]. apply Z.ltb_lt in H. lia.
  - intros (obj & fetched & Hin & E & H). exists obj.
    split; [by apply list_elem_of_In|]. rewrite E. apply Z.ltb_lt. lia.
Qed.

(** C4.  When the local query finds nothing, the promise of
    [Resource.where] settles as the request for the collection does.  When
    it finds rows of which one is stale, a request is sent and the promise
    is fulfilled with the local rows whatever becomes of the request: a
    failure of the request is not passed on. *)
Theorem where_stale_while_revalidate {R} (now : Z) (remote : option (outcome R)) :
  where_ now (Return (Fulfilled [])) remote =
    Return (mkRead true
              (option_map (fun o => await r := o in Fulfilled (inr r)) remote))
  /\
  (forall objs obj fetched,
     obj ∈ objs ->
     obj !! LAST_FETCHED = Some (Prim (PNum fetched)) ->
     now - fetched > REFRESH_INTERVAL * 1000 ->
     where_ now (Return (Fulfilled objs)) remote =
       Return (mkRead true (Some (Fulfilled (inl objs))))).
Proof.
  split; [reflexivity|].
  intros objs obj fetched Hin Hf Hstale. unfold where_. simpl.
  destruct objs as [|o objs']; [by apply elem_of_nil in Hin|]. simpl length.
  replace (objectsAreStale now (o :: objs')) with true; [done|].
  symmetry. apply objectsAreStale_spec. exists obj, fetched.
  split_and!; [done| |done]. by rewrite Hf.
Qed.

Lemma where_stale_while_revalidate_witness :
  Resource.where_ 100000 (Return (Fulfilled [<[LAST_FETCHED := Prim (PNum 0)]> fetched_object]))
         (Some (Rejected NetworkError : outcome unit))
  = Return (mkRead true
      (Some (Fulfilled (inl [<[LAST_FETCHED := Prim (PNum 0)]> fetched_object])))).
Proof.
  apply (proj2 (where_stale_while_revalidate 100000 (Some (Rejected NetworkError)))
           _ (<[LAST_FETCHED := Prim (PNum 0)]> fetched_object) 0).
  - left.
  - reflexivity.
  - vm_compute. reflexivity.
Defined.








End ResourceFacts.

(** ** The Tree resource *)

Module TreeFacts.
Import Tree.

Lemma findIndex_from_find siblings target z :
  findIndex_from siblings target z =
  match list_find (fun n => id n = target) siblings with
  | Some (k, _) => z + Z.of_nat k
  | None => -1
  end.
Proof.
  revert z. induction siblings as [|n rest IH]; intros z; simpl; [done|].
  destruct (String.eqb_spec (id n) target) as [He|Hne].
  - rewrite decide_True by done. simpl. lia.
  - rewrite decide_False by done. rewrite IH.
    destruct (list_find _ rest) as [[k t]|]; simpl; lia.
Qed.

Lemma findIndex_find siblings target :
  findIndex siblings target =
  match list_find (fun n => id n = target) siblings with
  | Some (k, _) => Z.of_nat k
  | None => -1
  end.
Proof.
  unfold findIndex. rewrite findIndex_from_find.
  destruct (list_find _ siblings) as [[k t]|]; lia.
Qed.

Lemma js_index_nat {A} (l : list A) (k : nat) : js_index l (Z.of_nat k) = l !! k.
Proof.
  unfold js_index. destruct (Z.ltb_spec (Z.of_nat k) 0); [lia|].
  by rewrite Nat2Z.id.
Qed.

Lemma js_index_neg {A} (l : list A) (z : Z) : z < 0 -> js_index l z = None.
Proof. unfold js_index. intros H. destruct (Z.ltb_spec z 0); [done|lia]. Qed.

Lemma find_elem_of siblings target :
  target ∈ map id siblings ->
  exists k t, list_find (fun n => id n = target) siblings = Some (k, t).
Proof.
  intros Hin. apply list_elem_of_fmap in Hin as (n & -> & Hn).
  destruct (list_find (fun m => id m = id n) siblings) as [[k t]|] eqn:E; [eauto|].
  rewrite list_find_None in E. rewrite Forall_forall in E.
  by destruct (E n Hn).
Qed.

Lemma last_is_Some {A} (l : list A) : l <> [] -> exists x, last l = Some x.
Proof.
  intros H. destruct (last l) eqn:E; [eauto|].
  apply last_None in E. done.
Qed.

Lemma getNewSortOrder_general i target position siblings :
  siblings <> [] ->
  (position = LEFT \/ position = RIGHT -> target ∈ map id siblings) ->
  exists q,
    expected_sort_order target position siblings = Some q /\
    (getNewSortOrder i target position siblings = Return None \/
     getNewSortOrder i target position siblings = Return (Some q)) /\
    (~ already_in_position i target position siblings ->
     getNewSortOrder i target position siblings = Return (Some q)).
Proof.
  intros Hne Htarget.
  unfold getNewSortOrder, is_noop, expected_sort_order, already_in_position.
  rewrite findIndex_find.
  destruct position; simpl.
  - destruct siblings as [|n rest]; [done|]. simpl.
    unfold js_index; simpl.
    eexists; split; [done|].
    destruct (String.eqb_spec (id n) i) as [Hni|Hni]; [subst i|]; simpl.
    + split; [by left|]. intros H; by destruct H.
    + split; [by right|]. done.
  - destruct (last_is_Some siblings Hne) as [n Hn].
    unfold js_last. rewrite Hn. simpl.
    eexists; split; [done|].
    destruct (String.eqb_spec (id n) i) as [Hni|Hni]; [subst i|]; simpl.
    + split; [by left|]. intros H; by destruct H.
    + split; [by right|]. done.
  - destruct (find_elem_of siblings target) as (k & t & Hfind); [auto|].
    rewrite Hfind. simpl.
    apply list_find_Some in Hfind as Hk. destruct Hk as (Hk & _ & _).
    rewrite js_index_nat, Hk. simpl.
    destruct k as [|j].
    + simpl. eexists; split; [done|]. split; [by right|done].
    + replace (Z.of_nat (S j) - 1) with (Z.of_nat j) by lia.
      rewrite js_index_nat.
      destruct (Z.ltb_spec 0 (Z.of_nat (S j))); [|lia]. simpl.
      assert (is_Some (siblings !! j)) as [m Hm].
      { apply lookup_lt_is_Some. apply lookup_lt_Some in Hk. lia. }
      rewrite Hm. simpl.
      eexists; split; [done|].
      destruct (String.eqb_spec (id m) i) as [Hmi|Hmi]; [subst i|]; simpl.
      * split; [by left|]. intros H'. destruct H'. exists j, t. by rewrite Hm.
      * split; [by right|]. done.
  - destruct (find_elem_of siblings target) as (k & t & Hfind); [auto|].
    rewrite Hfind. simpl.
    apply list_find_Some in Hfind as Hk. destruct Hk as (Hk & _ & _).
    rewrite js_index_nat, Hk. simpl.
    replace (Z.of_nat k + 1) with (Z.of_nat (S k)) by lia.
    rewrite js_index_nat.
    eexists; split; [done|].
    destruct (Z.ltb_spec (Z.of_nat k) (Z.of_nat (length siblings) - 2)) as [Hlt|Hge]; simpl.
    + assert (is_Some (siblings !! S k)) as [m Hm].
      { apply lookup_lt_is_Some. lia. }
      rewrite Hm. simpl.
      destruct (String.eqb_spec (id m) i) as [Hmi|Hmi]; [subst i|]; simpl.
      * split; [by left|]. intros H'. destruct H'. exists k, t. by rewrite Hm.
      * split; [by right|]. done.
    + destruct (siblings !! S k) as [m|] eqn:Hm; simpl.
      * split; [by right|done].
      * split; [by right|done].
Qed.


Lemma getNewSortOrder_null_iff i target position siblings :
  siblings <> [] ->
  (position = LEFT \/ position = RIGHT -> target ∈ map id siblings) ->
  getNewSortOrder i target position siblings = Return None <->
  already_in_position i target position siblings /\
  (position = RIGHT ->
   exists k t, list_find (fun n => id n = target) siblings = Some (k, t)
               /\ (S (S k) < length siblings)%nat).
Proof.
  intros Hne Htarget.
  unfold getNewSortOrder, is_noop, already_in_position.
  rewrite findIndex_find.
  destruct position; simpl.
  - destruct siblings as [|n rest]; [done|]. simpl.
    unfold js_index; simpl.
    destruct (String.eqb_spec (id n) i) as [Hni|Hni]; simpl.
    + subst. split; [|done]. intros _. split; [done|discriminate].
    + split; [discriminate|]. intros [H _]. congruence.
  - destruct (last_is_Some siblings Hne) as [n Hn].
    unfold js_last. rewrite Hn. simpl.
    destruct (String.eqb_spec (id n) i) as [Hni|Hni]; simpl.
    + subst. split; [|done]. intros _. split; [done|discriminate].
    + split; [discriminate|]. intros [H _]. congruence.
  - destruct (find_elem_of siblings target) as (k & t & Hfind); [auto|].
    rewrite Hfind. simpl.
    apply list_find_Some in Hfind as Hk. destruct Hk as (Hk & _ & _).
    rewrite js_index_nat, Hk. simpl.
    destruct k as [|j].
    + simpl. split; [discriminate|]. intros [(k & t' & [=] & _) _].
    + replace (Z.of_nat (S j) - 1) with (Z.of_nat j) by lia.
      rewrite js_index_nat.
      destruct (Z.ltb_spec 0 (Z.of_nat (S j))); [|lia]. simpl.
      assert (is_Some (siblings !! j)) as [m Hm].
      { apply lookup_lt_is_Some. apply lookup_lt_Some in Hk. lia. }
      rewrite Hm. simpl.
      destruct (String.eqb_spec (id m) i) as [Hmi|Hmi]; simpl.
      * subst. split; [|done]. intros _. split; [|discriminate].
        exists j, t. by rewrite Hm.
      * split; [discriminate|]. intros [(k & t' & [= <- <-] & Hid) _].
        rewrite Hm in Hid. simpl in Hid. congruence.
  - destruct (find_elem_of siblings target) as (k & t & Hfind); [auto|].
    rewrite Hfind. simpl.
    apply list_find_Some in Hfind as Hk. destruct Hk as (Hk & _ & _).
    rewrite js_index_nat, Hk. simpl.
    replace (Z.of_nat k + 1) with (Z.of_nat (S k)) by lia.
    rewrite js_index_nat.
    destruct (Z.ltb_spec (Z.of_nat k) (Z.of_nat (length siblings) - 2)) as [Hlt|Hge]; simpl.
    + assert (is_Some (siblings !! S k)) as [m Hm].
      { apply lookup_lt_is_Some. lia. }
      rewrite Hm. simpl.
      destruct (String.eqb_spec (id m) i) as [Hmi|Hmi]; simpl.
      * subst. split; [|done]. intros _. split.
        -- exists k, t. by rewrite Hm.
        -- intros _. exists k, t. split; [done|lia].
      * split; [discriminate|]. intros [(k' & t' & [= <- <-] & Hid) _].
        rewrite Hm in Hid. simpl in Hid. congruence.
    + split.
      * destruct (siblings !! S k); simpl; discriminate.
      * intros [_ H]. destruct (H eq_refl) as (k' & t' & [= <- <-] & Hlen). lia.
Qed.

(** C3.  A node that already is the right neighbour of the target, and the
    last of the siblings, is not recognised: [getNewSortOrder] returns the
    midpoint of the two instead of [null].  ([getNewSortOrder_null_iff]
    states when [null] is returned.) *)
Theorem getNewSortOrder_right_neighbour_missed :
  already_in_position "b" "a" RIGHT [sibling "a" 1; sibling "b" 2] /\
  getNewSortOrder "b" "a" RIGHT [sibling "a" 1; sibling "b" 2]
    = Return (Some (3 # 2)%Q).
Proof.
  split; [|reflexivity].
  exists 0%nat, (sibling "a" 1). split; reflexivity.
Qed.

Lemma get_id t k n : get t k = Some n -> id n = k.
Proof.
  induction t as [|m rest IH]; simpl; [done|].
  destruct (String.eqb_spec (id m) k); [|done]. by intros [= <-].
Qed.

Lemma string_compare_refl s : String.compare s s = Eq.
Proof.
  pose proof (String.compare_antisym s s) as H.
  destruct (String.compare s s); simpl in H; congruence.
Qed.

Lemma get_put t n k :
  get (put t n) k = if String.eqb (id n) k then Some n else get t k.
Proof.
  induction t as [|m rest IH]; simpl.
  - by destruct (String.eqb (id n) k).
  - destruct (String.compare (id n) (id m)) eqn:Hc; simpl.
    + apply String.compare_eq_iff in Hc. rewrite <- Hc.
      by destruct (String.eqb (id n) k).
    + by destruct (String.eqb (id n) k).
    + rewrite IH.
      destruct (String.eqb_spec (id m) k) as [Hm|Hm]; [|done].
      destruct (String.eqb_spec (id n) k) as [Hn|Hn]; [|done].
      assert (id n = id m) as Heq by congruence.
      rewrite Heq, string_compare_refl in Hc. discriminate.
Qed.

Lemma get_put_eq t n : get (put t n) (id n) = Some n.
Proof. by rewrite get_put, String.eqb_refl. Qed.


(** When the row already has [lft = null] below the same parent, the
    update reports no change and [tableMove] takes the path meant for a
    missing row: the row is replaced by one built from the parent row, and
    the move fails when the parent is not a row of the table. *)
Lemma tableMove_noop_null_lft st i target position p siblings node :
  getNewParentAndSiblings (tree st) target position = Fulfilled (p, siblings) ->
  siblings <> [] ->
  getNewSortOrder i target position siblings = Return None ->
  get (tree st) i = Some node ->
  parent node = Some p ->
  lft node = None ->
  tableMove st i target position =
    match get (tree st) p with
    | Some parentNode =>
        let data := mkNode i (Some p) None (tree_id parentNode)
                           (channel_id parentNode) None None in
        Fulfilled (data,
                   mkDb (put (tree st) data)
                        (changes st ++
                           [mkChange i None (MoveMods target position)
                                     (Some node) CLIENTID MOVED])
                        (contentnode st) (uuids st))
    | None => Rejected TypeError
    end.
Proof.
  intros Hps Hne Hnull Hget Hpar Hlft.
  unfold tableMove. rewrite Hps. simpl.
  unfold place. destruct siblings as [|s rest]; [done|].
  rewrite Hnull. simpl.
  unfold update. rewrite Hget, Hlft, Hpar. simpl.
  rewrite bool_decide_eq_true_2 by done. simpl.
  by destruct (get (tree st) p).
Qed.

Lemma get_elem_of t k n : get t k = Some n -> n ∈ t.
Proof.
  induction t as [|m rest IH]; simpl; [done|].
  destruct (String.eqb (id m) k).
  - intros [= <-]. left.
  - intros H. right. auto.
Qed.

Lemma get_is_Some t n : n ∈ t -> is_Some (get t (id n)).
Proof.
  induction 1 as [n rest|n m rest _ IH]; simpl.
  - rewrite String.eqb_refl. eauto.
  - destruct (String.eqb (id m) (id n)); eauto.
Qed.

Lemma ids_put t n y : y ∈ map id (put t n) <-> y = id n \/ y ∈ map id t.
Proof.
  induction t as [|m rest IH]; simpl.
  - rewrite list_elem_of_singleton, elem_of_nil. tauto.
  - destruct (String.compare (id n) (id m)) eqn:Hc; simpl.
    + apply String.compare_eq_iff in Hc. rewrite <- Hc, !elem_of_cons. tauto.
    + rewrite !elem_of_cons. tauto.
    + rewrite !elem_of_cons, IH. tauto.
Qed.

Lemma where_parent_put t n y :
  id n ∉ map id t -> parent n <> Some y ->
  where_parent (put t n) y = where_parent t y.
Proof.
  unfold where_parent. intros Hfresh Hpar.
  induction t as [|m rest IH]; simpl.
  - by rewrite filter_cons_False.
  - simpl in Hfresh. apply not_elem_of_cons in Hfresh as [Hne Hfresh].
    destruct (String.compare (id n) (id m)) eqn:Hc.
    + apply String.compare_eq_iff in Hc. done.
    + by rewrite (filter_cons_False _ n).
    + rewrite !filter_cons. rewrite IH by done. done.
Qed.

Lemma elem_of_concat {A} (x : A) (ls : list (list A)) :
  x ∈ concat ls <-> exists l, x ∈ l /\ l ∈ ls.
Proof.
  induction ls as [|l0 ls IH]; simpl.
  - split; [by intros ?%elem_of_nil|]. by intros (l & _ & ?%elem_of_nil).
  - rewrite elem_of_app, IH. split.
    + intros [H|(l & Hx & Hl)]; [exists l0; split; [done|left]|].
      exists l. split; [done|by right].
    + intros (l & Hx & [->|Hl]%elem_of_cons); [by left|right; eauto].
Qed.

Lemma sort_insert_perm x l : sort_insert x l ≡ₚ x :: l.
Proof.
  induction l as [|y rest IH]; simpl; [done|].
  destruct (lft_lt y x); [|done].
  rewrite IH. apply Permutation_swap.
Qed.

Lemma sortBy_lft_perm l : sortBy_lft l ≡ₚ l.
Proof.
  induction l as [|x rest IH]; simpl; [done|].
  by rewrite sort_insert_perm, IH.
Qed.

Lemma elem_of_children t x c :
  c ∈ sortBy_lft (where_parent t x) <-> c ∈ t /\ parent c = Some x.
Proof.
  rewrite sortBy_lft_perm. unfold where_parent.
  rewrite list_elem_of_filter. tauto.
Qed.

Section CopyFacts.
Variable uuid : nat -> string.
Hypothesis uuid_inj : forall a b, uuid a = uuid b -> a = b.

Lemma concat_chunk_fuel {A} (fuel size : nat) (l : list A) :
  (0 < size)%nat -> (length l <= fuel)%nat -> concat (chunk_fuel fuel size l) = l.
Proof.
  intros Hsize. revert l. induction fuel as [|fuel IH]; intros l Hlen.
  - destruct l; [done|simpl in Hlen; lia].
  - destruct l as [|x rest]; [done|].
    cbn [chunk_fuel concat]. rewrite IH.
    + apply take_drop.
    + rewrite length_drop. simpl in *. lia.
Qed.

Lemma concat_chunk {A} (size : nat) (l : list A) :
  (0 < size)%nat -> concat (chunk size l) = l.
Proof. intros. by apply concat_chunk_fuel. Qed.

Lemma all_app {A B} (f : A -> task B) (l1 l2 : list A) st :
  all f (l1 ++ l2) st =
  tbind (all f l1) (fun r1 => tbind (all f l2) (fun r2 => tret (r1 ++ r2))) st.
Proof.
  revert st. induction l1 as [|x l1 IH]; intros st; simpl.
  - unfold tbind, tret. simpl.
    destruct (all f l2 st) as [[[r st']|e]|]; done.
  - unfold tbind at 1 3 4. destruct (f x st) as [[[r st1]|e]|]; [|done..].
    unfold tbind at 1. rewrite IH.
    unfold tbind, tret.
    destruct (all f l1 st1) as [[[r1 st2]|e]|]; [|done..].
    destruct (all f l2 st2) as [[[r2 st3]|e]|]; done.
Qed.

Lemma promiseChunk_batches_all {A B} (f : A -> task B) (bs : list (list A)) st :
  promiseChunk_batches (all f) bs st = all f (concat bs) st.
Proof.
  revert st. induction bs as [|b bs IH]; intros st; simpl; [done|].
  rewrite all_app. unfold tbind.
  destruct (all f b st) as [[[r st1]|e]|]; [|done..].
  by rewrite IH.
Qed.

Lemma promiseChunk_all {A B} (f : A -> task B) (things : list A) size st :
  (0 < size)%nat -> promiseChunk things size (all f) st = all f things st.
Proof.
  intros. unfold promiseChunk. by rewrite promiseChunk_batches_all, concat_chunk.
Qed.

Lemma copied_trans p p2 st st1 st2 l1 l2 r1 r2 :
  copied uuid p st st1 l1 r1 ->
  copied uuid p2 st1 st2 l2 r2 ->
  (p2 = p \/ exists k, (uuids st <= k)%nat /\ p2 = uuid k) ->
  copied uuid p st st2 (l1 ++ l2) (r1 ++ r2).
Proof.
  intros (Hs1 & Hi1 & Hu1 & Hr1 & Hg1 & Hw1 & Hf1)
         (Hs2 & Hi2 & Hu2 & Hr2 & Hg2 & Hw2 & Hf2) Hp2.
  unfold copied. rewrite !map_app, length_app, seq_app, map_app.
  repeat split.
  - by rewrite Hs1, Hs2.
  - rewrite Hi1, Hi2, Hu1. done.
  - lia.
  - intros r [Hr|Hr]%elem_of_app; auto.
  - auto.
  - intros y Hy Hfresh. rewrite Hw2, Hw1; auto.
    + destruct Hp2 as [->|(k & Hk & ->)]; [done|]. by apply Hfresh.
    + intros k Hk. apply Hfresh. lia.
  - done.
Qed.

Lemma preorder_in_table n t x l :
  preorder n t x = Some l -> forall r, r ∈ l -> r ∈ t.
Proof.
  revert x l. induction n as [|n IH]; intros x l; simpl; [done|].
  destruct (get t x) as [node|] eqn:Hget; simpl; [|done].
  destruct (mapM _ _) as [ls|] eqn:Hls; simpl; [|done].
  intros [= <-] r [->|Hr]%elem_of_cons; [by eapply get_elem_of|].
  apply mapM_Some in Hls.
  apply elem_of_concat in Hr as (lc & Hr & Hlc).
  apply list_elem_of_lookup in Hlc as [j Hj].
  destruct (Forall2_lookup_r _ _ _ _ _ Hls Hj) as (c & _ & Hc).
  eauto.
Qed.

Lemma preorder_stable n t t' x l :
  preorder n t x = Some l ->
  (forall k r, get t k = Some r -> get t' k = Some r) ->
  (forall y, y ∈ map id l -> where_parent t' y = where_parent t y) ->
  preorder n t' x = Some l.
Proof.
  intros Hpre Hget. revert x l Hpre.
  induction n as [|n IH]; intros x l; simpl; [done|].
  destruct (get t x) as [node|] eqn:Hnode; simpl; [|done].
  destruct (mapM _ _) as [ls|] eqn:Hls; simpl; [|done].
  intros [= <-] Hwhere.
  rewrite (Hget _ _ Hnode). simpl.
  rewrite Hwhere by (simpl; rewrite (get_id _ _ _ Hnode); left).
  assert (mapM (fun c => preorder n t' (id c)) (sortBy_lft (where_parent t x))
          = Some ls) as ->; [|done].
  apply mapM_Some. apply mapM_Some in Hls.
  assert (forall y, y ∈ map id (concat ls) -> where_parent t' y = where_parent t y)
    as Hsub.
  { intros y Hy. apply Hwhere. simpl. by right. }
  clear Hwhere Hnode. induction Hls as [|c lc cs ls' Hc _ IHls]; [constructor|].
  constructor.
  - apply IH; [done|]. intros y Hy. apply Hsub. simpl. rewrite map_app.
    apply elem_of_app. by left.
  - apply IHls. intros y Hy. apply Hsub. simpl. rewrite map_app.
    apply elem_of_app. by right.
Qed.

Lemma getNewSortOrder_returns i target position siblings :
  siblings <> [] ->
  (position = LEFT \/ position = RIGHT -> target ∈ map id siblings) ->
  exists r, getNewSortOrder i target position siblings = Return r.
Proof.
  intros Hne Ht.
  destruct (getNewSortOrder_general i target position siblings Hne Ht)
    as (q & _ & [H|H] & _); eauto.
Qed.

Lemma place_returns t i target position p :
  resolveParent t target position = Fulfilled (Some p) ->
  exists l target' position',
    place i target position p (sortBy_lft (where_parent t p))
    = Return (l, target', position').
Proof.
  intros Hres. unfold place.
  destruct (sortBy_lft (where_parent t p)) as [|s rest] eqn:Hsib; [eauto|].
  destruct (getNewSortOrder_returns i target position (s :: rest)) as [r Hr].
  - done.
  - intros Hpos. unfold resolveParent in Hres.
    rewrite orb_false_intro in Hres
      by (apply bool_decide_eq_false; destruct Hpos; congruence).
    destruct (get t target) as [tn|] eqn:Htn; [|done].
    injection Hres as Hpar.
    rewrite <- Hsib, <- (get_id _ _ _ Htn).
    apply list_elem_of_fmap_2, elem_of_children. split; [|done].
    by eapply get_elem_of.
  - rewrite Hr. simpl. eauto.
Qed.

Lemma tableCopy_ok st i target position changeType p pn node :
  resolveParent (tree st) target position = Fulfilled (Some p) ->
  get (tree st) p = Some pn ->
  get (tree st) i = Some node ->
  exists l change,
    let data := mkNode (uuid (uuids st)) (Some p) l (tree_id pn)
                       (channel_id node) (Some i) (Z.succ <$> level pn) in
    tableCopy uuid st i target position changeType =
      Fulfilled (data, mkDb (put (tree st) data) (changes st ++ [change])
                            (contentnode st) (S (uuids st))).
Proof.
  intros Hres Hp Hi.
  destruct (place_returns (tree st) i target position p Hres)
    as (l & target' & position' & Hplace).
  unfold tableCopy, getNewParentAndSiblings. rewrite Hres. simpl.
  rewrite Hplace. simpl. rewrite Hp, Hi. simpl.
  rewrite (get_id _ _ _ Hp). eauto.
Qed.

Lemma preorder_stable_all n t t' cs ls :
  Forall2 (fun c lc => preorder n t (id c) = Some lc) cs ls ->
  (forall k r, get t k = Some r -> get t' k = Some r) ->
  (forall y, y ∈ map id (concat ls) -> where_parent t' y = where_parent t y) ->
  Forall2 (fun c lc => preorder n t' (id c) = Some lc) cs ls.
Proof.
  intros HF Hget. induction HF as [|c lc cs ls Hc _ IH]; intros Hw; [constructor|].
  constructor.
  - eapply preorder_stable; [exact Hc|exact Hget|].
    intros y Hy. apply Hw. simpl. rewrite map_app, elem_of_app. by left.
  - apply IH. intros y Hy. apply Hw. simpl. rewrite map_app, elem_of_app.
    by right.
Qed.

Lemma preorder_all_in_table n t cs ls :
  Forall2 (fun c lc => preorder n t (id c) = Some lc) cs ls ->
  forall r, r ∈ concat ls -> r ∈ t.
Proof.
  induction 1 as [|c lc cs ls Hc _ IH]; simpl; intros r.
  - by intros ?%elem_of_nil.
  - intros [Hr|Hr]%elem_of_app; [by eapply preorder_in_table|auto].
Qed.

Lemma in_table_not_uuid st r k :
  unused_uuids uuid st -> r ∈ tree st -> (uuids st <= k)%nat -> id r <> uuid k.
Proof.
  intros Hun Hr Hk Heq. apply (Hun k Hk). rewrite <- Heq.
  by apply list_elem_of_fmap_2.
Qed.

Lemma copied_refl p st : unused_uuids uuid st -> copied uuid p st st [] [].
Proof.
  intros Hun. unfold copied. simpl. split_and!; auto; try lia.
  by intros r ?%elem_of_nil.
Qed.

Lemma copied_same_tables p st st1 st2 l r :
  tree st2 = tree st1 -> uuids st2 = uuids st1 ->
  copied uuid p st st1 l r -> copied uuid p st st2 l r.
Proof.
  intros Ht Hu (Hs & Hi & Hu1 & Hr & Hg & Hw & Hf).
  unfold copied, unused_uuids. rewrite Ht, Hu. split_and!; auto.
Qed.

Lemma copied_root st i p pn node l change :
  unused_uuids uuid st ->
  get (tree st) i = Some node ->
  let data := mkNode (uuid (uuids st)) (Some p) l (tree_id pn)
                     (channel_id node) (Some i) (Z.succ <$> level pn) in
  copied uuid p st
    (mkDb (put (tree st) data) (changes st ++ [change]) (contentnode st)
          (S (uuids st)))
    [node] [data].
Proof.
  intros Hun Hi data.
  assert (id data ∉ map id (tree st)) as Hfresh by (apply Hun; simpl; lia).
  unfold copied. simpl. split_and!.
  - by rewrite (get_id _ _ _ Hi).
  - done.
  - lia.
  - intros r ->%list_elem_of_singleton. rewrite get_put.
    by rewrite String.eqb_refl.
  - intros k r Hk. rewrite get_put.
    destruct (String.eqb_spec (id data) k) as [Heq|]; [|done].
    destruct Hfresh. rewrite Heq, <- (get_id _ _ _ Hk).
    apply list_elem_of_fmap_2. by eapply get_elem_of.
  - intros y Hy _. apply where_parent_put; [done|]. simpl. congruence.
  - intros k Hk. simpl in *. rewrite ids_put. intros [Heq|Hin].
    + apply uuid_inj in Heq. lia.
    + apply (Hun k); [lia|done].
Qed.

Lemma copy_children changeType n :
  copy_ok uuid changeType n ->
  forall children ls st newp prow,
    unused_uuids uuid st ->
    get (tree st) newp = Some prow ->
    Forall2 (fun c lc => preorder n (tree st) (id c) = Some lc) children ls ->
    newp ∉ map id (concat ls) ->
    exists rss st',
      all (fun c => copy uuid n (id c) newp LAST_CHILD true changeType)
          children st = Some (Fulfilled (rss, st')) /\
      copied uuid newp st st' (concat ls) (concat rss).
Proof.
  intros IH children.
  induction children as [|c cs IHc]; intros ls st newp prow Hun Hp HF Hnot.
  - inversion HF; subst. exists [], st. split; [done|]. by apply copied_refl.
  - inversion HF as [|? lc ? ls' Hc HF']; subst. simpl in Hnot.
    rewrite map_app, elem_of_app in Hnot.
    destruct (IH st (id c) newp LAST_CHILD newp prow lc)
      as (res & st1 & Hcopy & Hcopied); auto.
    destruct Hcopied as (Hs & Hi & Hu & Hr & Hg & Hw & Hf).
    destruct (IHc ls' st1 newp prow) as (rss & st2 & Hall & Hcopied2); auto.
    + eapply preorder_stable_all; [exact HF'|exact Hg|].
      intros y Hy. apply Hw.
      * intros ->. apply Hnot. by right.
      * apply list_elem_of_fmap in Hy as (r & -> & Hr').
        intros k Hk. apply (in_table_not_uuid st); [done| |done].
        by eapply preorder_all_in_table.
    + exists (res :: rss), st2. split.
      * simpl. unfold tbind at 1. rewrite Hcopy.
        unfold tbind at 1. by rewrite Hall.
      * simpl. eapply copied_trans; [|exact Hcopied2|by left].
        unfold copied; auto 10.
Qed.

Lemma copy_deep_ok changeType n : copy_ok uuid changeType n.
Proof.
  induction n as [|n IH]; intros st i target position p pn l Hun Hpre Hres Hp Hnot.
  - done.
  - simpl in Hpre.
    destruct (get (tree st) i) as [node|] eqn:Hi; simpl in Hpre; [|done].
    destruct (mapM _ _) as [ls|] eqn:Hls; simpl in Hpre; [|done].
    injection Hpre as <-. apply mapM_Some in Hls.
    destruct (tableCopy_ok st i target position changeType p pn node Hres Hp Hi)
      as (lft' & change & Hcopy). simpl in Hcopy.
    set (data := mkNode (uuid (uuids st)) (Some p) lft' (tree_id pn)
                        (channel_id node) (Some i) (Z.succ <$> level pn)) in *.
    set (st1 := mkDb (put (tree st) data) (changes st ++ [change])
                     (contentnode st) (S (uuids st))) in *.
    pose proof (copied_root st i p pn node lft' change Hun Hi) as Hroot.
    simpl in Hroot. fold data in Hroot. fold st1 in Hroot.
    destruct Hroot as (Hs & Hid & Hu & Hr & Hg & Hw & Hf).
    assert (forall r, r ∈ node :: concat ls -> r ∈ tree st) as Hin.
    { intros r [->|Hr']%elem_of_cons; [by eapply get_elem_of|].
      by eapply preorder_all_in_table. }
    assert (forall y, y ∈ map id (node :: concat ls) ->
                      where_parent (tree st1) y = where_parent (tree st) y) as Hsame.
    { intros y Hy. apply Hw.
      - intros ->. done.
      - apply list_elem_of_fmap in Hy as (r & -> & Hr').
        intros k Hk. apply (in_table_not_uuid st); auto. }
    destruct (copy_children changeType n IH
                (sortBy_lft (where_parent (tree st) i)) ls st1 (id data) data)
      as (rss & st2 & Hall & Hcopied); auto.
    + apply Hr. left.
    + eapply preorder_stable_all; [exact Hls|exact Hg|].
      intros y Hy. apply Hsame. simpl. by right.
    + intros (r & Heq & Hr')%list_elem_of_fmap.
      apply (in_table_not_uuid st r (uuids st)); auto.
      apply Hin. by right.
    + assert (copied uuid p st st2 (node :: concat ls) (data :: concat rss))
        as Hfinal.
      { change (copied uuid p st st2 ([node] ++ concat ls) ([data] ++ concat rss)).
        eapply copied_trans; [|exact Hcopied|].
        - unfold copied; auto 10.
        - right. exists (uuids st). split; [lia|done]. }
      cbn [copy]. unfold tbind at 1. rewrite Hcopy.
      unfold tbind at 1. unfold tbind at 1. unfold tret at 1.
      unfold tbind at 1.
      replace (where_parent (tree st1) i) with (where_parent (tree st) i)
        by (symmetry; apply Hsame; rewrite <- (get_id _ _ _ Hi); left).
      rewrite promiseChunk_all by lia.
      rewrite Hall. unfold tret at 1.
      destruct (bool_decide (changeType = COPIED)).
      * eauto.
      * eexists _, _. split; [reflexivity|].
        eapply copied_same_tables; [| |exact Hfinal]; done.
Qed.

End CopyFacts.


(** *** Tables in key order: a subtree lists each of its rows once *)

Lemma key_lt_trans a b c : key_lt a b -> key_lt b c -> key_lt a c.
Proof.
  unfold key_lt. intros H1 H2.
  apply String_as_OT.cmp_lt in H1, H2. apply String_as_OT.cmp_lt.
  eapply String_as_OT.lt_trans; eauto.
Qed.

Lemma key_lt_flip a b : String.compare (id a) (id b) = Gt -> key_lt b a.
Proof.
  unfold key_lt. intros H. rewrite String.compare_antisym, H. done.
Qed.

Lemma put_key_ordered t n : key_ordered t -> key_ordered (put t n).
Proof.
  unfold key_ordered. induction 1 as [|m rest Hrest IH Hm]; simpl.
  - repeat constructor.
  - destruct (String.compare (id n) (id m)) eqn:Hc.
    + apply String.compare_eq_iff in Hc. constructor; [done|].
      eapply Forall_impl; [exact Hm|]. intros r Hr. unfold key_lt in *.
      by rewrite Hc.
    + constructor; [by constructor|]. constructor; [done|].
      eapply Forall_impl; [exact Hm|]. intros r Hr.
      by apply (key_lt_trans n m r).
    + constructor; [done|]. apply Forall_forall. intros r Hr.
      assert (id r ∈ map id (put rest n)) as Hin by (by apply list_elem_of_fmap_2).
      apply ids_put in Hin as [Heq|Hin].
      * unfold key_lt. rewrite Heq. by apply key_lt_flip.
      * apply list_elem_of_fmap in Hin as (r' & Heq & Hr').
        rewrite Forall_forall in Hm. specialize (Hm r' Hr').
        unfold key_lt in *. by rewrite Heq.
Qed.

Lemma key_ordered_get t r : key_ordered t -> r ∈ t -> get t (id r) = Some r.
Proof.
  unfold key_ordered. induction 1 as [|m rest Hrest IH Hm]; simpl.
  - by intros ?%elem_of_nil.
  - intros [->|Hr]%elem_of_cons; [by rewrite String.eqb_refl|].
    destruct (String.eqb_spec (id m) (id r)) as [Heq|_]; [|auto].
    rewrite Forall_forall in Hm. specialize (Hm r Hr). unfold key_lt in Hm.
    rewrite Heq, string_compare_refl in Hm. discriminate.
Qed.

Lemma key_ordered_NoDup t : key_ordered t -> NoDup (map id t).
Proof.
  unfold key_ordered. induction 1 as [|m rest Hrest IH Hm]; simpl.
  - constructor.
  - constructor; [|done].
    intros (r & Heq & Hr)%list_elem_of_fmap.
    rewrite Forall_forall in Hm. specialize (Hm r Hr). unfold key_lt in Hm.
    rewrite Heq, string_compare_refl in Hm. discriminate.
Qed.

Lemma ancestor_snoc t k y w :
  ancestor t (S k) y = Some w <->
  exists z, ancestor t k y = Some z /\ parent_of t z = Some w.
Proof.
  revert y. induction k as [|k IH]; intros y.
  - simpl. split.
    + intros H. exists y. split; [done|].
      by destruct (parent_of t y) as [p|].
    + intros (z & [= <-] & ->). done.
  - change (ancestor t (S (S k)) y) with (p ← parent_of t y; ancestor t (S k) p).
    change (ancestor t (S k) y) with (p ← parent_of t y; ancestor t k p).
    destruct (parent_of t y) as [p|]; simpl; [apply IH|].
    split; [done|]. by intros (z & ? & _).
Qed.

Lemma ancestor_add t a b y :
  ancestor t (a + b) y = z ← ancestor t a y; ancestor t b z.
Proof.
  revert y. induction a as [|a IH]; intros y; simpl; [done|].
  destruct (parent_of t y) as [p|]; simpl; [apply IH|done].
Qed.

Lemma child_parent_of t c x :
  key_ordered t -> c ∈ sortBy_lft (where_parent t x) ->
  parent_of t (id c) = Some x.
Proof.
  intros Ht [Hc Hpar]%elem_of_children. unfold parent_of.
  by rewrite (key_ordered_get t c Ht Hc).
Qed.

(** Every row of the listing reaches the root along the parent links. *)
Lemma preorder_ancestor n t x l :
  key_ordered t ->
  preorder n t x = Some l ->
  forall r, r ∈ l -> exists k, (k < n)%nat /\ ancestor t k (id r) = Some x.
Proof.
  intros Ht. revert x l. induction n as [|n IH]; intros x l; simpl; [done|].
  destruct (get t x) as [node|] eqn:Hget; simpl; [|done].
  destruct (mapM _ _) as [ls|] eqn:Hls; simpl; [|done].
  intros [= <-] r [->|Hr]%elem_of_cons.
  - exists 0%nat. split; [lia|]. simpl. by rewrite (get_id _ _ _ Hget).
  - apply mapM_Some in Hls.
    apply elem_of_concat in Hr as (lc & Hr & Hlc).
    apply list_elem_of_lookup in Hlc as [j Hj].
    destruct (Forall2_lookup_r _ _ _ _ _ Hls Hj) as (c & Hc & Hpre).
    destruct (IH _ _ Hpre r Hr) as (k & Hk & Hanc).
    exists (S k). split; [lia|]. apply ancestor_snoc. exists (id c).
    split; [done|]. eapply child_parent_of; [done|].
    by eapply list_elem_of_lookup_2.
Qed.

(** A node on a cycle of parent links has no finite subtree. *)
Lemma cycle_no_preorder t n :
  forall x m, ancestor t (S m) x = Some x -> preorder n t x = None.
Proof.
  induction n as [|n IH]; intros x m Hcycle; simpl; [done|].
  destruct (get t x) as [node|] eqn:Hget; simpl; [|done].
  destruct (mapM _ _) as [ls|] eqn:Hls; simpl; [|done]. exfalso.
  apply mapM_Some in Hls.
  apply ancestor_snoc in Hcycle as (z & Hz & Hpar).
  unfold parent_of in Hpar.
  destruct (get t z) as [rz|] eqn:Hrz; simpl in Hpar; [|done].
  assert (rz ∈ sortBy_lft (where_parent t x)) as Hin.
  { apply elem_of_children. split; [by eapply get_elem_of|done]. }
  apply list_elem_of_lookup in Hin as [j Hj].
  destruct (Forall2_lookup_l _ _ _ _ _ Hls Hj) as (lz & _ & Hpre).
  rewrite (get_id _ _ _ Hrz) in Hpre.
  rewrite (IH z m) in Hpre; [done|].
  simpl. unfold parent_of. rewrite Hrz. simpl. by rewrite Hpar.
Qed.

Lemma children_NoDup t x :
  key_ordered t -> NoDup (map id (sortBy_lft (where_parent t x))).
Proof.
  intros Ht. rewrite sortBy_lft_perm.
  eapply sublist_NoDup; [by apply key_ordered_NoDup|].
  apply fmap_sublist. apply sublist_filter.
Qed.

(** The subtrees of two children of a node with a finite subtree share no
    row. *)
Lemma listings_disjoint n N t x l c c' l1 l2 r r' :
  key_ordered t ->
  preorder N t x = Some l ->
  c ∈ sortBy_lft (where_parent t x) ->
  c' ∈ sortBy_lft (where_parent t x) ->
  id c <> id c' ->
  preorder n t (id c) = Some l1 ->
  preorder n t (id c') = Some l2 ->
  r ∈ l1 -> r' ∈ l2 -> id r = id r' -> False.
Proof.
  intros Ht Hx Hc Hc' Hne H1 H2 Hr Hr' Heq.
  destruct (preorder_ancestor n t _ _ Ht H1 r Hr) as (k & _ & Hk).
  destruct (preorder_ancestor n t _ _ Ht H2 r' Hr') as (k' & _ & Hk').
  rewrite <- Heq in Hk'.
  assert (forall a b y u v,
            u ∈ sortBy_lft (where_parent t x) ->
            v ∈ sortBy_lft (where_parent t x) ->
            ancestor t a y = Some (id u) ->
            ancestor t (a + S b) y = Some (id v) -> False) as Hlonger.
  { intros a b y u v Hu Hv Ha Hab.
    rewrite ancestor_add, Ha in Hab. simpl in Hab.
    rewrite (child_parent_of t u x Ht Hu) in Hab. simpl in Hab.
    assert (ancestor t (S b) x = Some x) as Hcycle.
    { apply ancestor_snoc. exists (id v). split; [done|].
      by apply child_parent_of. }
    by rewrite (cycle_no_preorder t N x b Hcycle) in Hx. }
  destruct (lt_eq_lt_dec k k') as [[Hlt|Hkk]|Hgt]; [| subst k' |].
  - replace k' with (k + S (k' - k - 1))%nat in Hk' by lia.
    by eapply (Hlonger k _ (id r) c c').
  - congruence.
  - replace k with (k' + S (k - k' - 1))%nat in Hk by lia.
    by eapply (Hlonger k' _ (id r) c' c).
Qed.

Lemma preorder_NoDup n t x l :
  key_ordered t -> preorder n t x = Some l -> NoDup (map id l).
Proof.
  intros Ht. revert x l. induction n as [|n IH]; intros x l Hpre; [done|].
  pose proof Hpre as Hfull. simpl in Hpre.
  destruct (get t x) as [node|] eqn:Hget; simpl in Hpre; [|done].
  destruct (mapM _ _) as [ls|] eqn:Hls; simpl in Hpre; [|done].
  injection Hpre as <-. apply mapM_Some in Hls. simpl. constructor.
  - intros (r & Heq & Hr)%list_elem_of_fmap.
    apply elem_of_concat in Hr as (lc & Hr & Hlc).
    apply list_elem_of_lookup in Hlc as [j Hj].
    destruct (Forall2_lookup_r _ _ _ _ _ Hls Hj) as (c & Hc & Hprec).
    destruct (preorder_ancestor n t _ _ Ht Hprec r Hr) as (k & _ & Hk).
    assert (ancestor t (S k) x = Some x) as Hcycle.
    { apply ancestor_snoc. exists (id c). rewrite <- Heq in Hk.
      rewrite (get_id _ _ _ Hget) in Hk. split; [done|].
      eapply child_parent_of; [done|]. by eapply list_elem_of_lookup_2. }
    by rewrite (cycle_no_preorder t (S n) x k Hcycle) in Hfull.
  - pose proof (children_NoDup t x Ht) as Hnd.
    assert (forall c, c ∈ sortBy_lft (where_parent t x) ->
                      c ∈ sortBy_lft (where_parent t x)) as Hsub by auto.
    remember (sortBy_lft (where_parent t x)) as cs eqn:Hcs in Hls, Hnd, Hsub at 1.
    remember (node :: concat ls) as full eqn:Hfull' in Hfull.
    clear Hcs Hfull'.
    induction Hls as [|c lc cs ls' Hc Hrest IHls].
    + constructor.
    + simpl. rewrite map_app. apply NoDup_app. simpl in Hnd.
      apply NoDup_cons in Hnd as [Hc_notin Hnd]. split_and!.
      * by eapply IH.
      * intros y (r & -> & Hr)%list_elem_of_fmap
                 (r' & Heq & Hr')%list_elem_of_fmap.
        apply elem_of_concat in Hr' as (lc' & Hr' & Hlc').
        apply list_elem_of_lookup in Hlc' as [j Hj].
        destruct (Forall2_lookup_r _ _ _ _ _ Hrest Hj) as (c' & Hc' & Hprec').
        apply list_elem_of_lookup_2 in Hc'.
        eapply (listings_disjoint n (S n) t x full c c' lc lc' r r'); eauto.
        -- apply Hsub. apply list_elem_of_here.
        -- apply Hsub. by apply list_elem_of_further.
        -- intros Hid. apply Hc_notin. rewrite Hid.
           by apply list_elem_of_fmap_2.
      * apply IHls; [done|]. intros c' Hc'. apply Hsub. by apply list_elem_of_further.
Qed.

Lemma map_eq_Forall2 {A B C} (f : A -> C) (g : B -> C) l k :
  map f l = map g k -> Forall2 (fun x y => f x = g y) l k.
Proof.
  revert k. induction l as [|x l IH]; intros [|y k]; simpl; intros [=];
    constructor; auto.
Qed.

(** C7.  A deep copy of a finite subtree to a destination whose parent is
    an existing row outside the subtree returns: the copies correspond one
    to one, in order, to the rows of the subtree, each with the id of its
    original as [source_id]; the copies are new rows with distinct ids;
    the copy of the root comes first; and in a table kept in key order no
    original is copied twice. *)
Theorem copy_deep_one_copy_per_node (uuid : nat -> string) changeType n st
    i target position p pn originals :
  (forall a b, uuid a = uuid b -> a = b) ->
  unused_uuids uuid st ->
  preorder n (tree st) i = Some originals ->
  resolveParent (tree st) target position = Fulfilled (Some p) ->
  get (tree st) p = Some pn ->
  p ∉ map id originals ->
  exists copies st',
    copy uuid n i target position true changeType st
      = Some (Fulfilled (copies, st')) /\
    Forall2 (fun new old => source_id new = Some (id old)) copies originals /\
    NoDup (map id copies) /\
    (forall r, r ∈ copies ->
       (id r ∉ map id (tree st)) /\ get (tree st') (id r) = Some r) /\
    (exists root rest,
       copies = root :: rest /\ source_id root = Some i /\
       id root = uuid (uuids st)) /\
    (key_ordered (tree st) -> NoDup (map source_id copies)).
Proof.
  intros Hinj Hun Hpre Hres Hp Hnot.
  destruct (copy_deep_ok uuid Hinj changeType n st i target position p pn
              originals Hun Hpre Hres Hp Hnot)
    as (copies & st' & Hcopy & Hs & Hid & Hu & Hr & Hg & Hw & Hf).
  exists copies, st'. split_and!; cycle 5.
  - intros Hord. rewrite Hs.
    replace (map (fun r => Some (id r)) originals)
      with (map Some (map id originals)) by apply map_map.
    apply (NoDup_fmap_2 Some). by eapply preorder_NoDup.
  - done.
  - by apply map_eq_Forall2.
  - rewrite Hid. apply NoDup_fmap_2_strong; [|apply NoDup_seq].
    intros a b _ _. apply Hinj.
  - intros r Hr'. split; [|auto].
    assert (id r ∈ map id copies) as Hin by (by apply list_elem_of_fmap_2).
    rewrite Hid in Hin. apply list_elem_of_fmap in Hin as (k & -> & Hk).
    apply elem_of_seq in Hk. apply Hun. lia.
  - destruct n as [|n]; [done|]. simpl in Hpre.
    destruct (get (tree st) i) as [node|] eqn:Hi; simpl in Hpre; [|done].
    destruct (mapM _ _) as [ls|]; simpl in Hpre; [|done].
    injection Hpre as <-.
    destruct copies as [|root rest]; [done|].
    simpl in Hs, Hid. injection Hs as Hroot _. injection Hid as Hrid _.
    exists root, rest. rewrite (get_id _ _ _ Hi) in Hroot. done.
Qed.

Lemma sample_uuid_inj a b : sample_uuid a = sample_uuid b -> a = b.
Proof.
  revert b. induction a as [|a IH]; intros [|b]; simpl; try done.
  - destruct b; done.
  - destruct a; done.
  - intros [= H]. f_equal. auto.
Qed.

Lemma sample_uuid_unused : unused_uuids sample_uuid sample_db.
Proof.
  intros k _ Hin. simpl in Hin.
  repeat (apply elem_of_cons in Hin as [Hin|Hin];
          [by destruct k|]).
  by apply elem_of_nil in Hin.
Qed.

Lemma copy_deep_one_copy_per_node_witness :
  exists copies st',
    copy sample_uuid 3 "p" "q" LAST_CHILD true COPIED sample_db
      = Some (Fulfilled (copies, st')) /\
    map source_id copies = [Some "p"; Some "a"; Some "c"; Some "b"].
Proof.
  destruct (copy_deep_one_copy_per_node sample_uuid COPIED 3 sample_db
              "p" "q" LAST_CHILD "q"
              (mkNode "q" None (Some 1%Q) (Some "t2") (Some "ch2") None (Some 0))
              [mkNode "p" None (Some 1%Q) (Some "t") (Some "ch") None (Some 0);
               sibling "a" 1;
               mkNode "c" (Some "a") (Some 1%Q) (Some "t") (Some "ch") None (Some 2);
               sibling "b" 2])
    as (copies & st' & Hcopy & Hsrc & _).
  - exact sample_uuid_inj.
  - exact sample_uuid_unused.
  - reflexivity.
  - reflexivity.
  - reflexivity.
  - vm_compute. intros Hin.
    repeat (apply elem_of_cons in Hin as [Hin|Hin]; [discriminate|]).
    by apply elem_of_nil in Hin.
  - exists copies, st'. split; [exact Hcopy|].
    vm_compute in Hcopy. injection Hcopy as <- _. reflexivity.
Defined.


Lemma get_None t k : get t k = None <-> forall node, node ∈ t -> id node <> k.
Proof.
  induction t as [|m rest IH]; simpl.
  - split; [|done]. intros _ node Hin. by apply elem_of_nil in Hin.
  - destruct (String.eqb_spec (id m) k) as [He|Hne].
    + split; [done|]. intros H. destruct (H m); [left|done].
    + rewrite IH. split.
      * intros H node [->|Hin]%elem_of_cons; auto.
      * intros H node Hin. apply H. by right.
Qed.

(** C8.  [resolveParent] resolves to the target itself for first-child
    and last-child, whatever the table holds.  For left and right it
    resolves to the parent of the row of the table whose id is the target
    (the table holds one row per id), and it rejects with a RangeError
    exactly when the table has no row with that id. *)
Theorem resolveParent_spec (t : list TreeNode) (target : string) :
  resolveParent t target FIRST_CHILD = Fulfilled (Some target) /\
  resolveParent t target LAST_CHILD = Fulfilled (Some target) /\
  (forall position, position = LEFT \/ position = RIGHT ->
     (forall node,
        key_ordered t -> node ∈ t -> id node = target ->
        resolveParent t target position = Fulfilled (parent node)) /\
     (resolveParent t target position = Rejected RangeError <->
      forall node, node ∈ t -> id node <> target)).
Proof.
  split_and!; [done..|].
  intros position Hpos.
  assert (resolveParent t target position =
          match get t target with
          | Some node => Fulfilled (parent node)
          | None => Rejected RangeError
          end) as ->.
  { by destruct Hpos as [-> | ->]. }
  split.
  - intros node Hord Hin <-. by rewrite (key_ordered_get t node Hord Hin).
  - rewrite <- get_None. by destruct (get t target).
Qed.

Lemma resolveParent_spec_witness :
  resolveParent (tree sample_db) "c" LEFT = Fulfilled (Some "a") /\
  resolveParent (tree sample_db) "z" RIGHT = Rejected RangeError.
Proof.
  destruct (resolveParent_spec (tree sample_db) "c") as (_ & _ & Hleft).
  destruct (resolveParent_spec (tree sample_db) "z") as (_ & _ & Hright).
  split.
  - apply (proj1 (Hleft LEFT (or_introl eq_refl))
             (mkNode "c" (Some "a") (Some 1%Q) (Some "t") (Some "ch") None (Some 2))).
    + repeat constructor.
    + vm_compute. right. right. left.
    + reflexivity.
  - apply (proj2 (Hright RIGHT (or_intror eq_refl))).
    intros node Hin. vm_compute in Hin.
    repeat (apply elem_of_cons in Hin as [->|Hin]; [discriminate|]).
    by apply elem_of_nil in Hin.
Defined.

Section Divergence.
Variable uuid : nat -> string.
Hypothesis uuid_inj : forall a b, uuid a = uuid b -> a = b.

Lemma tableCopy_last_child st i p pn node changeType :
  unused_uuids uuid st ->
  get (tree st) p = Some pn ->
  get (tree st) i = Some node ->
  exists data st1,
    tableCopy uuid st i p LAST_CHILD changeType = Fulfilled (data, st1) /\
    parent data = Some p /\
    get (tree st1) (id data) = Some data /\
    (forall k row, get (tree st) k = Some row -> get (tree st1) k = Some row) /\
    unused_uuids uuid st1.
Proof.
  intros Hun Hp Hi.
  destruct (tableCopy_ok uuid st i p LAST_CHILD changeType p pn node)
    as (l & change & Hcopy); [done..|].
  simpl in Hcopy. eexists _, _. split; [exact Hcopy|].
  destruct (copied_root uuid uuid_inj st i p pn node l change Hun Hi)
    as (_ & _ & _ & Hr & Hg & _ & Hf).
  split_and!; [done| |done|done].
  apply Hr. left.
Qed.

Lemma all_cons {A B} (f : A -> task B) c cs st :
  all f (c :: cs) st =
  match f c st with
  | Some (Fulfilled (r, st1)) =>
      match all f cs st1 with
      | Some (Fulfilled (rs, st2)) => Some (Fulfilled (r :: rs, st2))
      | Some (Rejected e) => Some (Rejected e)
      | None => None
      end
  | Some (Rejected e) => Some (Rejected e)
  | None => None
  end.
Proof.
  simpl. unfold tbind. destruct (f c st) as [[[r st1]|e]|]; [|done..].
  by destruct (all f cs st1) as [[[rs st2]|e]|].
Qed.

Lemma all_runs_or_finishes {B} (f : TreeNode -> task B) (P : db -> Prop) cs st :
  (forall c st0, c ∈ cs -> P st0 ->
     f c st0 = None \/
     exists r st', f c st0 = Some (Fulfilled (r, st')) /\ P st') ->
  P st ->
  all f cs st = None \/
  exists rs st', all f cs st = Some (Fulfilled (rs, st')) /\ P st'.
Proof.
  revert st. induction cs as [|c cs IH]; intros st Hf HP.
  - right. exists [], st. by split.
  - rewrite all_cons.
    assert (c ∈ c :: cs) as Hin by left.
    destruct (Hf c st Hin HP) as [Hc|(r & st1 & Hc & HP1)];
      rewrite Hc; [by left|].
    assert (forall c' st0, c' ∈ cs -> P st0 ->
              f c' st0 = None \/
              exists r st', f c' st0 = Some (Fulfilled (r, st')) /\ P st') as Hf'.
    { intros c' st0 Hc'. apply Hf. by right. }
    destruct (IH st1 Hf' HP1) as [Hcs|(rs & st2 & Hcs & HP2)]; rewrite Hcs.
    + by left.
    + right. exists (r :: rs), st2. by split.
Qed.

Lemma copy_deep_unfold n i target position changeType st :
  copy uuid (S n) i target position true changeType st =
  match tableCopy uuid st i target position changeType with
  | Rejected e => Some (Rejected e)
  | Fulfilled (data, st1) =>
      match all (fun child => copy uuid n (id child) (id data) LAST_CHILD true
                                   changeType)
                (sortBy_lft (where_parent (tree st1) i)) st1 with
      | None => None
      | Some (Rejected e) => Some (Rejected e)
      | Some (Fulfilled (rss, st2)) =>
          Some (Fulfilled
                  (data :: concat rss,
                   if bool_decide (changeType = COPIED) then st2
                   else mkDb (tree st2) (changes st2)
                          (contentnode st2 ++ map id (data :: concat rss))
                          (uuids st2)))
      end
  end.
Proof.
  cbn [copy]. unfold tbind at 1.
  destruct (tableCopy uuid st i target position changeType) as [[data st1]|e];
    [|done].
  unfold tbind at 1. unfold tbind at 1. unfold tret at 1. unfold tbind at 1.
  rewrite promiseChunk_all by lia.
  destruct (all _ _ st1) as [[[rss st2]|e]|]; [|done..].
  unfold tret at 1. by destruct (bool_decide (changeType = COPIED)).
Qed.

Lemma copy_runs_or_finishes changeType n :
  forall st x p pn node,
    unused_uuids uuid st ->
    get (tree st) x = Some node ->
    get (tree st) p = Some pn ->
    runs_or_finishes uuid st (copy uuid n x p LAST_CHILD true changeType st).
Proof.
  induction n as [|n IH]; intros st x p pn node Hun Hx Hp; [by left|].
  rewrite copy_deep_unfold.
  destruct (tableCopy_last_child st x p pn node changeType Hun Hp Hx)
    as (data & st1 & -> & Hpar & Hdata & Hkeep & Hun1).
  set (P := fun st0 : db =>
    (forall k row, get (tree st1) k = Some row -> get (tree st0) k = Some row)
    /\ unused_uuids uuid st0).
  assert (forall c st0, c ∈ tree st1 -> P st0 ->
            copy uuid n (id c) (id data) LAST_CHILD true changeType st0 = None \/
            exists r st',
              copy uuid n (id c) (id data) LAST_CHILD true changeType st0
                = Some (Fulfilled (r, st')) /\ P st') as Hchild.
  { intros c st0 Hc [Hk0 Hun0].
    destruct (get_is_Some _ _ Hc) as [crow Hcrow].
    destruct (IH st0 (id c) (id data) data crow Hun0 (Hk0 _ _ Hcrow)
                 (Hk0 _ _ Hdata))
      as [Hnone|(r & st' & Hsome & Hk' & Hun')]; [by left|].
    right. exists r, st'. split; [done|]. split; auto. }
  assert (P st1) as HP1 by (by split).
  destruct (all_runs_or_finishes
              (fun child => copy uuid n (id child) (id data) LAST_CHILD true
                                 changeType)
              P (sortBy_lft (where_parent (tree st1) x)) st1)
    as [Hnone|(rss & st2 & Hsome & Hkeep2 & Hun2)]; [|done| |].
  - intros c st0 Hc. apply Hchild. by apply elem_of_children in Hc as [Hc _].
  - rewrite Hnone. by left.
  - rewrite Hsome. right. eexists _, _. split; [reflexivity|].
    destruct (bool_decide (changeType = COPIED)); simpl; split; auto.
Qed.

Lemma copy_into_itself_diverges changeType n :
  forall st x node,
    unused_uuids uuid st ->
    get (tree st) x = Some node ->
    copy uuid n x x LAST_CHILD true changeType st = None.
Proof.
  induction n as [|n IH]; intros st x node Hun Hx; [done|].
  rewrite copy_deep_unfold.
  destruct (tableCopy_last_child st x x node node changeType Hun Hx Hx)
    as (data & st1 & -> & Hpar & Hdata & Hkeep & Hun1).
  assert (data ∈ sortBy_lft (where_parent (tree st1) x)) as Hin.
  { apply elem_of_children. split; [by eapply get_elem_of|done]. }
  apply list_elem_of_split in Hin as (l1 & l2 & Hsplit).
  rewrite Hsplit, all_app. unfold tbind at 1.
  set (P := fun st0 : db =>
    (forall k row, get (tree st1) k = Some row -> get (tree st0) k = Some row)
    /\ unused_uuids uuid st0).
  assert (forall c st0, c ∈ l1 -> P st0 ->
            copy uuid n (id c) (id data) LAST_CHILD true changeType st0 = None \/
            exists r st',
              copy uuid n (id c) (id data) LAST_CHILD true changeType st0
                = Some (Fulfilled (r, st')) /\ P st') as Hchild.
  { intros c st0 Hc [Hk0 Hun0].
    assert (c ∈ tree st1) as Hc1.
    { eapply elem_of_children. rewrite Hsplit. apply elem_of_app. by left. }
    destruct (get_is_Some _ _ Hc1) as [crow Hcrow].
    destruct (copy_runs_or_finishes changeType n st0 (id c) (id data) data crow
                Hun0 (Hk0 _ _ Hcrow) (Hk0 _ _ Hdata))
      as [Hnone|(r & st' & Hsome & Hk' & Hun')]; [by left|].
    right. exists r, st'. split; [done|]. split; auto. }
  assert (P st1) as HP1 by (by split).
  destruct (all_runs_or_finishes
              (fun child => copy uuid n (id child) (id data) LAST_CHILD true
                                 changeType)
              P l1 st1 Hchild HP1)
    as [Hnone|(rss & st2 & Hsome & Hkeep2 & Hun2)]; rewrite ?Hnone, ?Hsome;
    [done|].
  unfold tbind at 1. rewrite all_cons.
  by rewrite (IH st2 (id data) data) by auto.
Qed.

End Divergence.

(** Copying the node "p" into itself: whatever the depth allowed, the
    copy does not return. *)
Lemma copy_into_own_subtree_never_returns :
  ~ (exists fuel copies st',
       copy sample_uuid fuel "p" "p" LAST_CHILD true COPIED sample_db
         = Some (Fulfilled (copies, st'))).
Proof.
  intros (fuel & copies & st' & H).
  rewrite (copy_into_itself_diverges sample_uuid sample_uuid_inj COPIED fuel
             sample_db "p"
             (mkNode "p" None (Some 1%Q) (Some "t") (Some "ch") None (Some 0)))
    in H; [done|exact sample_uuid_unused|reflexivity].
Qed.

End TreeFacts.

(** ** The sort keys as doubles *)

Module SortOrderFacts.
Import Tree TreeFacts SortOrder.

Lemma findIndex_from_find_double siblings target z :
  findIndex_from siblings target z =
  match list_find (fun n => id n = target) siblings with
  | Some (k, _) => z + Z.of_nat k
  | None => -1
  end.
Proof.
  revert z. induction siblings as [|n rest IH]; intros z; simpl; [done|].
  destruct (String.eqb_spec (id n) target) as [He|Hne].
  - rewrite decide_True by done. simpl. lia.
  - rewrite decide_False by done. rewrite IH.
    destruct (list_find _ rest) as [[k t]|]; simpl; lia.
Qed.

Lemma findIndex_find_double siblings target :
  findIndex siblings target =
  match list_find (fun n => id n = target) siblings with
  | Some (k, _) => Z.of_nat k
  | None => -1
  end.
Proof.
  unfold findIndex. rewrite findIndex_from_find_double.
  destruct (list_find _ siblings) as [[k t]|]; lia.
Qed.

Lemma find_elem_of_double siblings target :
  target ∈ map id siblings ->
  exists k t, list_find (fun n => id n = target) siblings = Some (k, t).
Proof.
  intros Hin. apply list_elem_of_fmap in Hin as (n & -> & Hn).
  destruct (list_find (fun m => id m = id n) siblings) as [[k t]|] eqn:E; [eauto|].
  rewrite list_find_None in E. rewrite Forall_forall in E.
  by destruct (E n Hn).
Qed.

Lemma getNewSortOrder_double_general i target position siblings :
  siblings <> [] ->
  (position = LEFT \/ position = RIGHT -> target ∈ map id siblings) ->
  exists q,
    expected_sort_order target position siblings = Some q /\
    (getNewSortOrder i target position siblings = Return None \/
     getNewSortOrder i target position siblings = Return (Some q)) /\
    (~ already_in_position i target position siblings ->
     getNewSortOrder i target position siblings = Return (Some q)).
Proof.
  intros Hne Htarget.
  unfold getNewSortOrder, is_noop, expected_sort_order, already_in_position.
  rewrite findIndex_find_double.
  destruct position; simpl.
  - destruct siblings as [|n rest]; [done|]. simpl.
    unfold js_index; simpl.
    eexists; split; [done|].
    destruct (String.eqb_spec (id n) i) as [Hni|Hni]; [subst i|]; simpl.
    + split; [by left|]. intros H; by destruct H.
    + split; [by right|]. done.
  - destruct (last_is_Some siblings Hne) as [n Hn].
    unfold js_last. rewrite Hn. simpl.
    eexists; split; [done|].
    destruct (String.eqb_spec (id n) i) as [Hni|Hni]; [subst i|]; simpl.
    + split; [by left|]. intros H; by destruct H.
    + split; [by right|]. done.
  - destruct (find_elem_of_double siblings target) as (k & t & Hfind); [auto|].
    rewrite Hfind. simpl.
    apply list_find_Some in Hfind as Hk. destruct Hk as (Hk & _ & _).
    rewrite js_index_nat, Hk. simpl.
    destruct k as [|j].
    + simpl. eexists; split; [done|]. split; [by right|done].
    + replace (Z.of_nat (S j) - 1) with (Z.of_nat j) by lia.
      rewrite js_index_nat.
      destruct (Z.ltb_spec 0 (Z.of_nat (S j))); [|lia]. simpl.
      assert (is_Some (siblings !! j)) as [m Hm].
      { apply lookup_lt_is_Some. apply lookup_lt_Some in Hk. lia. }
      rewrite Hm. simpl.
      eexists; split; [done|].
      destruct (String.eqb_spec (id m) i) as [Hmi|Hmi]; [subst i|]; simpl.
      * split; [by left|]. intros H'. destruct H'. exists j, t. by rewrite Hm.
      * split; [by right|]. done.
  - destruct (find_elem_of_double siblings target) as (k & t & Hfind); [auto|].
    rewrite Hfind. simpl.
    apply list_find_Some in Hfind as Hk. destruct Hk as (Hk & _ & _).
    rewrite js_index_nat, Hk. simpl.
    replace (Z.of_nat k + 1) with (Z.of_nat (S k)) by lia.
    rewrite js_index_nat.
    eexists; split; [done|].
    destruct (Z.ltb_spec (Z.of_nat k) (Z.of_nat (length siblings) - 2)) as [Hlt|Hge]; simpl.
    + assert (is_Some (siblings !! S k)) as [m Hm].
      { apply lookup_lt_is_Some. lia. }
      rewrite Hm. simpl.
      destruct (String.eqb_spec (id m) i) as [Hmi|Hmi]; [subst i|]; simpl.
      * split; [by left|]. intros H'. destruct H'. exists k, t. by rewrite Hm.
      * split; [by right|]. done.
    + destruct (siblings !! S k) as [m|] eqn:Hm; simpl.
      * split; [by right|done].
      * split; [by right|done].
Qed.

(** C2.  For a non-empty list of siblings (and a target that is among
    them when the position is relative to it), [getNewSortOrder] returns
    [null] or the value the ordering rules prescribe, computed in the
    arithmetic of doubles, and it returns that value whenever the node is
    not already in the requested position.  With siblings at 1, 2 and 3,
    placing a node left of the middle one gives 1.5, which is the exact
    midpoint and lies strictly between its neighbours. *)
Theorem getNewSortOrder_rounded_values :
  (forall i target position siblings,
     siblings <> [] ->
     (position = LEFT \/ position = RIGHT -> target ∈ map id siblings) ->
     exists q,
       expected_sort_order target position siblings = Some q /\
       (getNewSortOrder i target position siblings = Return None \/
        getNewSortOrder i target position siblings = Return (Some q)) /\
       (~ already_in_position i target position siblings ->
        getNewSortOrder i target position siblings = Return (Some q))) /\
  (getNewSortOrder "n" "b" LEFT [row "a" 1; row "b" 2; row "c" 3]
     = Return (Some 1.5%float) /\
   (exists v, exact 1.5 = Some v /\ (v == 3 # 2)%Q) /\
   (1 <? 1.5)%float = true /\ (1.5 <? 2)%float = true).
Proof.
  split; [apply getNewSortOrder_double_general|].
  split_and!; [reflexivity| |reflexivity..].
  eexists. split; [vm_compute; reflexivity|reflexivity].
Qed.

Lemma getNewSortOrder_rounded_values_witness :
  getNewSortOrder "n" "b" RIGHT [row "a" 1; row "b" 2; row "c" 3]
    = Return (Some ((2 + 3) / 2)%float).
Proof.
  destruct (proj1 getNewSortOrder_rounded_values "n" "b" RIGHT
              [row "a" 1; row "b" 2; row "c" 3])
    as (q & Hq & _ & Hgo).
  - discriminate.
  - intros _. vm_compute. right. left.
  - vm_compute in Hq. injection Hq as <-.
    rewrite Hgo; [reflexivity|].
    intros (k & t & Hfind & Hid). vm_compute in Hfind.
    injection Hfind as <- <-. vm_compute in Hid. discriminate.
Defined.

(** The value is the rounded one: with the siblings at 1 and at the next
    double after 1, the key for the place left of the second is not the
    midpoint of the two but 1, the key of the first. *)
Lemma getNewSortOrder_not_exact :
  exists q v a b,
    getNewSortOrder "n" "b" LEFT [row "a" 1; row "b" 0x1.0000000000001p+0]
      = Return (Some q) /\
    exact q = Some v /\ exact 1 = Some a /\
    exact 0x1.0000000000001p+0 = Some b /\
    (a < b)%Q /\ ~ (v == (a + b) / 2)%Q /\ (v == a)%Q.
Proof.
  eexists _, _, _, _.
  split_and!; [reflexivity|vm_compute; reflexivity..| | |].
  - reflexivity.
  - intros H. vm_compute in H. discriminate H.
  - reflexivity.
Qed.

(** Rounding at the other places: with the last sibling at 2^53 the key
    for the last place is 2^53 again, and half of the smallest positive
    double is 0.  A row without [lft] gives NaN. *)
Lemma getNewSortOrder_rounding_cases :
  getNewSortOrder "n" "n" LAST_CHILD [row "a" 9007199254740992]
    = Return (Some 9007199254740992%float) /\
  getNewSortOrder "n" "n" FIRST_CHILD [row "a" 0x0.0000000000001p-1022]
    = Return (Some 0%float) /\
  getNewSortOrder "n" "b" LEFT [mkSibling "a" Undefined; row "b" 2]
    = Return (Some nan).
Proof. split_and!; reflexivity. Qed.

End SortOrderFacts.

Ltac by_compute := apply (bool_decide_unpack _); vm_compute; exact I.

(** ** Query resolution: what the rows returned satisfy *)

Module QueryRows.
Import JS IndexedDBResource QueryFacts Query.


Lemma partition_params_app r l1 l2 :
  partition_params r (l1 ++ l2) = foldl (partition_step r) (partition_params r l1) l2.
Proof. unfold partition_params. by rewrite foldl_app. Qed.

Lemma where_partition e r table params params' :
  partition_params r params = partition_params r params' ->
  where_ e r table params = where_ e r table params'.
Proof. unfold where_. by intros ->. Qed.

Lemma partition_step_dropped r acc key v :
  root_of key ∈ indexFields r ->
  truthy (suffix_of key) = true ->
  (forall s, suffix_of key = Some s -> s ∉ VALID_SUFFIXES) ->
  partition_step r acc (key, v) = acc.
Proof.
  unfold root_of, suffix_of, partition_step. intros Hroot Htruthy Hinvalid.
  destruct (SUFFIX_SEPERATOR_split key !! 1%nat) as [s|] eqn:Hs; [|done].
  rewrite Htruthy. simpl.
  rewrite (bool_decide_eq_false_2 (s ∈ VALID_SUFFIXES)) by auto. simpl.
  rewrite bool_decide_eq_true_2 by done.
  rewrite bool_decide_eq_false_2.
  - done.
  - intros [= ->]. apply (Hinvalid _ eq_refl). unfold VALID_SUFFIXES. left.
Qed.

(** X1.  A parameter on an indexed field whose suffix is none of [in],
    [gt], [gte], [lt], [lte] is dropped: the query is resolved as if the
    parameter had not been given. *)
Theorem where_ignores_unknown_suffix e r table l1 l2 key v :
  root_of key ∈ indexFields r ->
  truthy (suffix_of key) = true ->
  (forall s, suffix_of key = Some s -> s ∉ VALID_SUFFIXES) ->
  where_ e r table (l1 ++ (key, v) :: l2) = where_ e r table (l1 ++ l2).
Proof.
  intros Hroot Htruthy Hinvalid. apply where_partition.
  rewrite !partition_params_app. cbn [foldl].
  by rewrite partition_step_dropped.
Qed.

Lemma where_ignores_unknown_suffix_witness :
  where_ (mkEnv true) Channel channel_table
         ([] ++ ("name__contains", Prim (PStr "zzz")) :: [("language", Prim (PStr "en"))])
  = where_ (mkEnv true) Channel channel_table
           ([] ++ [("language", Prim (PStr "en"))]).
Proof.
  apply where_ignores_unknown_suffix.
  - by_compute.
  - reflexivity.
  - intros s [= <-]. by_compute.
Defined.

(** What a completed query returns: the rows of the base collection that
    pass the equality filter and every range filter. *)
Lemma where_shape e r table params rows :
  where_ e r table params = Return (Fulfilled rows) ->
  let parts := partition_params r params in
  exists base fp rows0,
    ((arrayParams parts = ∅ /\
      base = (if (0 <? size (whereParams parts))%nat
              then where_equal table (whereParams parts) else Fulfilled table) /\
      fp = filterParams parts) \/
     (exists field values,
        arrayParams parts = {[field := values]} /\
        base = anyOf table field values /\
        fp = assign (filterParams parts) (whereParams parts))) /\
    base = Fulfilled rows0 /\
    rows = List.filter
             (fun row => matches fp row
                         && forallb (fun f => f row)
                                    (suffix_filters (suffixedParams parts)))
             rows0.
Proof.
  intros Hw parts. unfold where_ in Hw. fold parts in Hw.
  assert (forall (base : collection) fp,
    (let filterFn :=
       if negb (size fp =? 0)%nat then Some (matches fp) else None in
     let filterFn :=
       if negb (size (suffixedParams parts) =? 0)%nat
       then Some (overEvery (suffix_filters (suffixedParams parts)
                             ++ option_list filterFn))
       else filterFn in
     let! coll :=
       match filterFn with
       | Some f =>
           let! c := prop (Some base) (fun c => c) in
           Return (Some (await rows := c in Fulfilled (List.filter f rows)))
       | None => Return (Some base)
       end in
     prop coll (fun c => c)) = Return (Fulfilled rows) ->
    exists rows0, base = Fulfilled rows0 /\
      rows = List.filter
               (fun row => matches fp row
                           && forallb (fun f => f row)
                                      (suffix_filters (suffixedParams parts)))
               rows0) as Hfilter.
  { intros base fp. simpl.
    assert (suffixedParams parts = ∅ ->
            suffix_filters (suffixedParams parts) = []) as Hnil.
    { intros ->. unfold suffix_filters. by rewrite map_to_list_empty. }
    destruct (Nat.eqb_spec (size fp) 0) as [Hfp|Hfp];
      destruct (Nat.eqb_spec (size (suffixedParams parts)) 0) as [Hsp|Hsp]; simpl.
    - intros [= ->]. exists rows. split; [done|].
      apply map_size_empty_inv in Hsp. rewrite (Hnil Hsp).
      symmetry. apply filter_all_true. intros row. simpl.
      by rewrite matches_empty.
    - destruct base as [rows0|err]; simpl; [|done].
      intros [= <-]. exists rows0. split; [done|].
      apply List.filter_ext. intros row. unfold overEvery.
      rewrite app_nil_r, matches_empty by done. done.
    - destruct base as [rows0|err]; simpl; [|done].
      intros [= <-]. exists rows0. split; [done|].
      apply map_size_empty_inv in Hsp. rewrite (Hnil Hsp).
      apply List.filter_ext. intros row. simpl. by rewrite andb_true_r.
    - destruct base as [rows0|err]; simpl; [|done].
      intros [= <-]. exists rows0. split; [done|].
      apply List.filter_ext. intros row. unfold overEvery.
      rewrite forallb_app. simpl. rewrite andb_true_r. apply andb_comm. }
  destruct (map_to_list (arrayParams parts)) as [|[field values] [|entry' entries]]
    eqn:Harr.
  - apply map_to_list_empty_iff in Harr.
    destruct (0 <? size (whereParams parts))%nat eqn:Hsize; simpl in Hw.
    + destruct (Hfilter _ _ Hw) as (rows0 & Hbase & Hrows).
      exists (where_equal table (whereParams parts)), (filterParams parts), rows0.
      split; [left|]; done.
    + destruct (Hfilter _ _ Hw) as (rows0 & Hbase & Hrows).
      exists (Fulfilled table), (filterParams parts), rows0.
      split; [left|]; done.
  - assert (arrayParams parts = {[field := values]}) as Hsingle.
    { rewrite <- (list_to_map_to_list (arrayParams parts)), Harr. done. }
    destruct (warn_unless_production e _); simpl in Hw; [|done].
    destruct (Hfilter _ _ Hw) as (rows0 & Hbase & Hrows).
    exists (anyOf table field values),
           (assign (filterParams parts) (whereParams parts)), rows0.
    split; [right; eauto|]. done.
  - destruct (warn_unless_production e true); simpl in Hw; [|done].
    destruct (negb (size (filterParams parts) =? 0)%nat);
      destruct (negb (size (suffixedParams parts) =? 0)%nat); done.
Qed.

Lemma partition_step_unfold r acc key v :
  partition_step r acc (key, v) =
  if is_range key then
    mkPartition (whereParams acc) (filterParams acc) (arrayParams acc)
      (<[root_of key :=
           <[default "" (suffix_of key) := v]>
             (default ∅ (suffixedParams acc !! root_of key))]> (suffixedParams acc))
  else if bool_decide (root_of key ∈ indexFields r) then
    if bool_decide (suffix_of key = Some QUERY_SUFFIXES_IN) then
      mkPartition (whereParams acc) (filterParams acc)
        (<[root_of key := v]> (arrayParams acc)) (suffixedParams acc)
    else if negb (truthy (suffix_of key)) then
      mkPartition (<[root_of key := v]> (whereParams acc)) (filterParams acc)
        (arrayParams acc) (suffixedParams acc)
    else acc
  else
    mkPartition (whereParams acc) (<[root_of key := v]> (filterParams acc))
      (arrayParams acc) (suffixedParams acc).
Proof. reflexivity. Qed.

Lemma step_whereParams_other r acc key v k :
  root_of key <> k ->
  whereParams (partition_step r acc (key, v)) !! k = whereParams acc !! k.
Proof.
  intros Hne. rewrite partition_step_unfold.
  repeat case_match; simpl; try done; by rewrite lookup_insert_ne.
Qed.

Lemma step_filterParams_other r acc key v k :
  root_of key <> k ->
  filterParams (partition_step r acc (key, v)) !! k = filterParams acc !! k.
Proof.
  intros Hne. rewrite partition_step_unfold.
  repeat case_match; simpl; try done; by rewrite lookup_insert_ne.
Qed.

Lemma step_arrayParams_other r acc key v k :
  ~ (root_of key = k /\ suffix_of key = Some QUERY_SUFFIXES_IN) ->
  arrayParams (partition_step r acc (key, v)) !! k = arrayParams acc !! k.
Proof.
  intros Hne. rewrite partition_step_unfold.
  repeat case_match; simpl; try done.
  rewrite lookup_insert_ne; [done|].
  intros Heq. apply Hne. split; [done|]. by eapply bool_decide_eq_true_1.
Qed.

Lemma is_range_suffix key :
  is_range key = true ->
  exists s, suffix_of key = Some s /\ s <> QUERY_SUFFIXES_IN.
Proof.
  unfold is_range. intros [[Ht _]%andb_true_iff Hin]%andb_true_iff.
  destruct (suffix_of key) as [s|]; [|done]. exists s. split; [done|].
  simpl in Hin. intros ->. done.
Qed.

Lemma step_range_other r acc key v root suffix :
  ~ (root_of key = root /\ suffix_of key = Some suffix) ->
  range_param (partition_step r acc (key, v)) root suffix
  = range_param acc root suffix.
Proof.
  intros Hne. rewrite partition_step_unfold. unfold range_param.
  destruct (is_range key) eqn:Hr; [|repeat case_match; done].
  simpl. destruct (is_range_suffix _ Hr) as (s & Hs & _). rewrite Hs. simpl.
  destruct (decide (root_of key = root)) as [Heq|Hroot].
  - rewrite Heq, lookup_insert_eq. simpl.
    rewrite lookup_insert_ne by (intros ->; by apply Hne).
    by destruct (suffixedParams acc !! root).
  - by rewrite lookup_insert_ne.
Qed.

Lemma foldl_preserved {A} r (get : partition -> A) (ok : string -> Prop) acc l :
  (forall acc key v, ok key -> get (partition_step r acc (key, v)) = get acc) ->
  Forall (fun kv : string * value => ok kv.1) l ->
  get (foldl (partition_step r) acc l) = get acc.
Proof.
  intros Hstep Hl. revert acc.
  induction Hl as [|[key v] l Hok _ IH]; intros acc; cbn [foldl]; [done|].
  rewrite IH. by apply Hstep.
Qed.

(** Only indexed fields are looked up through an index. *)
Lemma whereParams_indexed r params k :
  is_Some (whereParams (partition_params r params) !! k) -> k ∈ indexFields r.
Proof.
  unfold partition_params.
  assert (forall acc,
    (forall k, is_Some (whereParams acc !! k) -> k ∈ indexFields r) ->
    forall k, is_Some (whereParams (foldl (partition_step r) acc params) !! k)
              -> k ∈ indexFields r) as H.
  { induction params as [|[key v] params IH]; intros acc Hacc; cbn [foldl]; [done|].
    apply IH. intros k'. rewrite partition_step_unfold.
    repeat case_match; simpl; try apply Hacc.
    destruct (decide (root_of key = k')) as [<-|Hne].
    - intros _. by eapply bool_decide_eq_true_1.
    - rewrite lookup_insert_ne by done. apply Hacc. }
  apply H. intros k' [x Hx]. simpl in Hx. by rewrite lookup_empty in Hx.
Qed.

Lemma elem_of_filter_list {A} (f : A -> bool) (l : list A) x :
  x ∈ List.filter f l <-> x ∈ l /\ f x = true.
Proof. rewrite !list_elem_of_In. apply List.filter_In. Qed.

Lemma base_subset r table params (base : collection) rows0 :
  let parts := partition_params r params in
  (arrayParams parts = ∅ /\
   base = (if (0 <? size (whereParams parts))%nat
           then where_equal table (whereParams parts) else Fulfilled table)) \/
  (exists field values, base = anyOf table field values) ->
  base = Fulfilled rows0 -> forall row, row ∈ rows0 -> row ∈ table.
Proof.
  intros parts [[_ ->]|(field & values & ->)] Hbase row Hrow.
  - destruct (0 <? size (whereParams parts))%nat.
    + unfold where_equal in Hbase. case_match; [|done].
      injection Hbase as <-. by apply elem_of_filter_list in Hrow as [? _].
    + by injection Hbase as <-.
  - unfold anyOf in Hbase. case_match; [|done].
    injection Hbase as <-. by apply elem_of_filter_list in Hrow as [? _].
Qed.

(** X2.  A query never returns a row that is not in the table; without
    parameters it returns the whole table. *)
Theorem where_returns_rows_of_table e r table :
  where_ e r table [] = Return (Fulfilled table) /\
  (forall params rows,
     where_ e r table params = Return (Fulfilled rows) ->
     forall row, row ∈ rows -> row ∈ table).
Proof.
  split; [reflexivity|].
  intros params rows Hw row Hrow.
  destruct (where_shape _ _ _ _ _ Hw) as (base & fp & rows0 & Hcase & Hbase & ->).
  apply elem_of_filter_list in Hrow as [Hrow _].
  eapply (base_subset r table params base); [|done..].
  destruct Hcase as [(? & ? & _)|(field & values & _ & ? & _)]; eauto.
Qed.

Lemma where_returns_rows_of_table_witness :
  channel_row 3 "a" "fr" ∈ channel_table.
Proof.
  apply (proj2 (where_returns_rows_of_table (mkEnv false) Channel channel_table)
               [("name", Prim (PStr "a"))]
               [channel_row 1 "a" "en"; channel_row 3 "a" "fr"]).
  - vm_compute. reflexivity.
  - by_compute.
Defined.

(** X3.  An equality parameter on a field that is not indexed holds of
    every row returned, whatever the other parameters are: [where] hands
    it to lodash [matches]. *)
Theorem where_equality_holds e r table l1 l2 key p rows :
  root_of key ∉ indexFields r ->
  truthy (suffix_of key) = false ->
  Forall (fun kv : string * value => root_of kv.1 <> root_of key) l2 ->
  where_ e r table (l1 ++ (key, Prim p) :: l2) = Return (Fulfilled rows) ->
  forall row, row ∈ rows -> row !! root_of key = Some (Prim p).
Proof.
  intros Hplain Hsuffix Hlater Hw row Hrow.
  destruct (where_shape _ _ _ _ _ Hw) as (base & fp & rows0 & Hcase & Hbase & ->).
  apply elem_of_filter_list in Hrow as [Hrow [Hmatch _]%andb_true_iff].
  set (parts := partition_params r (l1 ++ (key, Prim p) :: l2)) in *.
  assert (is_range key = false) as Hrange.
  { unfold is_range. by rewrite Hsuffix. }
  assert (filterParams parts !! root_of key = Some (Prim p)) as Hfilter.
  { unfold parts. rewrite partition_params_app. cbn [foldl].
    rewrite (foldl_preserved r (fun a => filterParams a !! root_of key)
               (fun k => root_of k <> root_of key)); [|..|done].
    - rewrite partition_step_unfold, Hrange.
      rewrite bool_decide_eq_false_2 by done.
      simpl. apply lookup_insert_eq.
    - intros. by apply step_filterParams_other. }
  assert (fp !! root_of key = Some (Prim p)) as Hk.
  { destruct Hcase as [(_ & _ & ->)|(field & values & _ & _ & ->)]; [done|].
    unfold assign. rewrite lookup_union_r; [done|].
    apply eq_None_not_Some. intros Hk. apply Hplain.
    by eapply whereParams_indexed. }
  unfold matches in Hmatch. apply bool_decide_eq_true in Hmatch.
  specialize (Hmatch _ _ Hk). simpl in Hmatch.
  destruct (row !! root_of key) as [[q|qs]|]; try done.
  by apply bool_decide_eq_true in Hmatch as ->.
Qed.

Lemma where_equality_holds_witness :
  item 3 1 !! "x" = Some (Prim (PNum 1)).
Proof.
  apply (where_equality_holds (mkEnv true) Channel sample_table
           [("id__in", Arr [PNum 1; PNum 3])] []
           "x" (PNum 1) [item 1 1; item 3 1]).
  - by_compute.
  - reflexivity.
  - constructor.
  - vm_compute. reflexivity.
  - by_compute.
Defined.

Lemma suffix_filter_range root suffix v f :
  suffix_filter root suffix v = Some f ->
  suffix ∈ VALID_SUFFIXES /\ suffix <> QUERY_SUFFIXES_IN /\ suffix <> "".
Proof.
  unfold suffix_filter, VALID_SUFFIXES.
  destruct (String.eqb_spec suffix QUERY_SUFFIXES_LT) as [->|_];
    [intros _; split; [by_compute|done]|].
  destruct (String.eqb_spec suffix QUERY_SUFFIXES_LTE) as [->|_];
    [intros _; split; [by_compute|done]|].
  destruct (String.eqb_spec suffix QUERY_SUFFIXES_GT) as [->|_];
    [intros _; split; [by_compute|done]|].
  destruct (String.eqb_spec suffix QUERY_SUFFIXES_GTE) as [->|_];
    [intros _; split; [by_compute|done]|].
  done.
Qed.

Lemma elem_of_suffix_filters suffixed root inner suffix v f :
  suffixed !! root = Some inner -> inner !! suffix = Some v ->
  suffix_filter root suffix v = Some f ->
  In f (suffix_filters suffixed).
Proof.
  intros Hroot Hinner Hf. unfold suffix_filters.
  apply in_flat_map. exists (root, inner). split.
  - apply list_elem_of_In. by apply elem_of_map_to_list.
  - apply list_elem_of_In. apply list_elem_of_omap. exists (suffix, v).
    split; [by apply elem_of_map_to_list|done].
Qed.

(** X4.  A range parameter holds of every row returned. *)
Theorem where_range_holds e r table l1 l2 key suffix v f rows :
  suffix_of key = Some suffix ->
  suffix_filter (root_of key) suffix v = Some f ->
  Forall (fun kv : string * value =>
            ~ (root_of kv.1 = root_of key /\ suffix_of kv.1 = Some suffix)) l2 ->
  where_ e r table (l1 ++ (key, v) :: l2) = Return (Fulfilled rows) ->
  forall row, row ∈ rows -> f row = true.
Proof.
  intros Hsuffix Hf Hlater Hw row Hrow.
  destruct (where_shape _ _ _ _ _ Hw) as (base & fp & rows0 & _ & _ & ->).
  apply elem_of_filter_list in Hrow as [_ [_ Hall]%andb_true_iff].
  set (parts := partition_params r (l1 ++ (key, v) :: l2)) in *.
  destruct (suffix_filter_range _ _ _ _ Hf) as (Hvalid & Hin & Hne).
  assert (is_range key = true) as Hrange.
  { unfold is_range. rewrite Hsuffix. simpl.
    rewrite bool_decide_eq_true_2 by done.
    destruct (String.eqb_spec suffix "") as [->|_]; [done|].
    by destruct (String.eqb_spec suffix QUERY_SUFFIXES_IN). }
  assert (range_param parts (root_of key) suffix = Some v) as Hparam.
  { unfold parts. rewrite partition_params_app. cbn [foldl].
    rewrite (foldl_preserved r (fun a => range_param a (root_of key) suffix)
               (fun k => ~ (root_of k = root_of key /\ suffix_of k = Some suffix)));
      [|..|done].
    - rewrite partition_step_unfold, Hrange, Hsuffix. unfold range_param. simpl.
      rewrite lookup_insert_eq. simpl. apply lookup_insert_eq.
    - intros. by apply step_range_other. }
  unfold range_param in Hparam.
  destruct (suffixedParams parts !! root_of key) as [inner|] eqn:Hroot; [|done].
  simpl in Hparam. rewrite forallb_forall in Hall.
  apply (Hall f). by eapply elem_of_suffix_filters.
Qed.

Lemma where_range_holds_witness :
  js_gt (item 3 1 !! "id") (Prim (PNum 1)) = true.
Proof.
  apply (where_range_holds (mkEnv false) Channel sample_table
           [] [("id__lte", Prim (PNum 3))] "id__gt" "gt" (Prim (PNum 1))
           (fun row => js_gt (row !! "id") (Prim (PNum 1)))
           [item 2 2; item 3 1]).
  - reflexivity.
  - reflexivity.
  - repeat constructor. vm_compute. intros [_ [=]].
  - vm_compute. reflexivity.
  - by_compute.
Defined.

(** X5.  A membership parameter on an indexed field holds of every row
    returned: the field of the row is one of the listed values. *)
Theorem where_membership_holds e r table l1 l2 key ps rows :
  root_of key ∈ indexFields r ->
  suffix_of key = Some QUERY_SUFFIXES_IN ->
  Forall (fun kv : string * value =>
            ~ (root_of kv.1 = root_of key
               /\ suffix_of kv.1 = Some QUERY_SUFFIXES_IN)) l2 ->
  where_ e r table (l1 ++ (key, Arr ps) :: l2) = Return (Fulfilled rows) ->
  forall row, row ∈ rows ->
    exists p, p ∈ ps /\ row !! root_of key = Some (Prim p).
Proof.
  intros Hindexed Hsuffix Hlater Hw row Hrow.
  destruct (where_shape _ _ _ _ _ Hw) as (base & fp & rows0 & Hcase & Hbase & ->).
  apply elem_of_filter_list in Hrow as [Hrow _].
  set (parts := partition_params r (l1 ++ (key, Arr ps) :: l2)) in *.
  assert (is_range key = false) as Hrange.
  { unfold is_range. rewrite Hsuffix. reflexivity. }
  assert (arrayParams parts !! root_of key = Some (Arr ps)) as Harray.
  { unfold parts. rewrite partition_params_app. cbn [foldl].
    rewrite (foldl_preserved r (fun a => arrayParams a !! root_of key)
               (fun k => ~ (root_of k = root_of key
                            /\ suffix_of k = Some QUERY_SUFFIXES_IN)));
      [|..|done].
    - rewrite partition_step_unfold, Hrange.
      rewrite !bool_decide_eq_true_2 by done.
      simpl. apply lookup_insert_eq.
    - intros. by apply step_arrayParams_other. }
  destruct Hcase as [(Harr & _)|(field & values & Harr & -> & _)].
  - by rewrite Harr, lookup_empty in Harray.
  - rewrite Harr in Harray. apply lookup_singleton_Some in Harray as [-> ->].
    unfold anyOf in Hbase. case_match; [|done]. injection Hbase as <-.
    apply elem_of_filter_list in Hrow as [_ Hkey].
    destruct (row !! root_of key) as [[p|]|]; try done.
    exists p. split; [|done]. by apply bool_decide_eq_true in Hkey.
Qed.

Lemma where_membership_holds_witness :
  exists p, p ∈ [PNum 1; PNum 3; PNum 7] /\ item 3 1 !! "id" = Some (Prim p).
Proof.
  apply (where_membership_holds (mkEnv false) Channel sample_table
           [("x", Prim (PNum 1))] [] "id__in" [PNum 1; PNum 3; PNum 7]
           [item 1 1; item 3 1]).
  - by_compute.
  - reflexivity.
  - constructor.
  - vm_compute. reflexivity.
  - by_compute.
Defined.

End QueryRows.

(** ** The Tree resource: where moves and copies land *)

Module TreeOrderFacts.
Import Tree TreeFacts TreeOrder.

Lemma lft_lt_spec a b : lft_lt a b = true <-> lft_before a b.
Proof.
  unfold lft_lt, lft_before, sort_key. rewrite negb_true_iff.
  rewrite <- not_true_iff_false, Qle_bool_iff. split.
  - apply Qnot_le_lt.
  - apply Qlt_not_le.
Qed.

Lemma lft_lt_false a b : lft_lt a b = false <-> lft_le b a.
Proof.
  unfold lft_lt, lft_le, sort_key. rewrite negb_false_iff. apply Qle_bool_iff.
Qed.

Lemma sort_insert_sorted x l :
  StronglySorted lft_le l -> StronglySorted lft_le (sort_insert x l).
Proof.
  induction 1 as [|y rest Hrest IH Hy]; simpl; [repeat constructor|].
  destruct (lft_lt y x) eqn:Hyx.
  - constructor; [done|].
    rewrite sort_insert_perm. constructor; [|done].
    apply lft_lt_spec in Hyx. unfold lft_le, lft_before in *. lra.
  - apply lft_lt_false in Hyx. constructor.
    + by constructor.
    + constructor; [done|].
      eapply Forall_impl; [exact Hy|]. intros z Hz.
      unfold lft_le in *. lra.
Qed.

Lemma sortBy_lft_sorted l : StronglySorted lft_le (sortBy_lft l).
Proof.
  induction l as [|x rest IH]; simpl; [constructor|]. by apply sort_insert_sorted.
Qed.

Lemma lft_before_le l : StronglySorted lft_before l -> StronglySorted lft_le l.
Proof.
  induction 1 as [|x l _ IH Hx]; constructor; [done|].
  eapply Forall_impl; [exact Hx|]. intros y Hy. unfold lft_le, lft_before in *. lra.
Qed.

(** A list whose sort keys are pairwise different has one sorted order. *)
Lemma sortBy_lft_unique l sorted :
  StronglySorted lft_before sorted -> l ≡ₚ sorted -> sortBy_lft l = sorted.
Proof.
  intros Hsorted Hperm.
  apply (StronglySorted_unique_strong lft_le).
  - intros x1 x2 Hx1 Hx2 H12 H21.
    rewrite sortBy_lft_perm, Hperm in Hx1.
    apply list_elem_of_split in Hx1 as (a & b & ->).
    apply elem_of_app in Hx2 as [Hx2|[->|Hx2]%elem_of_cons]; [|done|].
    + pose proof (StronglySorted_app_1_elem_of _ _ _ x2 x1 Hsorted Hx2) as Hlt.
      unfold lft_le, lft_before in *.
      assert (sort_key x2 < sort_key x1)%Q by (apply Hlt; left). lra.
    + apply StronglySorted_app_1_r in Hsorted.
      apply StronglySorted_cons in Hsorted as [Hall _].
      rewrite Forall_forall in Hall. specialize (Hall _ Hx2).
      unfold lft_le, lft_before in *. lra.
  - apply sortBy_lft_sorted.
  - by apply lft_before_le.
  - by rewrite sortBy_lft_perm.
Qed.

Lemma key_ordered_cons m rest :
  key_ordered (m :: rest) ->
  key_ordered rest /\ forall n, n ∈ rest -> String.compare (id m) (id n) = Lt.
Proof.
  intros H. apply StronglySorted_cons in H as [Hall Hrest]. split; [done|].
  intros n Hn. rewrite Forall_forall in Hall. by apply Hall.
Qed.

Lemma filter_id_all (t : list TreeNode) (k : string) :
  (forall n, n ∈ t -> id n <> k) -> filter (fun n => id n <> k) t = t.
Proof.
  intros H. induction t as [|m rest IH]; [done|].
  rewrite filter_cons_True by (apply H; left).
  rewrite IH; [done|]. intros n Hn. apply H. by right.
Qed.

(** The children of [y] after a [put]: the row put, when [y] is its parent,
    and the children that were there, the replaced row apart. *)
Lemma where_parent_put_perm t n y :
  key_ordered t ->
  where_parent (put t n) y ≡ₚ
    (if decide (parent n = Some y) then [n] else [])
    ++ filter (fun m => id m <> id n) (where_parent t y).
Proof.
  unfold where_parent. intros Ht.
  induction t as [|m rest IH]; simpl.
  - rewrite filter_nil, app_nil_r. case_decide.
    + by rewrite filter_cons_True.
    + by rewrite filter_cons_False.
  - apply key_ordered_cons in Ht as [Hrest Hlt].
    assert (forall k, String.compare k (id m) <> Gt ->
                      filter (fun m' => id m' <> k) (filter (fun m' => parent m' = Some y) rest)
                      = filter (fun m' => parent m' = Some y) rest) as Hlater.
    { intros k Hk. apply filter_id_all. intros n' [_ Hn']%list_elem_of_filter Heq.
      specialize (Hlt _ Hn'). rewrite Heq in Hlt.
      apply Hk. rewrite String.compare_antisym, Hlt. done. }
    destruct (String.compare (id n) (id m)) eqn:Hc.
    + apply String.compare_eq_iff in Hc.
      rewrite (filter_cons _ n), (filter_cons _ m).
      assert (filter (fun m' => id m' <> id n) (filter (fun m' => parent m' = Some y) rest)
              = filter (fun m' => parent m' = Some y) rest) as Hrest'.
      { apply Hlater. rewrite Hc, string_compare_refl. done. }
      destruct (decide (parent n = Some y)); destruct (decide (parent m = Some y)).
      * rewrite filter_cons_False by (intros H; by apply H). by rewrite Hrest'.
      * by rewrite Hrest'.
      * rewrite filter_cons_False by (intros H; by apply H). by rewrite Hrest'.
      * by rewrite Hrest'.
    + rewrite (filter_cons _ n).
      assert (filter (fun m' => id m' <> id n) (filter (fun m' => parent m' = Some y) (m :: rest))
              = filter (fun m' => parent m' = Some y) (m :: rest)) as Hsame.
      { apply filter_id_all. intros n' [_ Hn']%list_elem_of_filter Heq.
        apply elem_of_cons in Hn' as [->|Hn'].
        - rewrite Heq, string_compare_refl in Hc. done.
        - specialize (Hlt _ Hn'). rewrite Heq in Hlt.
          rewrite String.compare_antisym, Hc in Hlt. done. }
      rewrite Hsame. by destruct (decide (parent n = Some y)).
    + rewrite (filter_cons _ m (put rest n)), (filter_cons _ m rest).
      assert (id m <> id n) as Hne.
      { intros Heq. rewrite Heq, string_compare_refl in Hc. done. }
      destruct (decide (parent m = Some y)).
      * rewrite filter_cons_True by done. rewrite (IH Hrest).
        destruct (decide (parent n = Some y)); simpl; [|done].
        apply Permutation_swap.
      * by rewrite (IH Hrest).
Qed.

Ltac qlra :=
  unfold lft_le, lft_before, sort_key, Qdiv in *;
  change (/ 2)%Q with (1 # 2)%Q in *; lra.

Lemma strictly_sorted_insert a x b :
  StronglySorted lft_before a -> StronglySorted lft_before b ->
  (forall n, n ∈ a -> lft_before n x) -> (forall n, n ∈ b -> lft_before x n) ->
  StronglySorted lft_before (a ++ x :: b).
Proof.
  intros Ha Hb Hax Hxb. apply StronglySorted_app_2; [|done|].
  - intros n1 n2 H1 [->|H2]%elem_of_cons; [by apply Hax|].
    specialize (Hax _ H1). specialize (Hxb _ H2). qlra.
  - constructor; [done|]. by apply Forall_forall.
Qed.

Lemma strictly_sorted_filter (P : TreeNode -> Prop) `{!forall n, Decision (P n)} l :
  StronglySorted lft_before l -> StronglySorted lft_before (filter P l).
Proof.
  induction 1 as [|x l _ IH Hx]; [constructor|].
  rewrite filter_cons. case_decide; [|done].
  constructor; [done|]. apply Forall_forall.
  intros y [_ Hy]%list_elem_of_filter. rewrite Forall_forall in Hx. auto.
Qed.

Lemma target_among_siblings t target position p siblings :
  getNewParentAndSiblings t target position = Fulfilled (p, siblings) ->
  position = LEFT \/ position = RIGHT -> target ∈ map id siblings.
Proof.
  unfold getNewParentAndSiblings, resolveParent. intros Hps Hpos.
  rewrite orb_false_intro in Hps
    by (apply bool_decide_eq_false; destruct Hpos; congruence).
  destruct (get t target) as [tn|] eqn:Htn; [|done]. simpl in Hps.
  destruct (parent tn) as [p'|] eqn:Hpar; [|done].
  injection Hps as <- <-.
  rewrite <- (get_id _ _ _ Htn).
  apply list_elem_of_fmap_2, elem_of_children. split; [|done].
  by eapply get_elem_of.
Qed.

Lemma siblings_are_children t target position p siblings :
  getNewParentAndSiblings t target position = Fulfilled (p, siblings) ->
  siblings = sortBy_lft (where_parent t p).
Proof.
  unfold getNewParentAndSiblings. destruct (resolveParent _ _ _) as [[p'|]|]; try done.
  simpl. by intros [= <- <-].
Qed.

Section PlacementOfCopies.
Variable uuid : nat -> string.

(** X8.  Copying a node to the place where it already is: the ordering
    engine takes the request for a move that changes nothing, and the copy
    is stored with [lft = null]. *)
Theorem tableCopy_in_place_null_lft st i target position changeType p siblings pn node :
  getNewParentAndSiblings (tree st) target position = Fulfilled (p, siblings) ->
  already_in_position i target position siblings ->
  position <> RIGHT ->
  get (tree st) p = Some pn ->
  get (tree st) i = Some node ->
  exists data st',
    tableCopy uuid st i target position changeType = Fulfilled (data, st') /\
    get (tree st') (id data) = Some data /\
    source_id data = Some i /\
    parent data = Some p /\
    lft data = None.
Proof.
  intros Hps Hin Hpos Hp Hi.
  assert (siblings <> []) as Hne.
  { intros ->. destruct position; simpl in Hin; try done.
    by destruct Hin as (k & t & [=] & _). }
  assert (getNewSortOrder i target position siblings = Return None) as Hnull.
  { apply getNewSortOrder_null_iff; [done| |by split].
    by eapply target_among_siblings. }
  set (data := mkNode (uuid (uuids st)) (Some p) None (tree_id pn)
                      (channel_id node) (Some i) (Z.succ <$> level pn)).
  exists data. eexists. split_and!.
  - unfold tableCopy. rewrite Hps. simpl.
    unfold place. destruct siblings as [|s rest]; [done|].
    rewrite Hnull. simpl. rewrite Hp, Hi. simpl.
    rewrite (get_id _ _ _ Hp). reflexivity.
  - simpl. apply get_put_eq.
  - done.
  - done.
  - done.
Qed.

End PlacementOfCopies.

Lemma tableCopy_in_place_null_lft_witness :
  exists data st',
    tableCopy sample_uuid sample_db "b" "p" LAST_CHILD COPIED = Fulfilled (data, st') /\
    get (tree st') (id data) = Some data /\
    source_id data = Some "b" /\
    parent data = Some "p" /\
    lft data = None.
Proof.
  apply (tableCopy_in_place_null_lft sample_uuid sample_db "b" "p" LAST_CHILD COPIED
           "p" [sibling "a" 1; sibling "b" 2]
           (mkNode "p" None (Some 1%Q) (Some "t") (Some "ch") None (Some 0))
           (sibling "b" 2)).
  - reflexivity.
  - reflexivity.
  - discriminate.
  - reflexivity.
  - reflexivity.
Defined.

(** X9.  What a move leaves alone: every other row of the tree table, the
    ContentNode table and the stream of identifiers.  It appends one MOVED
    record for the node, holding the row as it was before the move (or
    nothing when there was no such row), and the row it reports is stored
    under the id of the node. *)
Theorem tableMove_touches_one_row st i target position data st' :
  tableMove st i target position = Fulfilled (data, st') ->
  (forall k, k <> i -> get (tree st') k = get (tree st) k) /\
  (exists row, get (tree st') i = Some row
               /\ parent row = parent data /\ lft row = lft data) /\
  id data = i /\
  (exists target' position',
     changes st' = changes st ++
       [mkChange i None (MoveMods target' position') (get (tree st) i)
                 CLIENTID MOVED]) /\
  contentnode st' = contentnode st /\
  uuids st' = uuids st.
Proof.
  unfold tableMove. intros Hmove.
  destruct (getNewParentAndSiblings _ _ _) as [[p siblings]|]; [|done].
  simpl in Hmove.
  destruct (settle (place i target position p siblings))
    as [[[l target'] position']|]; [|done].
  simpl in Hmove. unfold update in Hmove.
  destruct (get (tree st) i) as [node|] eqn:Hget.
  - assert (id node = i) as Hid by (by eapply get_id).
    destruct (bool_decide (parent node = Some p) && lft_same (lft node) l).
    + destruct (get (tree st) p) as [pn|]; [|done]. simpl in Hmove.
      injection Hmove as <- <-. simpl. split_and!; try done.
      * intros k Hk. rewrite get_put. simpl.
        by destruct (String.eqb_spec i k).
      * eexists. rewrite get_put. simpl. rewrite String.eqb_refl. done.
      * eauto.
    + simpl in Hmove. injection Hmove as <- <-. simpl. split_and!; try done.
      * intros k Hk. rewrite get_put. simpl. rewrite Hid.
        by destruct (String.eqb_spec i k).
      * eexists. rewrite get_put. simpl. rewrite Hid, String.eqb_refl. done.
      * eauto.
  - destruct (get (tree st) p) as [pn|]; [|done]. simpl in Hmove.
    injection Hmove as <- <-. simpl. split_and!; try done.
    + intros k Hk. rewrite get_put. simpl.
      by destruct (String.eqb_spec i k).
    + eexists. rewrite get_put. simpl. rewrite String.eqb_refl. done.
    + eauto.
Qed.

Lemma tableMove_touches_one_row_witness :
  get (tree (mkDb (put (tree sample_db)
                       (mkNode "c" (Some "p") (Some (2 + 1)%Q) (Some "t") (Some "ch")
                               None (Some 2)))
                  [mkChange "c" None (MoveMods "p" LAST_CHILD)
                            (get (tree sample_db) "c") CLIENTID MOVED]
                  [] 0)) "a"
  = get (tree sample_db) "a".
Proof.
  apply (proj1 (tableMove_touches_one_row sample_db "c" "p" LAST_CHILD
                  (mkNode "c" (Some "p") (Some (2 + 1)%Q) None None None None) _
                  eq_refl)).
  discriminate.
Defined.

(** X10.  Asking for the last place for the node that already is the last
    child moves it to the front: the move writes [lft = null], and a row
    without a sort key sorts before its siblings. *)
Theorem tableMove_last_in_place_moves_first st i p siblings node :
  key_ordered (tree st) ->
  getNewParentAndSiblings (tree st) p LAST_CHILD = Fulfilled (p, siblings) ->
  StronglySorted lft_before siblings ->
  Forall (fun n => (0 < sort_key n)%Q) siblings ->
  (1 < length siblings)%nat ->
  id <$> last siblings = Some i ->
  get (tree st) i = Some node ->
  exists data st',
    tableMove st i p LAST_CHILD = Fulfilled (data, st') /\
    id <$> head (sortBy_lft (where_parent (tree st') p)) = Some i /\
    id <$> last (sortBy_lft (where_parent (tree st') p)) <> Some i.
Proof.
  intros Hord Hps Hsorted Hpos Hlen Hlast Hget.
  pose proof (siblings_are_children _ _ _ _ _ Hps) as Hchildren.
  assert (id node = i) as Hid by (by eapply get_id).
  assert (siblings <> []) as Hne by (intros ->; simpl in Hlen; lia).
  assert (getNewSortOrder i p LAST_CHILD siblings = Return None) as Hnull.
  { apply getNewSortOrder_null_iff; [done| |by split].
    intros [|]; done. }
  assert (node ∈ siblings) as Hin.
  { destruct (last siblings) as [sl|] eqn:Hsl; [|done].
    simpl in Hlast. injection Hlast as Hsl_id.
    assert (sl ∈ siblings) as Hslin.
    { apply last_Some in Hsl as [l' ->]. apply elem_of_app. right. left. }
    assert (get (tree st) (id sl) = Some sl) as Hgsl.
    { apply key_ordered_get; [done|]. rewrite Hchildren in Hslin.
      by apply elem_of_children in Hslin as [? _]. }
    rewrite Hsl_id, Hget in Hgsl. by injection Hgsl as ->. }
  assert (parent node = Some p) as Hpar.
  { rewrite Hchildren in Hin. by apply elem_of_children in Hin as [_ ?]. }
  destruct (lft node) as [q|] eqn:Hlft; cycle 1.
  { rewrite Forall_forall in Hpos. specialize (Hpos _ Hin).
    unfold sort_key in Hpos. rewrite Hlft in Hpos. simpl in Hpos. lra. }
  set (node' := mkNode i (Some p) None (tree_id node) (channel_id node)
                       (source_id node) (level node)).
  set (f := filter (fun n : TreeNode => id n <> i) : list TreeNode -> list TreeNode).
  assert (sortBy_lft (where_parent (put (tree st) node') p) = node' :: f siblings)
    as Hnew.
  { apply sortBy_lft_unique.
    - apply (strictly_sorted_insert [] node' (f siblings)).
      + constructor.
      + by apply strictly_sorted_filter.
      + by intros n ?%elem_of_nil.
      + intros n [_ Hn]%list_elem_of_filter.
        rewrite Forall_forall in Hpos. specialize (Hpos _ Hn).
        unfold lft_before. unfold sort_key at 1. simpl. exact Hpos.
    - rewrite where_parent_put_perm by done. simpl.
      rewrite decide_True by done. simpl.
      apply Permutation_skip. rewrite Hchildren.
      by rewrite sortBy_lft_perm. }
  eexists _, _. split_and!.
  - unfold tableMove. rewrite Hps. simpl.
    unfold place. destruct siblings as [|s rest]; [done|].
    rewrite Hnull. simpl.
    unfold update. rewrite Hget, Hlft. simpl.
    rewrite andb_false_r. simpl. rewrite Hid. reflexivity.
  - cbn [tree]. fold node'. rewrite Hnew. done.
  - cbn [tree]. fold node'. rewrite Hnew.
    destruct (f siblings) as [|s0 rest] eqn:Hf.
    + exfalso.
      assert (NoDup (map id siblings)) as Hnodup.
      { rewrite Hchildren. by apply children_NoDup. }
      destruct siblings as [|a [|b rest]]; simpl in Hlen; [lia..|].
      assert (forall n, n ∈ a :: b :: rest -> id n = i) as Hall.
      { intros n Hn. destruct (decide (id n = i)) as [|Hni]; [done|].
        assert (n ∈ f (a :: b :: rest)) as Hnf by (by apply list_elem_of_filter).
        rewrite Hf in Hnf. by apply elem_of_nil in Hnf. }
      simpl in Hnodup. apply NoDup_cons in Hnodup as [Hnotin _].
      apply Hnotin. rewrite (Hall a) by left.
      rewrite <- (Hall b) by (right; left). left.
    + rewrite last_cons_cons.
      destruct (last (s0 :: rest)) as [sl|] eqn:Hsl; [|done].
      simpl. intros [= Heq].
      assert (sl ∈ f siblings) as Hslin.
      { rewrite Hf. apply last_Some in Hsl as [l' ->]. apply elem_of_app. right. left. }
      by apply list_elem_of_filter in Hslin as [Hneq _].
Qed.

Lemma tableMove_last_in_place_moves_first_witness :
  exists data st',
    tableMove sample_db "b" "p" LAST_CHILD = Fulfilled (data, st') /\
    id <$> head (sortBy_lft (where_parent (tree st') "p")) = Some "b" /\
    id <$> last (sortBy_lft (where_parent (tree st') "p")) <> Some "b".
Proof.
  apply (tableMove_last_in_place_moves_first sample_db "b" "p"
           [sibling "a" 1; sibling "b" 2] (sibling "b" 2)).
  - repeat constructor.
  - reflexivity.
  - repeat constructor.
  - repeat constructor.
  - simpl. lia.
  - reflexivity.
  - reflexivity.
Defined.

Section ContentNodes.
Variable uuid : nat -> string.

Lemma tableCopy_contentnode st i target position changeType data st' :
  tableCopy uuid st i target position changeType = Fulfilled (data, st') ->
  contentnode st' = contentnode st.
Proof.
  unfold tableCopy. intros H.
  destruct (getNewParentAndSiblings _ _ _) as [[p siblings]|]; [|done].
  simpl in H.
  destruct (settle (place i target position p siblings))
    as [[[l target'] position']|]; [|done].
  simpl in H.
  destruct (get (tree st) p); [|done]. simpl in H.
  destruct (get (tree st) i); [|done]. simpl in H.
  by injection H as <- <-.
Qed.

Lemma all_preserves {A B C} (f : A -> task B) (g : db -> C) cs :
  (forall c st r st', c ∈ cs -> f c st = Some (Fulfilled (r, st')) -> g st' = g st) ->
  forall st rs st', all f cs st = Some (Fulfilled (rs, st')) -> g st' = g st.
Proof.
  induction cs as [|c cs IH]; intros Hf st rs st' Hall.
  - by injection Hall as <- <-.
  - rewrite all_cons in Hall.
    destruct (f c st) as [[[r st1]|e]|] eqn:Hc; [|done..].
    destruct (all f cs st1) as [[[rs' st2]|e]|] eqn:Hcs; [|done..].
    injection Hall as <- <-.
    rewrite (IH (fun c' st0 r0 st0' Hin => Hf c' st0 r0 st0' (list_elem_of_further _ _ _ Hin))
                _ _ _ Hcs).
    eapply Hf; [left|done].
Qed.

Lemma copy_shallow_unfold n i target position changeType st :
  copy uuid (S n) i target position false changeType st =
  match tableCopy uuid st i target position changeType with
  | Rejected e => Some (Rejected e)
  | Fulfilled (data, st1) =>
      Some (Fulfilled
              ([data],
               if bool_decide (changeType = COPIED) then st1
               else mkDb (tree st1) (changes st1)
                         (contentnode st1 ++ [id data]) (uuids st1)))
  end.
Proof.
  cbn [copy]. unfold tbind at 1.
  destruct (tableCopy uuid st i target position changeType) as [[data st1]|e];
    [|done].
  unfold tbind at 1. unfold tret at 1.
  by destruct (bool_decide (changeType = COPIED)).
Qed.

Lemma copy_keeps_contentnode n :
  forall i target position deep st res st',
    copy uuid n i target position deep COPIED st = Some (Fulfilled (res, st')) ->
    contentnode st' = contentnode st.
Proof.
  induction n as [|n IH]; intros i target position deep st res st' Hcopy; [done|].
  destruct deep.
  - rewrite copy_deep_unfold in Hcopy.
    destruct (tableCopy uuid st i target position COPIED) as [[data st1]|e] eqn:Ht;
      [|done].
    destruct (all _ _ st1) as [[[rss st2]|e]|] eqn:Hall; [|done..].
    injection Hcopy as <- <-. simpl.
    rewrite <- (tableCopy_contentnode _ _ _ _ _ _ _ Ht).
    eapply (all_preserves _ contentnode); [|exact Hall].
    intros c st0 r st0' _ Hc. simpl in Hc. exact (IH _ _ _ _ _ _ _ Hc).
  - rewrite copy_shallow_unfold in Hcopy.
    destruct (tableCopy uuid st i target position COPIED) as [[data st1]|e] eqn:Ht;
      [|done].
    injection Hcopy as <- <-. simpl.
    by eapply tableCopy_contentnode.
Qed.

(** X11.  Tree.copy puts a bare ContentNode row for every row it returns
    when the change type is overridden (as ContentNode.copy does with
    MOVED), and leaves the ContentNode table alone when it is COPIED; a
    copy that is not deep returns one row. *)
Theorem copy_registers_content_nodes n i target position deep changeType st res st' :
  copy uuid n i target position deep changeType st = Some (Fulfilled (res, st')) ->
  (changeType <> COPIED -> forall r, r ∈ res -> id r ∈ contentnode st') /\
  (changeType = COPIED -> contentnode st' = contentnode st) /\
  (deep = false -> length res = 1%nat).
Proof.
  intros Hcopy. split_and!.
  - intros Hne r Hr. destruct n as [|n]; [discriminate Hcopy|].
    destruct deep.
    + rewrite copy_deep_unfold in Hcopy.
      destruct (tableCopy uuid st i target position changeType) as [[data st1]|e];
        [|done].
      destruct (all _ _ st1) as [[[rss st2]|e]|]; [|done..].
      injection Hcopy as <- <-.
      rewrite bool_decide_eq_false_2 by done. cbn [contentnode].
      apply elem_of_app. right. exact (list_elem_of_fmap_2 id _ _ Hr).
    + rewrite copy_shallow_unfold in Hcopy.
      destruct (tableCopy uuid st i target position changeType) as [[data st1]|e];
        [|done].
      injection Hcopy as <- <-.
      rewrite bool_decide_eq_false_2 by done. simpl.
      apply list_elem_of_singleton in Hr as ->.
      apply elem_of_app. right. left.
  - intros ->. by eapply copy_keeps_contentnode.
  - intros ->. destruct n as [|n]; [discriminate Hcopy|].
    rewrite copy_shallow_unfold in Hcopy.
    destruct (tableCopy uuid st i target position changeType) as [[data st1]|e];
      [|done].
    by injection Hcopy as <- <-.
Qed.

End ContentNodes.

Lemma copy_registers_content_nodes_witness :
  exists res st',
    copy sample_uuid 3 "a" "q" LAST_CHILD true MOVED sample_db
      = Some (Fulfilled (res, st')) /\
    forall r, r ∈ res -> id r ∈ contentnode st'.
Proof.
  eexists _, _. split; [vm_compute; reflexivity|].
  apply (proj1 (copy_registers_content_nodes sample_uuid 3 "a" "q" LAST_CHILD true
                  MOVED sample_db _ _ eq_refl)).
  discriminate.
Defined.



(** X13.  [getNewParentAndSiblings] resolves the parent as [resolveParent]
    does and returns its children, all of them and no other row, in
    ascending order of [lft] (a row without [lft] counting as 0). *)
Theorem getNewParentAndSiblings_sorted t target position p siblings :
  getNewParentAndSiblings t target position = Fulfilled (p, siblings) ->
  resolveParent t target position = Fulfilled (Some p) /\
  (forall n, n ∈ siblings <-> n ∈ t /\ parent n = Some p) /\
  siblings ≡ₚ where_parent t p /\
  StronglySorted lft_le siblings.
Proof.
  unfold getNewParentAndSiblings. intros Hps.
  destruct (resolveParent t target position) as [[p'|]|]; try done.
  simpl in Hps. injection Hps as <- <-. split_and!.
  - done.
  - intros n. apply elem_of_children.
  - apply sortBy_lft_perm.
  - apply sortBy_lft_sorted.
Qed.

Lemma getNewParentAndSiblings_sorted_witness :
  StronglySorted lft_le [sibling "a" 1; sibling "b" 2].
Proof.
  apply (getNewParentAndSiblings_sorted (tree sample_db) "b" LEFT "p"
           [sibling "a" 1; sibling "b" 2]).
  reflexivity.
Defined.

Lemma findIndex_missing siblings target :
  target ∉ map id siblings -> findIndex siblings target = -1.
Proof.
  intros Hnot. rewrite findIndex_find.
  destruct (list_find _ siblings) as [[k t']|] eqn:Hfind; [|done].
  apply list_find_Some in Hfind as (Hk & Hid & _).
  destruct Hnot. rewrite <- Hid. apply list_elem_of_fmap_2.
  by eapply list_elem_of_lookup_2.
Qed.

(** X14.  What [getNewSortOrder] does with requests it cannot place.  With
    no siblings it raises a TypeError.  With a target that is not among
    the siblings, left-of raises a TypeError; right-of raises a TypeError
    too, unless there are two siblings or more and the node is the first
    of them, when it returns [null]. *)
Theorem getNewSortOrder_unplaceable i target :
  (forall position, getNewSortOrder i target position [] = Throw TypeError) /\
  (forall siblings,
     target ∉ map id siblings ->
     getNewSortOrder i target LEFT siblings = Throw TypeError /\
     getNewSortOrder i target RIGHT siblings =
       if (2 <=? length siblings)%nat && bool_decide (id <$> head siblings = Some i)
       then Return None else Throw TypeError).
Proof.
  split; [by intros []|].
  intros siblings Hnot.
  unfold getNewSortOrder, is_noop. rewrite (findIndex_missing _ _ Hnot).
  split; [reflexivity|]. simpl.
  destruct siblings as [|a [|b rest]]; [reflexivity|reflexivity|].
  assert ((-1 <? Z.of_nat (length (a :: b :: rest)) - 2) = true) as ->.
  { apply Z.ltb_lt. simpl length. lia. }
  simpl. unfold js_index. simpl.
  destruct (String.eqb_spec (id a) i) as [->|Hne]; simpl.
  - by rewrite bool_decide_eq_true_2.
  - rewrite bool_decide_eq_false_2; [done|]. by intros [= ?].
Qed.

Lemma getNewSortOrder_unplaceable_witness :
  getNewSortOrder "a" "zz" LEFT [sibling "a" 1; sibling "b" 2] = Throw TypeError /\
  getNewSortOrder "a" "zz" RIGHT [sibling "a" 1; sibling "b" 2] = Return None.
Proof.
  apply (proj2 (getNewSortOrder_unplaceable "a" "zz") [sibling "a" 1; sibling "b" 2]).
  vm_compute. intros Hin.
  repeat (apply elem_of_cons in Hin as [Hin|Hin]; [discriminate|]).
  by apply elem_of_nil in Hin.
Defined.

End TreeOrderFacts.

Module StoreFacts.
Import JS IndexedDBResource Store.

Section PrepareFacts.
Variable NEW_OBJECT : string.

(** X15.  [_preparePut] keeps the identifier an object already has, and
    gives a new one only to an object without identifier (when the
    resource uses uuids); [_prepareCopy] always replaces the identifier.
    Neither hands on the marker of a new object. *)
Theorem prepared_identifiers this fresh obj :
  NEW_OBJECT <> idField (resource_of this) ->
  exists prepared,
    _preparePut NEW_OBJECT (Some this) fresh obj = Return prepared /\
    prepared !! NEW_OBJECT = None /\
    _prepareCopy NEW_OBJECT this fresh obj !! NEW_OBJECT = None /\
    (forall v, obj !! idField (resource_of this) = Some v ->
               prepared !! idField (resource_of this) = Some v) /\
    (uuid this = true ->
       (obj !! idField (resource_of this) = None ->
        prepared !! idField (resource_of this) = Some (Prim (PStr fresh))) /\
       _prepareCopy NEW_OBJECT this fresh obj !! idField (resource_of this)
         = Some (Prim (PStr fresh))).
Proof.
  intros Hne. eexists. split; [reflexivity|].
  unfold _prepareCopy, _cleanNew, spread. split_and!.
  - apply lookup_delete_eq.
  - apply lookup_delete_eq.
  - intros v Hv. rewrite lookup_delete_ne by done.
    by apply lookup_union_Some_l.
  - intros Huuid. rewrite Huuid. split.
    + intros Hnone. rewrite lookup_delete_ne by done.
      rewrite lookup_union_r by done.
      rewrite lookup_delete_ne by done.
      rewrite lookup_union_l' by (rewrite lookup_singleton_eq; eauto).
      apply lookup_singleton_eq.
    + rewrite lookup_delete_ne by done.
      rewrite lookup_union_l' by (rewrite lookup_singleton_eq; eauto).
      apply lookup_singleton_eq.
Qed.

(** X16.  What [createObj] shows is what [put] stores: preparing the object
    that [createObj] returned gives the row that preparing the original
    object gave, whatever [uuid4()] returns the second time. *)
Theorem createObj_round_trip this fresh fresh' obj created :
  NEW_OBJECT <> idField (resource_of this) ->
  createObj NEW_OBJECT this fresh obj = Return created ->
  created !! NEW_OBJECT = Some (Prim (PBool true)) /\
  _preparePut NEW_OBJECT (Some this) fresh' created
  = _preparePut NEW_OBJECT (Some this) fresh obj.
Proof.
  intros Hne [= <-]. split; [apply lookup_insert_eq|].
  unfold _preparePut, _prepareCopy, _cleanNew, spread. simpl. f_equal.
  apply map_eq. intros k.
  destruct (decide (k = NEW_OBJECT)) as [->|Hk].
  { by rewrite !lookup_delete_eq. }
  rewrite !(lookup_delete_ne _ NEW_OBJECT k) by done.
  rewrite lookup_union, lookup_insert_ne by done.
  rewrite !(lookup_delete_ne _ NEW_OBJECT k) by done.
  rewrite !lookup_union.
  rewrite lookup_delete_ne, !lookup_union, !lookup_empty by done.
  destruct (uuid this).
  - destruct (decide (idField (resource_of this) = k)) as [<-|Hid].
    + rewrite !lookup_singleton_eq. by destruct (obj !! _).
    + rewrite !lookup_singleton_ne by done. by destruct (obj !! _).
  - rewrite !lookup_empty. by destruct (obj !! _).
Qed.

(** X17.  [bulkPut] hands [_preparePut] to [map] without its receiver: for
    every list that is not empty it raises a TypeError before anything is
    stored, where [put] of one object stores the prepared object. *)
Theorem bulkPut_raises this fresh t :
  (forall obj objs, bulkPut NEW_OBJECT this fresh t (obj :: objs) = Throw TypeError) /\
  bulkPut NEW_OBJECT this fresh t [] = Return (Fulfilled t) /\
  (forall obj v,
     NEW_OBJECT <> idField (resource_of this) ->
     obj !! idField (resource_of this) = Some v -> valid_key v = true ->
     put NEW_OBJECT this (fresh 0%nat) t obj
     = Return (Fulfilled
                 (<[v := _cleanNew NEW_OBJECT
                           (spread (_prepareCopy NEW_OBJECT this (fresh 0%nat) ∅) obj)]> t))).
Proof.
  split_and!; [done..|].
  intros obj v Hne Hv Hvalid. unfold put. simpl. f_equal.
  unfold Table.put, Table.key_of.
  destruct (prepared_identifiers this (fresh 0%nat) obj Hne)
    as (prepared & [= <-] & _ & _ & Hkeep & _).
  by rewrite (Hkeep _ Hv), Hvalid.
Qed.

End PrepareFacts.

Lemma prepared_identifiers_witness :
  exists prepared,
    _preparePut "__new" (Some (mkStore Channel true)) "u1" (item 7 1)
      = Return prepared /\
    prepared !! "id" = Some (Prim (PNum 7)) /\
    _prepareCopy "__new" (mkStore Channel true) "u1" (item 7 1) !! "id"
      = Some (Prim (PStr "u1")).
Proof.
  destruct (prepared_identifiers "__new" (mkStore Channel true) "u1" (item 7 1))
    as (prepared & Hput & _ & _ & Hkeep & Hnew); [discriminate|].
  exists prepared. split_and!; [done| |].
  - apply Hkeep. reflexivity.
  - apply Hnew. reflexivity.
Defined.

Lemma createObj_round_trip_witness :
  _preparePut "__new" (Some (mkStore Channel true)) "u2"
    (<["__new" := Prim (PBool true)]>
       (base.delete "__new"
          (spread (_prepareCopy "__new" (mkStore Channel true) "u1" ∅)
                  {[ "name" := Prim (PStr "a") ]})))
  = _preparePut "__new" (Some (mkStore Channel true)) "u1"
      {[ "name" := Prim (PStr "a") ]}.
Proof.
  apply (createObj_round_trip "__new" (mkStore Channel true) "u1" "u2"
           {[ "name" := Prim (PStr "a") ]}).
  - discriminate.
  - reflexivity.
Defined.

Lemma bulkPut_raises_witness :
  bulkPut "__new" (mkStore Channel true) (fun _ => "u1") ∅ [item 7 1]
    = Throw TypeError /\
  put "__new" (mkStore Channel true) "u1" ∅ (item 7 1)
    = Return (Fulfilled
                (<[Prim (PNum 7) :=
                     _cleanNew "__new"
                       (spread (_prepareCopy "__new" (mkStore Channel true) "u1" ∅)
                               (item 7 1))]> ∅)).
Proof.
  destruct (bulkPut_raises "__new" (mkStore Channel true) (fun _ => "u1") ∅)
    as (Hraise & _ & Hput).
  split; [apply Hraise|].
  apply Hput; [discriminate|vm_compute; reflexivity|reflexivity].
Defined.

End StoreFacts.

(** ** Fresh rows, fetched models and copies *)

Module ModelsFacts.
Import JS IndexedDBResource Table Store Resource ResourceFacts Models.

(** X18.  [Resource.where] answers from the local rows without any request
    when every row is fresh or was never fetched: a row without a
    last-fetched stamp does not count as stale, and a row fetched exactly
    [REFRESH_INTERVAL] seconds ago is still fresh. *)
Theorem where_serves_fresh_rows {R} (now : Z) (objs : list object)
    (remote : option (outcome R)) :
  objs <> [] ->
  Forall (fun obj =>
            obj !! LAST_FETCHED = None \/
            exists fetched, obj !! LAST_FETCHED = Some (Prim (PNum fetched))
                            /\ now - fetched <= REFRESH_INTERVAL * 1000) objs ->
  Resource.where_ now (Return (Fulfilled objs)) remote
  = Return (mkRead false (Some (Fulfilled (inl objs)))).
Proof.
  intros Hne Hfresh. unfold Resource.where_. simpl.
  destruct objs as [|o objs']; [done|]. simpl length. cbn [Nat.eqb].
  replace (objectsAreStale now (o :: objs')) with false; [done|].
  symmetry. apply not_true_iff_false. intros Hstale.
  apply objectsAreStale_spec in Hstale as (obj & fetched & Hin & Hnum & Hold).
  rewrite Forall_forall in Hfresh.
  destruct (Hfresh _ Hin) as [Hnone|(fetched' & Hsome & Hrecent)].
  - by rewrite Hnone in Hnum.
  - rewrite Hsome in Hnum. injection Hnum as <-. lia.
Qed.

Lemma where_serves_fresh_rows_witness :
  Resource.where_ 60000
    (Return (Fulfilled [Changes.local_object;
                        <[LAST_FETCHED := Prim (PNum 0)]> Changes.fetched_object]))
    (Some (Rejected NetworkError : outcome unit))
  = Return (mkRead false
      (Some (Fulfilled (inl [Changes.local_object;
                             <[LAST_FETCHED := Prim (PNum 0)]> Changes.fetched_object])))).
Proof.
  apply where_serves_fresh_rows.
  - discriminate.
  - constructor; [left; reflexivity|].
    constructor; [|constructor].
    right. exists 0. split; [reflexivity|]. vm_compute. discriminate.
Defined.

(** X19.  A model that was fetched is stored under its own key with the
    time of the fetch, other rows stay as they were, and a [get] of that
    key afterwards answers from the store without a request; for
    [REFRESH_INTERVAL] seconds the row does not count as stale. *)
Theorem fetchModel_then_get this now t data data' t' remote :
  fetchModel this now t (Fulfilled data) = Fulfilled (data', t') ->
  exists k,
    data' !! idField (resource_of this) = Some k /\
    data' = <[LAST_FETCHED := Prim (PNum now)]> data /\
    t' !! k = Some data' /\
    (forall k', k' <> k -> t' !! k' = t !! k') /\
    get t' k remote = mkFetched false (Some (Fulfilled (Some data'))) /\
    (forall now', now' - now <= REFRESH_INTERVAL * 1000 ->
                  objectsAreStale now' [data'] = false).
Proof.
  unfold fetchModel. simpl. intros Hfetch.
  destruct (Table.put _ t _) as [t1|] eqn:Hput; [|done].
  injection Hfetch as <- <-.
  unfold Table.put, key_of in Hput.
  destruct (<[LAST_FETCHED:=Prim (PNum now)]> data !! idField (resource_of this))
    as [k|] eqn:Hk; [|done].
  destruct (valid_key k) eqn:Hvalid; [|done].
  injection Hput as <-.
  exists k. split_and!; [done|done| | | |].
  - apply lookup_insert_eq.
  - intros k' Hne. by apply lookup_insert_ne.
  - unfold get, Table.get. by rewrite Hvalid, lookup_insert_eq.
  - intros now' Hrecent. unfold objectsAreStale. simpl.
    rewrite lookup_insert_eq. simpl. rewrite orb_false_r.
    apply Z.ltb_ge. lia.
Qed.

Lemma fetchModel_then_get_witness :
  get {[ Prim (PNum 1) := <[LAST_FETCHED := Prim (PNum 500)]> (item 1 1) ]}
      (Prim (PNum 1)) (Some (Rejected NetworkError))
  = mkFetched false
      (Some (Fulfilled (Some (<[LAST_FETCHED := Prim (PNum 500)]> (item 1 1))))).
Proof.
  destruct (fetchModel_then_get (mkStore Channel true) 500 ∅ (item 1 1)
              (<[LAST_FETCHED := Prim (PNum 500)]> (item 1 1))
              {[ Prim (PNum 1) := <[LAST_FETCHED := Prim (PNum 500)]> (item 1 1) ]}
              (Some (Rejected NetworkError)))
    as (k & Hk & _ & _ & _ & Hget & _).
  - reflexivity.
  - injection Hk as <-. exact Hget.
Defined.

Section CopyFacts.
Variable NEW_OBJECT : string.

(** X20.  [Resource.copy] on a resource with uuids and the primary key
    [id], with an updater whose modifications do not set [id] and a new
    identifier that is not in use: the copy is stored under the new
    identifier, the original stays as it was, the copy carries the
    modifications of the updater and every other property of the original,
    and the log gains one COPIED record from the original's key to the new
    one.  When there is no object to copy the promise is rejected and
    nothing is written. *)
Theorem copy_stores_modified_copy this fresh t log id updater obj :
  uuid this = true ->
  idField (resource_of this) = "id" ->
  NEW_OBJECT <> "id" ->
  t !! id = Some obj ->
  t !! Prim (PStr fresh) = None ->
  updater obj !! "id" = None ->
  exists row,
    copy NEW_OBJECT this fresh t log id updater (Fulfilled (Some obj))
    = inr (Some (Prim (PStr fresh)), <[Prim (PStr fresh) := row]> t,
           log ++ [mkCopyChange (Some (Prim (PStr fresh))) id (updater obj)
                                (tableName (resource_of this)) COPIED]) /\
    <[Prim (PStr fresh) := row]> t !! id = Some obj /\
    row !! "id" = Some (Prim (PStr fresh)) /\
    row !! NEW_OBJECT = updater obj !! NEW_OBJECT /\
    (forall k v, updater obj !! k = Some v -> row !! k = Some v) /\
    (forall k, k <> "id" -> k <> NEW_OBJECT -> updater obj !! k = None ->
               row !! k = obj !! k) /\
    copy NEW_OBJECT this fresh t log id updater (Fulfilled None)
    = inl ObjectNotFound.
Proof.
  intros Huuid Hid Hnew Hobj Hfresh Hmods.
  set (row := spread (_prepareCopy NEW_OBJECT this fresh obj) (updater obj)).
  assert (_prepareCopy NEW_OBJECT this fresh obj !! "id" = Some (Prim (PStr fresh)))
    as Hcopyid.
  { unfold _prepareCopy, _cleanNew, spread. rewrite Huuid, Hid.
    rewrite lookup_delete_ne by done.
    rewrite lookup_union_l' by (rewrite lookup_singleton_eq; eauto).
    apply lookup_singleton_eq. }
  assert (row !! "id" = Some (Prim (PStr fresh))) as Hrowid.
  { unfold row, spread. by rewrite lookup_union_r. }
  exists row. split_and!.
  - unfold copy. fold row. rewrite Hcopyid.
    unfold Table.put, key_of. rewrite Hid, Hrowid. simpl. reflexivity.
  - rewrite lookup_insert_ne; [done|]. intros <-. congruence.
  - done.
  - unfold row, spread, _prepareCopy, _cleanNew.
    rewrite lookup_union. rewrite lookup_delete_eq.
    by destruct (updater obj !! NEW_OBJECT).
  - intros k v Hk. unfold row, spread. by apply lookup_union_Some_l.
  - intros k Hkid Hknew Hk. unfold row, spread, _prepareCopy, _cleanNew.
    rewrite lookup_union_r by done.
    rewrite lookup_delete_ne by done.
    rewrite Huuid, Hid. unfold spread.
    rewrite lookup_union_r by (by apply lookup_singleton_ne).
    done.
  - reflexivity.
Qed.

(** X21.  On a resource without uuids, with an updater whose
    modifications do not set the primary key, [Resource.copy] gives the
    copy the key of the original: the row that is put replaces the
    original, and the table holds the keys it held before. *)
Theorem copy_without_uuid_replaces this fresh t log id updater obj :
  uuid this = false ->
  keyed (Single (idField (resource_of this))) t ->
  t !! id = Some obj ->
  updater obj !! idField (resource_of this) = None ->
  NEW_OBJECT <> idField (resource_of this) ->
  exists row log',
    copy NEW_OBJECT this fresh t log id updater (Fulfilled (Some obj))
    = inr (Some id, <[id := row]> t, log') /\
    row = spread (base.delete NEW_OBJECT obj) (updater obj) /\
    forall k, is_Some (<[id := row]> t !! k) <-> is_Some (t !! k).
Proof.
  intros Huuid Hkeyed Hobj Hmods Hnew.
  pose proof (Hkeyed _ _ Hobj) as Hkey. unfold key_of in Hkey.
  destruct (obj !! idField (resource_of this)) as [v|] eqn:Hv; [|done].
  destruct (valid_key v) eqn:Hvalid; [|done]. injection Hkey as ->.
  assert (_prepareCopy NEW_OBJECT this fresh obj = base.delete NEW_OBJECT obj) as Hcopy.
  { unfold _prepareCopy, _cleanNew, spread. rewrite Huuid.
    by rewrite (left_id_L ∅ (∪)). }
  eexists _, _. split_and!.
  - unfold copy. rewrite Hcopy. unfold Table.put, key_of.
    assert (spread (base.delete NEW_OBJECT obj) (updater obj)
              !! idField (resource_of this) = Some id) as ->.
    { unfold spread. rewrite lookup_union_r by done.
      by rewrite lookup_delete_ne. }
    rewrite Hvalid. reflexivity.
  - done.
  - intros k. destruct (decide (id = k)) as [<-|Hne].
    + rewrite lookup_insert_eq, Hobj. split; eauto.
    + by rewrite lookup_insert_ne.
Qed.

(** X29.  [Resource.copy] on a resource with uuids and the primary key
    [id], with an updater whose modifications set [id]: the copy is stored
    under the id of the updater, replacing whatever row was stored there,
    and not under the new identifier; the COPIED record still names the
    new identifier, under which no row is stored. *)
Theorem copy_updater_sets_id this fresh t log id updater obj k :
  uuid this = true ->
  idField (resource_of this) = "id" ->
  NEW_OBJECT <> "id" ->
  t !! id = Some obj ->
  updater obj !! "id" = Some k ->
  valid_key k = true ->
  exists row,
    copy NEW_OBJECT this fresh t log id updater (Fulfilled (Some obj))
    = inr (Some k, <[k := row]> t,
           log ++ [mkCopyChange (Some (Prim (PStr fresh))) id (updater obj)
                                (tableName (resource_of this)) COPIED]) /\
    row !! "id" = Some k /\
    (forall j v, updater obj !! j = Some v -> row !! j = Some v) /\
    (k = id -> <[k := row]> t !! id = Some row) /\
    (k <> Prim (PStr fresh) -> t !! Prim (PStr fresh) = None ->
     <[k := row]> t !! Prim (PStr fresh) = None).
Proof.
  intros Huuid Hid Hnew Hobj Hmods Hvalid.
  set (row := spread (_prepareCopy NEW_OBJECT this fresh obj) (updater obj)).
  assert (_prepareCopy NEW_OBJECT this fresh obj !! "id" = Some (Prim (PStr fresh)))
    as Hcopyid.
  { unfold _prepareCopy, _cleanNew, spread. rewrite Huuid, Hid.
    rewrite lookup_delete_ne by done.
    rewrite lookup_union_l' by (rewrite lookup_singleton_eq; eauto).
    apply lookup_singleton_eq. }
  assert (row !! "id" = Some k) as Hrowid.
  { unfold row, spread. by apply lookup_union_Some_l. }
  exists row. split_and!.
  - unfold copy. fold row. rewrite Hcopyid.
    unfold Table.put, key_of. rewrite Hid, Hrowid, Hvalid. reflexivity.
  - done.
  - intros j v Hj. unfold row, spread. by apply lookup_union_Some_l.
  - intros ->. apply lookup_insert_eq.
  - intros Hne Hfree. by rewrite lookup_insert_ne.
Qed.

End CopyFacts.

Lemma copy_updater_sets_id_witness :
  exists row,
    copy "__new" (mkStore Channel true) "u1"
         {[ Prim (PNum 1) := item 1 1 ]} [] (Prim (PNum 1))
         (fun _ => {[ "id" := Prim (PNum 1) ]}) (Fulfilled (Some (item 1 1)))
    = inr (Some (Prim (PNum 1)),
           <[Prim (PNum 1) := row]> {[ Prim (PNum 1) := item 1 1 ]},
           [mkCopyChange (Some (Prim (PStr "u1"))) (Prim (PNum 1))
                         {[ "id" := Prim (PNum 1) ]} "channel" COPIED]) /\
    (<[Prim (PNum 1) := row]> ({[ Prim (PNum 1) := item 1 1 ]} : table))
      !! Prim (PStr "u1") = None.
Proof.
  destruct (copy_updater_sets_id "__new" (mkStore Channel true) "u1"
              {[ Prim (PNum 1) := item 1 1 ]} [] (Prim (PNum 1))
              (fun _ => {[ "id" := Prim (PNum 1) ]}) (item 1 1) (Prim (PNum 1)))
    as (row & Hcopy & _ & _ & _ & Hfree); try reflexivity.
  - discriminate.
  - exists row. split; [exact Hcopy|]. apply Hfree; [discriminate|reflexivity].
Defined.

Lemma copy_stores_modified_copy_witness :
  exists row,
    copy "__new" (mkStore Channel true) "u1"
         {[ Prim (PNum 1) := item 1 1 ]} [] (Prim (PNum 1))
         (fun _ => {[ "x" := Prim (PNum 5) ]}) (Fulfilled (Some (item 1 1)))
    = inr (Some (Prim (PStr "u1")),
           <[Prim (PStr "u1") := row]> {[ Prim (PNum 1) := item 1 1 ]},
           [mkCopyChange (Some (Prim (PStr "u1"))) (Prim (PNum 1))
                         {[ "x" := Prim (PNum 5) ]} "channel" COPIED]) /\
    row !! "x" = Some (Prim (PNum 5)).
Proof.
  destruct (copy_stores_modified_copy "__new" (mkStore Channel true) "u1"
              {[ Prim (PNum 1) := item 1 1 ]} [] (Prim (PNum 1))
              (fun _ => {[ "x" := Prim (PNum 5) ]}) (item 1 1))
    as (row & Hcopy & _ & _ & _ & Hmods & _); try reflexivity.
  - discriminate.
  - exists row. split; [exact Hcopy|]. apply Hmods. reflexivity.
Defined.

Lemma copy_without_uuid_replaces_witness :
  exists row log',
    copy "__new" (mkStore Channel false) "u1"
         {[ Prim (PNum 1) := item 1 1 ]} [] (Prim (PNum 1))
         (fun _ => {[ "x" := Prim (PNum 5) ]}) (Fulfilled (Some (item 1 1)))
    = inr (Some (Prim (PNum 1)), <[Prim (PNum 1) := row]> {[ Prim (PNum 1) := item 1 1 ]},
           log') /\
    row = spread (base.delete "__new" (item 1 1)) {[ "x" := Prim (PNum 5) ]}.
Proof.
  destruct (copy_without_uuid_replaces "__new" (mkStore Channel false) "u1"
              {[ Prim (PNum 1) := item 1 1 ]} [] (Prim (PNum 1))
              (fun _ => {[ "x" := Prim (PNum 5) ]}) (item 1 1))
    as (row & log' & Hcopy & Hrow & _); try reflexivity.
  - intros key row [<- <-]%lookup_singleton_Some. reflexivity.
  - discriminate.
  - exists row, log'. by split.
Defined.

End ModelsFacts.

(** ** Channel.update *)

Module ChannelDefaultsFacts.
Import JS ChannelDefaults.

Lemma assign_assoc (a b c : object) : assign (assign a b) c = assign a (assign b c).
Proof. unfold assign. by rewrite (assoc_L (∪)). Qed.

Lemma size_assign_zero (a b : object) :
  (size (assign a b) =? 0)%nat = (size a =? 0)%nat && (size b =? 0)%nat.
Proof.
  unfold assign.
  destruct (Nat.eqb_spec (size a) 0) as [Ha|Ha];
    destruct (Nat.eqb_spec (size b) 0) as [Hb|Hb]; simpl.
  - apply map_size_empty_inv in Ha, Hb. subst.
    by rewrite (left_id_L ∅ (∪)), map_size_empty.
  - apply map_size_empty_inv in Ha. subst. rewrite (right_id_L ∅ (∪)).
    by apply Nat.eqb_neq.
  - apply map_size_empty_inv in Hb. subst. rewrite (left_id_L ∅ (∪)).
    by apply Nat.eqb_neq.
  - apply Nat.eqb_neq. intros Hz. apply map_size_empty_inv in Hz.
    apply map_positive_l in Hz. subst. by rewrite map_size_empty in Hb.
Qed.

(** X22.  [Channel.update] merges the content defaults it is given into
    those of the channel: a default that the update does not name is kept,
    an update without defaults (or with an empty object) leaves them
    alone, and two updates in a row leave the channel as one update with
    the later values laid over the earlier ones would. *)
Theorem update_row_merges d1 c1 d2 c2 ch :
  (forall ch1,
     update_row (Given d1) c1 ch = Return ch1 ->
     update_row (Given d2) c2 ch1
     = update_row (Given (assign d1 d2)) (assign c1 c2) ch) /\
  (forall old k v,
     content_defaults ch = Some old -> old !! k = Some v -> d1 !! k = None ->
     exists ch1 new,
       update_row (Given d1) c1 ch = Return ch1 /\
       content_defaults ch1 = Some new /\ new !! k = Some v) /\
  update_row Absent c1 ch = Return (mkChannel (assign (fields ch) c1) (content_defaults ch)) /\
  update_row (Given ∅) c1 ch = update_row Absent c1 ch /\
  update_row Null c1 ch = Throw TypeError.
Proof.
  split_and!; [|..|done|done|done].
  - intros ch1 [= <-]. unfold update_row. simpl. f_equal.
    rewrite assign_assoc. f_equal.
    rewrite size_assign_zero.
    destruct (size d1 =? 0)%nat eqn:H1; destruct (size d2 =? 0)%nat eqn:H2; simpl.
    + done.
    + apply Nat.eqb_eq, map_size_empty_inv in H1. subst. f_equal.
      unfold assign. by rewrite (right_id_L ∅ (∪)).
    + apply Nat.eqb_eq, map_size_empty_inv in H2. subst. f_equal.
      unfold assign. by rewrite (left_id_L ∅ (∪)).
    + f_equal. by rewrite assign_assoc.
  - intros old k v Hold Hk Hd. unfold update_row. simpl. rewrite Hold. simpl.
    destruct (size d1 =? 0)%nat; simpl.
    + eexists _, _. split_and!; [reflexivity|reflexivity|done].
    + eexists _, _. split_and!; [reflexivity|done|].
      unfold assign. by rewrite lookup_union_r.
Qed.

Lemma update_row_merges_witness :
  exists ch1 new,
    update_row (Given {[ "license" := Prim (PStr "CC") ]}) ∅
               (mkChannel ∅ (Some {[ "author" := Prim (PStr "me") ]}))
      = Return ch1 /\
    content_defaults ch1 = Some new /\ new !! "author" = Some (Prim (PStr "me")).
Proof.
  apply (proj1 (proj2 (update_row_merges {[ "license" := Prim (PStr "CC") ]} ∅ ∅ ∅
                         (mkChannel ∅ (Some {[ "author" := Prim (PStr "me") ]}))))
           {[ "author" := Prim (PStr "me") ]} "author" (Prim (PStr "me")));
    reflexivity.
Defined.

End ChannelDefaultsFacts.

(** ** The users of a channel *)

Module ChannelUserFacts.
Import JS IndexedDBResource Table Resource ResourceFacts ChannelUser.

Lemma fetch_batches_snoc now channel itemData datum :
  fetch_batches now channel (itemData ++ [datum])
  = fetch_step now channel (fetch_batches now channel itemData) datum.
Proof. unfold fetch_batches. by rewrite foldl_app. Qed.

(** X23.  How [ChannelUser.fetchCollection] sorts what it fetched: every
    item becomes a user row, stamped and without its permissions; an item
    that may edit becomes an editor relation, also when it may view; an
    item that may only view becomes a viewer relation; an item with
    neither permission is related to the channel in neither table. *)
Theorem fetch_batches_classify now channel itemData :
  let b := fetch_batches now channel itemData in
  userData b = map (userDatum now) itemData /\
  editorM2M b
    = map (m2mDatum now channel)
          (List.filter (fun d => truthy_value (d !! "can_edit")) itemData) /\
  viewerM2M b
    = map (m2mDatum now channel)
          (List.filter (fun d => negb (truthy_value (d !! "can_edit"))
                                 && truthy_value (d !! "can_view")) itemData) /\
  (forall u, u ∈ userData b ->
     u !! "can_edit" = None /\ u !! "can_view" = None /\
     u !! LAST_FETCHED = Some (Prim (PNum now))).
Proof.
  simpl. assert (userData (fetch_batches now channel itemData)
                 = map (userDatum now) itemData /\
                 editorM2M (fetch_batches now channel itemData)
                 = map (m2mDatum now channel)
                       (List.filter (fun d => truthy_value (d !! "can_edit")) itemData) /\
                 viewerM2M (fetch_batches now channel itemData)
                 = map (m2mDatum now channel)
                       (List.filter (fun d => negb (truthy_value (d !! "can_edit"))
                                              && truthy_value (d !! "can_view")) itemData))
    as (Hu & He & Hv).
  { induction itemData as [|datum itemData IH] using rev_ind; [done|].
    destruct IH as (Hu & He & Hv).
    rewrite fetch_batches_snoc. unfold fetch_step.
    rewrite !List.filter_app, !map_app. simpl.
    destruct (truthy_value (datum !! "can_edit")); simpl.
    - rewrite Hu, He, Hv. by rewrite !app_nil_r.
    - destruct (truthy_value (datum !! "can_view")); simpl.
      + rewrite Hu, He, Hv. by rewrite !app_nil_r.
      + rewrite Hu, He, Hv. by rewrite !app_nil_r. }
  split_and!; [done..|].
  intros u Hin. rewrite Hu in Hin.
  apply list_elem_of_fmap in Hin as (datum & -> & _). unfold userDatum.
  split_and!.
  - rewrite lookup_delete_ne by done. apply lookup_delete_eq.
  - apply lookup_delete_eq.
  - rewrite !lookup_delete_ne by done. apply lookup_insert_eq.
Qed.

Lemma bulkPut_snoc path (t : table) batch row :
  bulkPut path t (batch ++ [row])
  = await t' := bulkPut path t batch in put path t' row.
Proof. unfold bulkPut. by rewrite foldl_app. Qed.

(** A [bulkPut] adds rows and replaces rows; it removes none. *)
Lemma bulkPut_keeps_keys path (t t' : table) batch :
  bulkPut path t batch = Fulfilled t' ->
  forall key, is_Some (t !! key) -> is_Some (t' !! key).
Proof.
  revert t'. induction batch as [|row batch IH] using rev_ind; intros t' Hput key Hkey.
  - by injection Hput as <-.
  - rewrite bulkPut_snoc in Hput.
    destruct (bulkPut path t batch) as [t1|] eqn:Ht1; [|done]. simpl in Hput.
    unfold put in Hput. destruct (key_of path row) as [k|]; [|done].
    injection Hput as <-.
    destruct (decide (k = key)) as [->|Hne].
    + rewrite lookup_insert_eq. eauto.
    + rewrite lookup_insert_ne by done. by eapply IH.
Qed.

(** X24.  A fetch of the users of a channel only adds to the stores: every
    relation and every user that was stored before is still stored
    afterwards, also when the response no longer lists it; the change log
    is left alone and the promise is fulfilled with the items of the
    response. *)
Theorem fetchCollection_removes_nothing st now channel itemData data st' :
  fetchCollection st now channel (Fulfilled itemData) = Fulfilled (data, st') ->
  data = itemData /\
  log st' = log st /\
  (forall key, is_Some (editors st !! key) -> is_Some (editors st' !! key)) /\
  (forall key, is_Some (viewers st !! key) -> is_Some (viewers st' !! key)) /\
  (forall key, is_Some (users st !! key) -> is_Some (users st' !! key)).
Proof.
  unfold fetchCollection. simpl. intros Hfetch.
  destruct (bulkPut m2m (editors st) _) as [editors'|] eqn:He; [|done].
  destruct (bulkPut m2m (viewers st) _) as [viewers'|] eqn:Hv; [|done].
  destruct (bulkPut (Single "id") (users st) _) as [users'|] eqn:Hu; [|done].
  simpl in Hfetch. injection Hfetch as <- <-. simpl.
  split_and!; [done|done|..].
  - by eapply bulkPut_keeps_keys.
  - by eapply bulkPut_keeps_keys.
  - by eapply bulkPut_keeps_keys.
Qed.

Lemma fetchCollection_removes_nothing_witness :
  exists data st',
    fetchCollection
      (mkDb ∅ ∅ {[ Arr [PNum 1; PNum 7] := pair_row (Prim (PNum 1)) (Prim (PNum 7)) ]} [])
      9 (Some (Prim (PNum 7)))
      (Fulfilled [{[ "id" := Prim (PNum 1); "can_edit" := Prim (PBool true) ]}])
    = Fulfilled (data, st') /\
    is_Some (viewers st' !! Arr [PNum 1; PNum 7]).
Proof.
  destruct (fetchCollection _ 9 _ _) as [[data st']|] eqn:Hfetch;
    [|vm_compute in Hfetch; discriminate].
  exists data, st'. split; [reflexivity|].
  apply (fetchCollection_removes_nothing _ _ _ _ _ _ Hfetch).
  vm_compute. eauto.
Defined.

(** X25.  [makeEditor] leaves the pair of user and channel as an editor
    relation and not as a viewer relation, touches no other relation and
    no user, and logs the removal of a viewer relation (also when there
    was none) followed by the creation of the editor relation. *)
Theorem makeEditor_relations st (c u : prim) :
  valid_prim_key c = true -> valid_prim_key u = true ->
  exists st',
    makeEditor st (Prim c) (Prim u) = Fulfilled st' /\
    editors st' !! Arr [u; c] = Some (pair_row (Prim u) (Prim c)) /\
    viewers st' !! Arr [u; c] = None /\
    (forall key, key <> Arr [u; c] ->
       editors st' !! key = editors st !! key /\
       viewers st' !! key = viewers st !! key) /\
    users st' = users st /\
    log st' = log st ++
      [mkRelationChange (pair_row (Prim u) (Prim c)) CLIENTID VIEWER_M2M
                        DELETED_RELATION;
       mkRelationChange (pair_row (Prim u) (Prim c)) CLIENTID EDITOR_M2M
                        CREATED_RELATION].
Proof.
  intros Hc Hu.
  assert (key_of m2m (pair_row (Prim u) (Prim c)) = Some (Arr [u; c])) as Hkey.
  { unfold key_of, m2m, pair_row, prim_field. simpl.
    rewrite lookup_insert_eq. simpl.
    rewrite lookup_insert_ne by done. rewrite lookup_singleton_eq. simpl.
    by rewrite Hu, Hc. }
  eexists. split_and!.
  - unfold makeEditor, ViewerM2M_delete, delete. cbn [pair_key valid_key forallb].
    rewrite Hu, Hc. cbn [andb obind].
    unfold EditorM2M_put, put. cbn [editors]. rewrite Hkey. reflexivity.
  - simpl. apply lookup_insert_eq.
  - simpl. apply lookup_delete_eq.
  - intros key Hne. simpl. split.
    + by apply lookup_insert_ne.
    + by apply lookup_delete_ne.
  - done.
  - simpl. by rewrite <- app_assoc.
Qed.

Lemma makeEditor_relations_witness :
  exists st',
    makeEditor (mkDb ∅ ∅ ∅ []) (Prim (PNum 7)) (Prim (PNum 1)) = Fulfilled st' /\
    viewers st' !! Arr [PNum 1; PNum 7] = None /\
    length (log st') = 2%nat.
Proof.
  destruct (makeEditor_relations (mkDb ∅ ∅ ∅ []) (PNum 7) (PNum 1))
    as (st' & Hmake & _ & Hviewer & _ & _ & Hlog); [reflexivity..|].
  exists st'. split_and!; [done|done|]. by rewrite Hlog.
Defined.

Lemma elem_of_where_channel (relations : list object) (c : value) found row :
  where_equal relations {[ "channel" := c ]} = Fulfilled found ->
  row ∈ found <-> row ∈ relations /\ row !! "channel" = Some c.
Proof.
  unfold where_equal. case_match; [|done]. intros [= <-].
  rewrite !list_elem_of_In, List.filter_In, bool_decide_eq_true.
  rewrite map_Forall_singleton. done.
Qed.

Lemma elem_of_users_of relations set p :
  users_of relations = Some set ->
  p ∈ set <-> exists relation, relation ∈ relations
                               /\ relation !! "user" = Some (Prim p).
Proof.
  unfold users_of. intros Hset%mapM_Some. split.
  - intros (k & Hk)%list_elem_of_lookup.
    destruct (Forall2_lookup_r _ _ _ _ _ Hset Hk) as (relation & Hrel & Hfield).
    exists relation. split; [by eapply list_elem_of_lookup_2|].
    unfold prim_field in Hfield.
    destruct (relation !! "user") as [[q|]|]; try done. by injection Hfield as ->.
  - intros (relation & (k & Hk)%list_elem_of_lookup & Huser).
    destruct (Forall2_lookup_l _ _ _ _ _ Hset Hk) as (q & Hq & Hfield).
    unfold prim_field in Hfield. rewrite Huser in Hfield. injection Hfield as <-.
    by eapply list_elem_of_lookup_2.
Qed.

Lemma fresh_relations now c (relations fresh : list object) :
  objectsAreStale now fresh = false ->
  (forall row, row ∈ fresh <-> row ∈ relations /\ row !! "channel" = Some c) ->
  forall relation fetched,
    relation ∈ relations -> relation !! "channel" = Some c ->
    relation !! LAST_FETCHED = Some (Prim (PNum fetched)) ->
    now - fetched <= REFRESH_INTERVAL * 1000.
Proof.
  intros Hns Hin relation fetched Hrel Hchan Hstamp.
  destruct (Z.le_gt_cases (now - fetched) (REFRESH_INTERVAL * 1000)) as [|Hold];
    [assumption|].
  apply not_true_iff_false in Hns. destruct Hns.
  apply objectsAreStale_spec. exists relation, fetched. split_and!.
  - apply Hin. split; assumption.
  - rewrite Hstamp. reflexivity.
  - lia.
Qed.

Lemma related_users_of c (relations fresh : list object) set p :
  (forall row, row ∈ fresh <-> row ∈ relations /\ row !! "channel" = Some c) ->
  users_of fresh = Some set ->
  p ∈ set <-> related relations c p.
Proof.
  intros Hin Hset.
  rewrite (elem_of_users_of _ _ _ Hset). unfold related. split.
  - intros (relation & Hrel%Hin & Huser). exists relation. tauto.
  - intros (relation & Hrel & Hchan & Huser). exists relation.
    split; [|assumption]. apply Hin. split; assumption.
Qed.

(** X26.  [ChannelUser.where] answers from the stores only when none of the
    relation rows of the channel is stale (a stale row makes it wait for a
    request instead).  Every user of the answer is a row of the user store
    that is related to the channel, and its [can_edit] and [can_view] tell
    in which of the two relation tables. *)
Theorem where_local_answer st now c found :
  where_ st now (Some c) = Return (Fulfilled (Local found)) ->
  (forall relation fetched,
     relation ∈ rows (editors st) \/ relation ∈ rows (viewers st) ->
     relation !! "channel" = Some c ->
     relation !! LAST_FETCHED = Some (Prim (PNum fetched)) ->
     now - fetched <= REFRESH_INTERVAL * 1000) /\
  (forall u, u ∈ found ->
     exists row p can_edit can_view,
       row ∈ rows (users st) /\ row !! "id" = Some (Prim p) /\
       u = <["can_view" := Prim (PBool can_view)]>
             (<["can_edit" := Prim (PBool can_edit)]> row) /\
       (can_edit = true <-> related (rows (editors st)) c p) /\
       (can_view = true <-> related (rows (viewers st)) c p) /\
       (can_edit = true \/ can_view = true)).
Proof.
  unfold where_. destruct (truthy_value (Some c)); [|intros [=]].
  destruct (where_equal (rows (editors st)) _) as [eds|] eqn:Heds; [|intros [=]].
  destruct (where_equal (rows (viewers st)) _) as [vws|] eqn:Hvws; [|intros [=]].
  cbn [obind].
  destruct ((length eds =? 0)%nat && (length vws =? 0)%nat); [intros [=]|].
  destruct (objectsAreStale now eds) eqn:Hse; [intros [=]|].
  destruct (objectsAreStale now vws) eqn:Hsv; [intros [=]|]. cbn [orb].
  destruct (users_of eds) as [editorSet|] eqn:Hes; [|intros [=]].
  destruct (users_of vws) as [viewerSet|] eqn:Hvs; [|intros [=]].
  destruct (anyOf (rows (users st)) "id" _) as [found0|] eqn:Hany; [|intros [=]].
  cbn [obind]. intros Hw. injection Hw as <-.
  pose proof (fun row => elem_of_where_channel _ _ _ row Heds) as Hine'.
  pose proof (fun row => elem_of_where_channel _ _ _ row Hvws) as Hinv'.
  clear Heds Hvws.
  split.
  - intros relation fetched [Hrel|Hrel].
    + exact (fresh_relations now c _ eds Hse Hine' relation fetched Hrel).
    + exact (fresh_relations now c _ vws Hsv Hinv' relation fetched Hrel).
  - intros u (row & -> & Hrow)%list_elem_of_fmap.
    unfold anyOf in Hany.
    destruct (forallb valid_prim_key (editorSet ++ viewerSet)); [|discriminate Hany].
    injection Hany as <-.
    apply list_elem_of_In, List.filter_In in Hrow as [Hrow Hid].
    destruct (row !! "id") as [[p|]|] eqn:Hp; try discriminate Hid.
    apply bool_decide_eq_true in Hid.
    exists row, p, (bool_decide (p ∈ editorSet)), (bool_decide (p ∈ viewerSet)).
    split_and!.
    + apply list_elem_of_In. assumption.
    + exact Hp.
    + unfold with_permissions. rewrite Hp. reflexivity.
    + rewrite bool_decide_eq_true. exact (related_users_of c _ eds _ p Hine' Hes).
    + rewrite bool_decide_eq_true. exact (related_users_of c _ vws _ p Hinv' Hvs).
    + rewrite !bool_decide_eq_true. apply elem_of_app. assumption.
Qed.

Lemma where_local_answer_witness :
  exists row p can_edit can_view,
    row ∈ rows {[ Prim (PNum 1) := {[ "id" := Prim (PNum 1) ]} ]} /\
    row !! "id" = Some (Prim p) /\
    <["can_view" := Prim (PBool false)]>
      (<["can_edit" := Prim (PBool true)]> {[ "id" := Prim (PNum 1) ]})
    = <["can_view" := Prim (PBool can_view)]>
        (<["can_edit" := Prim (PBool can_edit)]> row) /\
    (can_edit = true <->
       related (rows {[ Arr [PNum 1; PNum 7] := pair_row (Prim (PNum 1)) (Prim (PNum 7)) ]})
               (Prim (PNum 7)) p) /\
    (can_view = true <-> related (rows ∅) (Prim (PNum 7)) p) /\
    (can_edit = true \/ can_view = true).
Proof.
  refine (proj2 (where_local_answer
                   (mkDb {[ Prim (PNum 1) := {[ "id" := Prim (PNum 1) ]} ]}
                         {[ Arr [PNum 1; PNum 7]
                            := pair_row (Prim (PNum 1)) (Prim (PNum 7)) ]}
                         ∅ [])
                   50 (Prim (PNum 7))
                   [<["can_view" := Prim (PBool false)]>
                      (<["can_edit" := Prim (PBool true)]> {[ "id" := Prim (PNum 1) ]})]
                   _) _ _).
  - vm_compute. reflexivity.
  - left.
Defined.

End ChannelUserFacts.

(** ** Requests over the broadcast channel *)

Module RequestsFacts.
Import Requests.

Lemma handler_settled {D E} id (s : settled D E) msgs :
  foldl (handler id) (Some s) msgs = Some s.
Proof. induction msgs as [|m msgs IH]; [done|]. simpl. exact IH. Qed.

(** X27.  The promise of a request is settled by the first response that
    carries the id of the request, and by nothing else: messages of other
    requests and messages that are no responses are passed over, what
    arrives after the response changes nothing, and without a response the
    promise stays pending.  A failure without an error, or a response with
    an unknown status, rejects the promise with nothing. *)
Theorem makeRequest_first_response {D E} id (before after : list (message D E)) msg :
  Forall (fun m => messageId m <> id \/ type m <> REQUEST_RESPONSE) before ->
  makeRequest id before = None /\
  (messageId msg = id -> type msg = REQUEST_RESPONSE ->
   makeRequest id (before ++ msg :: after) =
     Some match state msg, err msg with
          | SUCCESS, _ => Resolved (data msg)
          | FAILURE, Some e => RejectedWith e
          | _, _ => RejectedEmpty
          end).
Proof.
  intros Hbefore.
  assert (makeRequest id before = None) as Hnone.
  { unfold makeRequest.
    induction before as [|m before IH] using rev_ind; [done|].
    apply Forall_app in Hbefore as [Hbefore Hm%Forall_inv].
    rewrite foldl_app. simpl. rewrite (IH Hbefore). simpl.
    destruct Hm as [Hid|Hty].
    - by rewrite (proj2 (String.eqb_neq _ _) Hid).
    - rewrite (bool_decide_eq_false_2 _ Hty). by rewrite andb_false_r. }
  split; [done|].
  intros Hid Hty. unfold makeRequest in *.
  rewrite foldl_app, Hnone. simpl.
  rewrite Hid, String.eqb_refl, (bool_decide_eq_true_2 _ Hty). simpl.
  destruct (state msg), (err msg); apply handler_settled.
Qed.

Lemma makeRequest_first_response_witness :
  makeRequest "m1"
    ([mkMessage "m0" REQUEST_RESPONSE SUCCESS 1%nat (None : option nat);
      mkMessage "m1" FETCH_MODEL SUCCESS 2%nat None]
     ++ mkMessage "m1" REQUEST_RESPONSE FAILURE 3%nat None
     :: [mkMessage "m1" REQUEST_RESPONSE SUCCESS 4%nat None])
  = Some RejectedEmpty.
Proof.
  destruct (makeRequest_first_response "m1"
              [mkMessage "m0" REQUEST_RESPONSE SUCCESS 1%nat (None : option nat);
               mkMessage "m1" FETCH_MODEL SUCCESS 2%nat None]
              [mkMessage "m1" REQUEST_RESPONSE SUCCESS 4%nat None]
              (mkMessage "m1" REQUEST_RESPONSE FAILURE 3%nat None))
    as [_ Hsettled].
  - constructor; [left; discriminate|].
    constructor; [right; discriminate|]. constructor.
  - apply Hsettled; reflexivity.
Defined.

End RequestsFacts.


(** ** The Tree resource: the shape of a deep copy *)

Module CopyShapeFacts.
Import Tree TreeFacts TreeOrder.

Lemma zip_concat {A B} (ls : list (list A)) (rss : list (list B)) :
  Forall2 (fun lc rc => length rc = length lc) ls rss ->
  zip (concat ls) (concat rss) = concat (zip_with zip ls rss).
Proof.
  induction 1 as [|lc rc ls rss Hlen _ IH]; [done|]. simpl.
  rewrite zip_with_app by done. by rewrite IH.
Qed.

Lemma elem_of_zip_blocks {A B} (ls : list (list A)) (rss : list (list B)) x :
  x ∈ concat (zip_with zip ls rss) <->
  exists k lc rc, ls !! k = Some lc /\ rss !! k = Some rc /\ x ∈ zip lc rc.
Proof.
  rewrite elem_of_concat. split.
  - intros (block & Hx & Hblock).
    apply elem_of_lookup_zip_with in Hblock as (k & lc & rc & -> & Hl & Hr).
    eauto 10.
  - intros (k & lc & rc & Hl & Hr & Hx). exists (zip lc rc). split; [done|].
    apply elem_of_lookup_zip_with. eauto 10.
Qed.

(** The copies of the subtrees of the children, put below the copy of the
    node, mirror the subtree of the node. *)
Lemma mirrored_assemble p node data cs ls rss :
  parent data = Some p ->
  Forall2 (fun c lc => head lc = Some c /\ parent c = Some (id node)) cs ls ->
  Forall2 (mirrored (id data)) ls rss ->
  mirrored p (node :: concat ls) (data :: concat rss).
Proof.
  intros Hdata Hheads Hblocks.
  assert (Forall2 (fun lc rc => length rc = length lc) ls rss) as Hlens.
  { eapply Forall2_impl; [exact Hblocks|]. by intros lc rc (Hlen & _). }
  unfold mirrored. split_and!.
  - simpl. f_equal. rewrite !length_concat. f_equal.
    clear -Hlens. induction Hlens as [|lc rc ls rss Hlen _ IH]; [done|].
    simpl. by rewrite Hlen, IH.
  - simpl. by rewrite Hdata.
  - simpl. intros o c Hin. rewrite (zip_concat _ _ Hlens) in Hin.
    apply elem_of_zip_blocks in Hin as (k & lc & rc & Hl & Hr & Hin).
    destruct (Forall2_lookup_r _ _ _ _ _ Hheads Hl) as (child & _ & Hhead & Hpar).
    destruct (Forall2_lookup_lr _ _ _ _ _ _ Hblocks Hl Hr) as (Hlen & Hroot & Hlinks).
    destruct lc as [|o0 lc']; [done|]. injection Hhead as ->.
    destruct rc as [|c0 rc']; [done|]. simpl in Hroot. injection Hroot as Hroot.
    simpl in Hin. apply elem_of_cons in Hin as [[= -> ->]|Hin].
    + exists node, data. split_and!; [left|done|done].
    + destruct (Hlinks o c Hin) as (o' & c' & Hin' & Ho & Hc).
      exists o', c'. split_and!; [|done|done].
      right. rewrite (zip_concat _ _ Hlens). apply elem_of_zip_blocks.
      eauto 10.
Qed.

(** The listing of the subtree of a row starts with the row. *)
Lemma child_listings n t i cs ls :
  key_ordered t ->
  Forall2 (fun c lc => preorder n t (id c) = Some lc) cs ls ->
  (forall c, c ∈ cs -> c ∈ t /\ parent c = Some i) ->
  Forall2 (fun c lc => head lc = Some c /\ parent c = Some i) cs ls.
Proof.
  intros Hord HF Hcs. induction HF as [|c lc cs ls Hc _ IH]; [constructor|].
  constructor.
  - destruct (Hcs c) as [Hin Hpar]; [left|]. split; [|done].
    destruct n as [|n]; [done|]. simpl in Hc.
    rewrite (key_ordered_get _ _ Hord Hin) in Hc. simpl in Hc.
    destruct (mapM _ _); simpl in Hc; [|done]. by injection Hc as <-.
  - apply IH. intros c' Hc'. apply Hcs. by right.
Qed.

Section CopyShape.
Variable uuid : nat -> string.
Hypothesis uuid_inj : forall a b, uuid a = uuid b -> a = b.

Lemma copy_children_mirror changeType n :
  copy_mirrors uuid changeType n ->
  forall children ls st newp prow,
    unused_uuids uuid st ->
    key_ordered (tree st) ->
    get (tree st) newp = Some prow ->
    Forall2 (fun c lc => preorder n (tree st) (id c) = Some lc) children ls ->
    newp ∉ map id (concat ls) ->
    exists rss st',
      all (fun c => copy uuid n (id c) newp LAST_CHILD true changeType)
          children st = Some (Fulfilled (rss, st')) /\
      copied uuid newp st st' (concat ls) (concat rss) /\
      Forall2 (mirrored newp) ls rss /\
      key_ordered (tree st').
Proof.
  intros IH children.
  induction children as [|c cs IHc]; intros ls st newp prow Hun Hord Hp HF Hnot.
  - inversion HF; subst. exists [], st. split_and!; [done| |constructor|done].
    by apply copied_refl.
  - inversion HF as [|? lc ? ls' Hc HF']; subst. simpl in Hnot.
    rewrite map_app, elem_of_app in Hnot.
    destruct (IH st (id c) newp LAST_CHILD newp prow lc)
      as (res & st1 & Hcopy & Hcopied & Hmirror & Hord1); auto.
    destruct Hcopied as (Hs & Hi & Hu & Hr & Hg & Hw & Hf).
    destruct (IHc ls' st1 newp prow) as (rss & st2 & Hall & Hcopied2 & Hmirrors & Hord2);
      auto.
    + eapply preorder_stable_all; [exact HF'|exact Hg|].
      intros y Hy. apply Hw.
      * intros ->. apply Hnot. by right.
      * apply list_elem_of_fmap in Hy as (r & -> & Hr').
        intros k Hk. apply (in_table_not_uuid uuid st); [done| |done].
        by eapply preorder_all_in_table.
    + exists (res :: rss), st2. split_and!.
      * simpl. unfold tbind at 1. rewrite Hcopy.
        unfold tbind at 1. by rewrite Hall.
      * simpl. eapply copied_trans; [|exact Hcopied2|by left].
        unfold copied; auto 10.
      * by constructor.
      * done.
Qed.

Lemma copy_deep_mirror changeType n : copy_mirrors uuid changeType n.
Proof.
  induction n as [|n IH];
    intros st i target position p pn l Hun Hord Hpre Hres Hp Hnot.
  - done.
  - simpl in Hpre.
    destruct (get (tree st) i) as [node|] eqn:Hi; simpl in Hpre; [|done].
    destruct (mapM _ _) as [ls|] eqn:Hls; simpl in Hpre; [|done].
    injection Hpre as <-. apply mapM_Some in Hls.
    destruct (tableCopy_ok uuid st i target position changeType p pn node Hres Hp Hi)
      as (lft' & change & Hcopy). simpl in Hcopy.
    set (data := mkNode (uuid (uuids st)) (Some p) lft' (tree_id pn)
                        (channel_id node) (Some i) (Z.succ <$> level pn)) in *.
    set (st1 := mkDb (put (tree st) data) (changes st ++ [change])
                     (contentnode st) (S (uuids st))) in *.
    pose proof (copied_root uuid uuid_inj st i p pn node lft' change Hun Hi) as Hroot.
    simpl in Hroot. fold data in Hroot. fold st1 in Hroot.
    destruct Hroot as (Hs & Hid & Hu & Hr & Hg & Hw & Hf).
    assert (forall r, r ∈ node :: concat ls -> r ∈ tree st) as Hin.
    { intros r [->|Hr']%elem_of_cons; [by eapply get_elem_of|].
      by eapply preorder_all_in_table. }
    assert (forall y, y ∈ map id (node :: concat ls) ->
                      where_parent (tree st1) y = where_parent (tree st) y) as Hsame.
    { intros y Hy. apply Hw.
      - intros ->. done.
      - apply list_elem_of_fmap in Hy as (r & -> & Hr').
        intros k Hk. apply (in_table_not_uuid uuid st); auto. }
    destruct (copy_children_mirror changeType n IH
                (sortBy_lft (where_parent (tree st) i)) ls st1 (id data) data)
      as (rss & st2 & Hall & Hcopied & Hmirrors & Hord2); auto.
    + by apply put_key_ordered.
    + apply Hr. left.
    + eapply preorder_stable_all; [exact Hls|exact Hg|].
      intros y Hy. apply Hsame. simpl. by right.
    + intros (r & Heq & Hr')%list_elem_of_fmap.
      apply (in_table_not_uuid uuid st r (uuids st)); auto.
      apply Hin. by right.
    + assert (copied uuid p st st2 (node :: concat ls) (data :: concat rss))
        as Hfinal.
      { change (copied uuid p st st2 ([node] ++ concat ls) ([data] ++ concat rss)).
        eapply copied_trans; [|exact Hcopied|].
        - unfold copied; auto 10.
        - right. exists (uuids st). split; [lia|done]. }
      assert (mirrored p (node :: concat ls) (data :: concat rss)) as Hshape.
      { apply (mirrored_assemble p node data
                 (sortBy_lft (where_parent (tree st) i))); [done| |done].
        rewrite (get_id _ _ _ Hi).
        eapply child_listings; [exact Hord|exact Hls|].
        intros c Hc. rewrite sortBy_lft_perm in Hc.
        apply list_elem_of_filter in Hc as [Hc1 Hc2]. done. }
      cbn [copy]. unfold tbind at 1. rewrite Hcopy.
      unfold tbind at 1. unfold tbind at 1. unfold tret at 1.
      unfold tbind at 1.
      replace (where_parent (tree st1) i) with (where_parent (tree st) i)
        by (symmetry; apply Hsame; rewrite <- (get_id _ _ _ Hi); left).
      rewrite promiseChunk_all by lia.
      rewrite Hall. unfold tret at 1.
      destruct (bool_decide (changeType = COPIED)).
      * eauto 10.
      * eexists _, _. split; [reflexivity|]. split_and!; [|done|done].
        eapply copied_same_tables; [| |exact Hfinal]; done.
Qed.

(** X28.  A deep copy keeps the shape of the subtree it copies: in a table
    kept in key order, the copy of the root hangs below the parent of the
    destination, and every other copy hangs below the copy of the parent
    of its original, the copies standing for the originals position by
    position, each with the id of its original as [source_id].  The table
    is still in key order afterwards. *)
Theorem copy_deep_keeps_shape changeType n st i target position p pn
    originals :
  unused_uuids uuid st ->
  key_ordered (tree st) ->
  preorder n (tree st) i = Some originals ->
  resolveParent (tree st) target position = Fulfilled (Some p) ->
  get (tree st) p = Some pn ->
  p ∉ map id originals ->
  exists copies st',
    copy uuid n i target position true changeType st
      = Some (Fulfilled (copies, st')) /\
    Forall2 (fun new old => source_id new = Some (id old)) copies originals /\
    mirrored p originals copies /\
    key_ordered (tree st').
Proof.
  intros Hun Hord Hpre Hres Hp Hnot.
  destruct (copy_deep_mirror changeType n st i target position p pn
              originals Hun Hord Hpre Hres Hp Hnot)
    as (copies & st' & Hcopy & (Hs & _) & Hshape & Hord').
  exists copies, st'. split_and!; [done| |done|done].
  by apply map_eq_Forall2.
Qed.

End CopyShape.

Lemma sample_db_key_ordered : key_ordered (tree sample_db).
Proof. repeat constructor. Qed.

Lemma copy_deep_keeps_shape_witness :
  exists copies st',
    copy sample_uuid 3 "p" "q" LAST_CHILD true COPIED sample_db
      = Some (Fulfilled (copies, st')) /\
    map source_id copies = [Some "p"; Some "a"; Some "c"; Some "b"] /\
    mirrored "q"
      [mkNode "p" None (Some 1%Q) (Some "t") (Some "ch") None (Some 0);
       sibling "a" 1;
       mkNode "c" (Some "a") (Some 1%Q) (Some "t") (Some "ch") None (Some 2);
       sibling "b" 2]
      copies.
Proof.
  destruct (copy_deep_keeps_shape sample_uuid sample_uuid_inj COPIED 3
              sample_db "p" "q" LAST_CHILD "q"
              (mkNode "q" None (Some 1%Q) (Some "t2") (Some "ch2") None (Some 0))
              [mkNode "p" None (Some 1%Q) (Some "t") (Some "ch") None (Some 0);
               sibling "a" 1;
               mkNode "c" (Some "a") (Some 1%Q) (Some "t") (Some "ch") None (Some 2);
               sibling "b" 2])
    as (copies & st' & Hcopy & Hsource & Hshape & _).
  - exact sample_uuid_unused.
  - exact sample_db_key_ordered.
  - reflexivity.
  - reflexivity.
  - reflexivity.
  - vm_compute. intros Hin.
    repeat (apply elem_of_cons in Hin as [Hin|Hin]; [discriminate|]).
    by apply elem_of_nil in Hin.
  - exists copies, st'. split_and!; [exact Hcopy| |exact Hshape].
    clear Hsource Hshape. vm_compute in Hcopy.
    injection Hcopy as <- _. reflexivity.
Defined.

End CopyShapeFacts.
